(** * my_utils: the MySQL bulk-load-and-merge operation ([mysql/method.py])

    A shallow embedding of [Operation._session_scope], [Operation._my_insert]
    and [Operation.to_mysql], together with a small executable model of the
    collaborators they drive (a SQLAlchemy session over a MySQL connection and
    [pandas.DataFrame.to_sql]).  The Python code is effectful and fallible, so
    it is written in a state-and-exception monad over a [World] that holds the
    database, the open transaction and the log of engine calls.

    What the model takes from the collaborators:
    - a session is a fresh connection; [commit] makes the pending state
      durable, [rollback] and [close] abandon it, and [close] drops the
      temporary tables of the connection;
    - [create], every insert chunk, [execute] and [commit] reach the server
      and may fail there, as a fault plan in the world decides; [rollback]
      and [close] do not fail;
    - a statement that fails changes no table;
    - MySQL duplicate handling: the primary key is the first unique index of
      a table, the declared unique indexes follow; a row duplicates another
      when it agrees with it on one of them and has no NULL under it; a plain
      insert rejects a duplicate, [INSERT IGNORE] skips it, [ON DUPLICATE KEY
      UPDATE] rewrites the existing row and is refused when the rewritten row
      meets another row on an index;
    - the auto-increment counter moves on for every row a statement handles,
      also for a duplicate that is skipped or rewritten (InnoDB);
    - [INSERT ... SELECT] reads the selected table in the order of its
      primary key;
    - a statement is compiled before it is sent: a column key the target
      class does not have raises [KeyError] and the server is not reached;
    - the class handed to [create] is the temporary-table class of the
      docstring of [to_mysql], so the table it creates is a temporary table of
      the connection;
    - [to_sql] sends nothing for an empty frame and otherwise inserts the
      rows in chunks of [chunksize] rows.

    The decorators [Retry] and [Singleton] of [decorator/__init__.py] and
    [FakeUA.get_ua] of [spider/myua.py] follow, each over the state of the
    function it wraps or the generator it draws from. *)

From Stdlib Require Import ZArith.
From stdpp Require Import gmap strings list.

Open Scope string_scope.
Open Scope list_scope.
Open Scope nat_scope.

(** ** Python values and exceptions *)

(** A cell of a table or of a data frame. *)
Inductive value :=
| VNull
| VInt (z : Z)
| VStr (s : string).

#[global] Instance value_eq_dec : EqDecision value.
Proof. solve_decision. Defined.

#[global] Instance value_inhabited : Inhabited value := populate VNull.

(** The exception classes that occur.  [KeyboardInterrupt] derives from
    [BaseException] only; every other class derives from [Exception]. *)
Inductive exn :=
| ValueError (msg : string)
| KeyError (k : string)
| CompileError (msg : string)
| InvalidRequestError (msg : string)
| OperationalError (msg : string)
| ProgrammingError (msg : string)
| IntegrityError (msg : string)
| KeyboardInterrupt.

#[global] Instance exn_eq_dec : EqDecision exn.
Proof. solve_decision. Defined.

(** [isinstance(e, Exception)] *)
Definition is_Exception (e : exn) : bool :=
  match e with
  | KeyboardInterrupt => false
  | _ => true
  end.

(** Outcome of a Python call: a value, or a raised exception. *)
Inductive result (A : Type) :=
| Ok (a : A)
| Raise (e : exn).

Arguments Ok {A} a.
Arguments Raise {A} e.

#[global] Instance result_ret : MRet result := λ A a, Ok a.

#[global] Instance result_bind : MBind result := λ A B f r,
  match r with
  | Ok a => f a
  | Raise e => Raise e
  end.

#[global] Instance result_fmap : FMap result := λ A B f r,
  match r with
  | Ok a => Ok (f a)
  | Raise e => Raise e
  end.

(** [for x in l: ...] over a pure, fallible body, collecting the results. *)
Fixpoint for_each {A B : Type} (f : A → result B) (l : list A) : result (list B) :=
  match l with
  | [] => Ok []
  | x :: l' => y ← f x; ys ← for_each f l'; Ok (y :: ys)
  end.

(** [l.remove(x)]: drops the first element equal to [x], raises
    [ValueError] when there is none. *)
Fixpoint list_remove {A : Type} `{EqDecision A} (x : A) (l : list A) : result (list A) :=
  match l with
  | [] => Raise (ValueError "list.remove(x): x not in list")
  | y :: l' => if decide (x = y) then Ok l' else (y ::.) <$> list_remove x l'
  end.

(** [for k in ks: l.remove(k)] *)
Fixpoint remove_each {A : Type} `{EqDecision A} (ks l : list A) : result (list A) :=
  match ks with
  | [] => Ok l
  | k :: ks' => l' ← list_remove k l; remove_each ks' l'
  end.

(** ** SQLAlchemy table classes *)

(** A [Column] of a mapped table: its attribute [key], its column [name],
    the [primary_key] flag and the server default. *)
Record Column := mkColumn {
  key : string;
  name : string;
  primary_key : bool;
  default : value
}.

#[global] Instance Column_eq_dec : EqDecision Column.
Proof. solve_decision. Defined.

(** A declarative table class: [__tablename__], the columns of [__table__]
    in declaration order, and the unique indexes of the table (each a list of
    column names). *)
Record DeclarativeMeta := mkTableClass {
  __tablename__ : string;
  columns : list Column;
  uniques : list (list string)
}.

#[global] Instance DeclarativeMeta_eq_dec : EqDecision DeclarativeMeta.
Proof. solve_decision. Defined.

(** What [inspect(table_class)] gives access to. *)
Module Mapper.
Record t := mk {
  columns : list Column;
  primary_key : list Column
}.
End Mapper.

Definition inspect (table_class : DeclarativeMeta) : Mapper.t :=
  {| Mapper.columns := columns table_class;
     Mapper.primary_key := filter (λ c, primary_key c = true) (columns table_class) |}.

(** ** The MySQL [Insert] construct *)

(** [session.query] applied to a list of columns: the selected columns and
    the table they belong to. *)
Record Query := mkQuery {
  entities : list Column;
  select_from : string
}.

#[global] Instance Query_eq_dec : EqDecision Query.
Proof. solve_decision. Defined.

Record Insert := mkInsert {
  table : DeclarativeMeta;
  select_names : list string;
  select : option Query;
  _prefixes : list string;
  _on_duplicate_key_update : option (list (string * Column))
}.

#[global] Instance Insert_eq_dec : EqDecision Insert.
Proof. solve_decision. Defined.

(** [insert(target_table)] *)
Definition insert (target_table : DeclarativeMeta) : Insert :=
  {| table := target_table; select_names := []; select := None;
     _prefixes := []; _on_duplicate_key_update := None |}.

(** [stmt.from_select(names, select)] *)
Definition from_select (names : list string) (q : Query) (stmt : Insert) : Insert :=
  {| table := table stmt; select_names := names; select := Some q;
     _prefixes := _prefixes stmt;
     _on_duplicate_key_update := _on_duplicate_key_update stmt |}.

(** [stmt.inserted[k]]: the [VALUES(...)] reference of the target column whose
    key is [k]; indexing with an unknown key raises [KeyError]. *)
Definition inserted (stmt : Insert) (k : string) : result Column :=
  match List.find (λ c, bool_decide (key c = k)) (columns (table stmt)) with
  | Some c => Ok c
  | None => Raise (KeyError k)
  end.

(** [stmt.on_duplicate_key_update(update_dict)]; an empty dictionary is
    refused. *)
Definition on_duplicate_key_update (update_dict : list (string * Column)) (stmt : Insert)
    : result Insert :=
  if bool_decide (update_dict = []) then
    Raise (ValueError "update parameter must be a non-empty dictionary or a ColumnCollection.")
  else
    Ok {| table := table stmt; select_names := select_names stmt; select := select stmt;
          _prefixes := _prefixes stmt;
          _on_duplicate_key_update := Some update_dict |}.

(** [stmt.prefix_with(p)] *)
Definition prefix_with (p : string) (stmt : Insert) : Insert :=
  {| table := table stmt; select_names := select_names stmt; select := select stmt;
     _prefixes := _prefixes stmt ++ [p];
     _on_duplicate_key_update := _on_duplicate_key_update stmt |}.

(** ** The database

    What follows up to [to_sql] models the collaborators of [Operation]: the
    MySQL server, the SQLAlchemy session and [pandas]. *)

(** A row maps column names to cells; a stored table keeps the class it was
    created from, its rows in insertion order and the next value of its
    auto-increment key. *)
Record Table := mkTable {
  table_class : DeclarativeMeta;
  rows : list (gmap string value);
  auto_increment : Z
}.

(** The row the engine builds from the supplied cells: a column that is not
    supplied takes the next auto-increment value when it is a primary key and
    its default otherwise. *)
Definition cell_of (given : gmap string value) (auto : Z) (c : Column) : value :=
  match given !! name c with
  | Some v => v
  | None => if primary_key c then VInt auto else default c
  end.

Definition row_of (cls : DeclarativeMeta) (given : gmap string value) (auto : Z) : gmap string value :=
  list_to_map (map (λ c, (name c, cell_of given auto c)) (columns cls)).

(** The cells of a row under the columns of a unique index. *)
Definition index_value (u : list string) (r : gmap string value) : list value :=
  map (λ c, r !!! c) u.

(** MySQL duplicate-key test on one unique index: the new row carries no
    NULL under the index and agrees with the old row on it. *)
Definition collides (u : list string) (new old : gmap string value) : bool :=
  bool_decide (VNull ∉ index_value u new) &&
  bool_decide (index_value u new = index_value u old).

(** The unique indexes of a table: its primary key, when it has one, comes
    first, then the declared unique indexes. *)
Definition primary_names (cls : DeclarativeMeta) : list string :=
  map name (filter (λ c, primary_key c = true) (columns cls)).

Definition indexes (cls : DeclarativeMeta) : list (list string) :=
  match primary_names cls with
  | [] => uniques cls
  | pk => pk :: uniques cls
  end.

(** The row a new row duplicates: the indexes are tried in their order, and
    on each the rows of the table in theirs. *)
Fixpoint find_duplicate (us : list (list string)) (new : gmap string value)
    (rows : list (gmap string value)) : option (nat * gmap string value) :=
  match us with
  | [] => None
  | u :: us' =>
      match list_find (λ old, collides u new old = true) rows with
      | Some hit => Some hit
      | None => find_duplicate us' new rows
      end
  end.

(** The auto-increment counter after a row was handled: it lies above the
    key of that row, whether the row was inserted or was a duplicate. *)
Definition next_auto (cls : DeclarativeMeta) (new : gmap string value) (auto : Z) : Z :=
  foldl (λ a k, match new !!! k with VInt z => Z.max a (z + 1) | _ => a end)
    auto (primary_names cls).

(** What the statement does with a row that duplicates an existing one:
    plain [INSERT] rejects it, [INSERT IGNORE] skips it,
    [ON DUPLICATE KEY UPDATE c = VALUES(s), ...] rewrites the existing row. *)
Inductive OnDuplicate :=
| Reject
| Skip
| Overwrite (assignments : list (string * string)).

Definition assign (new : gmap string value) (old : gmap string value) (a : string * string) : gmap string value :=
  <[a.1 := new !!! a.2]> old.

(** A rewritten row whose value under some index changed must not meet
    that value in the table. *)
Definition conflicts (us : list (list string)) (upd old : gmap string value)
    (rows : list (gmap string value)) : bool :=
  existsb (λ u, negb (bool_decide (index_value u upd = index_value u old)) &&
                existsb (λ other, collides u upd other) rows) us.

(** One row of an insert. *)
Definition insert_row (mode : OnDuplicate) (t : Table) (given : gmap string value) : result Table :=
  let new := row_of (table_class t) given (auto_increment t) in
  let auto := next_auto (table_class t) new (auto_increment t) in
  match find_duplicate (indexes (table_class t)) new (rows t) with
  | None =>
      Ok {| table_class := table_class t; rows := rows t ++ [new]; auto_increment := auto |}
  | Some (i, old) =>
      match mode with
      | Reject => Raise (IntegrityError "Duplicate entry")
      | Skip =>
          Ok {| table_class := table_class t; rows := rows t; auto_increment := auto |}
      | Overwrite assignments =>
          let upd := foldl (assign new) old assignments in
          if conflicts (indexes (table_class t)) upd old (rows t) then
            Raise (IntegrityError "Duplicate entry")
          else
            Ok {| table_class := table_class t; rows := <[i := upd]> (rows t);
                  auto_increment := auto |}
      end
  end.

(** The rows of one statement, in order; the first failure aborts it. *)
Fixpoint insert_rows (mode : OnDuplicate) (t : Table) (givens : list (gmap string value)) : result Table :=
  match givens with
  | [] => Ok t
  | g :: givens' => t' ← insert_row mode t g; insert_rows mode t' givens'
  end.

(** The order of primary keys: NULL, then the integers, then the strings;
    key tuples are compared position by position. *)
Definition value_le (a b : value) : bool :=
  match a, b with
  | VNull, _ => true
  | VInt _, VNull => false
  | VInt x, VInt y => (x <=? y)%Z
  | VInt _, VStr _ => true
  | VStr s, VStr t => String.leb s t
  | VStr _, _ => false
  end.

Fixpoint key_le (k1 k2 : list value) : bool :=
  match k1, k2 with
  | [], _ => true
  | _ :: _, [] => false
  | a :: k1', b :: k2' => if bool_decide (a = b) then key_le k1' k2' else value_le a b
  end.

Fixpoint insert_sorted {A : Type} (le : A → A → bool) (x : A) (l : list A) : list A :=
  match l with
  | [] => [x]
  | y :: l' => if le x y then x :: y :: l' else y :: insert_sorted le x l'
  end.

Definition sort_by {A : Type} (le : A → A → bool) (l : list A) : list A :=
  foldr (insert_sorted le) [] l.

(** A full scan of a table reads its rows in the order of the primary key
    (rows of equal key, and the rows of a table without primary key, in the
    order of insertion). *)
Definition scan (t : Table) : list (gmap string value) :=
  sort_by (λ r1 r2, key_le (index_value (primary_names (table_class t)) r1)
                           (index_value (primary_names (table_class t)) r2))
    (rows t).

(** ** The world: database, session and log *)

Inductive Event :=
| EvSession (db : string) (scoped : bool)
| EvCreate (tablename : string)
| EvInsert (tablename : string) (nrows : nat)
| EvExecute (stmt : Insert)
| EvCommit
| EvRollback
| EvClose.

#[global] Instance Event_eq_dec : EqDecision Event.
Proof. solve_decision. Defined.

(** [durable] holds the committed tables, [pending] the view of the open
    transaction, [scratch] the temporary tables of the connection.  [trace]
    logs every call made to the session or its connection.  The calls that
    send a statement or a commit to the server are numbered by [clock], and
    [faults] names the calls at which the server fails, and with what. *)
Record World := mkWorld {
  durable : gmap string Table;
  pending : gmap string Table;
  scratch : gmap string Table;
  trace : list Event;
  clock : nat;
  faults : nat → option exn
}.

(** A Python computation over the world. *)
Definition M (A : Type) : Type := World → result A * World.

#[global] Instance M_ret : MRet M := λ A a w, (Ok a, w).

#[global] Instance M_bind : MBind M := λ A B f m w,
  match m w with
  | (Ok a, w') => f a w'
  | (Raise e, w') => (Raise e, w')
  end.

Definition raise {A : Type} (e : exn) : M A := λ w, (Raise e, w).

(** [try: m / except Exception as e: handler e] *)
Definition try_except {A : Type} (m : M A) (handler : exn → M A) : M A := λ w,
  match m w with
  | (Ok a, w') => (Ok a, w')
  | (Raise e, w') => if is_Exception e then handler e w' else (Raise e, w')
  end.

(** [try: m / except Exception as e: handler e / else: orelse] *)
Definition try_except_else {A : Type} (m : M unit) (handler : exn → M A) (orelse : M A) : M A := λ w,
  match m w with
  | (Ok _, w') => orelse w'
  | (Raise e, w') => if is_Exception e then handler e w' else (Raise e, w')
  end.

(** [try: m / finally: final] *)
Definition try_finally {A : Type} (m : M A) (final : M unit) : M A := λ w,
  match m w with
  | (r, w') =>
      match final w' with
      | (Ok _, w'') => (r, w'')
      | (Raise e, w'') => (Raise e, w'')
      end
  end.

(** A call that reaches the server: it is logged and numbered, fails when
    the fault plan says so, and otherwise either succeeds with a new world or
    fails leaving the database as it was. *)
Definition server_call (ev : Event) (op : World → result World) : M unit := λ w,
  let w1 := {| durable := durable w; pending := pending w; scratch := scratch w;
               trace := trace w ++ [ev]; clock := S (clock w); faults := faults w |} in
  match faults w (clock w) with
  | Some e => (Raise e, w1)
  | None =>
      match op w1 with
      | Ok w2 => (Ok tt, w2)
      | Raise e => (Raise e, w1)
      end
  end.

(** Temporary tables shadow persistent ones of the same name. *)
Inductive Location := Temporary | Persistent.

Definition lookup_table (w : World) (n : string) : option (Location * Table) :=
  match scratch w !! n with
  | Some t => Some (Temporary, t)
  | None => (λ t, (Persistent, t)) <$> pending w !! n
  end.

Definition store_table (loc : Location) (n : string) (t : Table) (w : World) : World :=
  match loc with
  | Temporary =>
      {| durable := durable w; pending := pending w; scratch := <[n := t]> (scratch w);
         trace := trace w; clock := clock w; faults := faults w |}
  | Persistent =>
      {| durable := durable w; pending := <[n := t]> (pending w); scratch := scratch w;
         trace := trace w; clock := clock w; faults := faults w |}
  end.

(** *** Sessions *)

Record Connector := mkConnector { connector_db : string }.

Inductive Session := PlainSession | ScopedSession.

Record Connection := mkConnection { connection_of : Session }.

(** A fresh session: a new connection, hence no temporary table, and a
    transaction that starts from the committed state. *)
Definition open_session (c : Connector) (scoped : bool) (w : World) : World :=
  {| durable := durable w; pending := durable w; scratch := ∅;
     trace := trace w ++ [EvSession (connector_db c) scoped];
     clock := clock w; faults := faults w |}.

(** [Connector(db).get_session()] *)
Definition get_session (c : Connector) : M Session := λ w,
  (Ok PlainSession, open_session c false w).

(** [scoped_session(Connector(db).get_session)] *)
Definition scoped_session (c : Connector) : M Session := λ w,
  (Ok ScopedSession, open_session c true w).

(** [session.connection()] *)
Definition connection (session : Session) : Connection := mkConnection session.

(** [session.commit()] *)
Definition commit (session : Session) : M unit :=
  server_call EvCommit (λ w, Ok
    {| durable := pending w; pending := pending w; scratch := scratch w;
       trace := trace w; clock := clock w; faults := faults w |}).

(** [session.rollback()]: the open transaction is abandoned. *)
Definition rollback (session : Session) : M unit := λ w,
  (Ok tt, {| durable := durable w; pending := durable w; scratch := scratch w;
             trace := trace w ++ [EvRollback]; clock := clock w; faults := faults w |}).

(** [session.close()]: the connection is released; what was not committed
    is lost and the temporary tables of the connection disappear. *)
Definition close (session : Session) : M unit := λ w,
  (Ok tt, {| durable := durable w; pending := durable w; scratch := ∅;
             trace := trace w ++ [EvClose]; clock := clock w; faults := faults w |}).

(** *** Statements *)

(** [table_class.__table__.create(bind, checkfirst)].  The only class
    [to_mysql] creates a table for is its [temp_table], documented as the
    temporary-table class and commented as a table that disappears with the
    connection: the table is stored among the temporary tables.  With
    [checkfirst=False] an existing table of that name on the connection is an
    error. *)
Definition create (table_class : DeclarativeMeta) (bind : Connection) (checkfirst : bool) : M unit :=
  server_call (EvCreate (__tablename__ table_class)) (λ w,
    match scratch w !! __tablename__ table_class with
    | Some _ =>
        if checkfirst then Ok w else Raise (OperationalError "Table already exists")
    | None =>
        Ok (store_table Temporary (__tablename__ table_class)
              {| table_class := table_class; rows := []; auto_increment := 1 |} w)
    end).

(** One multi-row [INSERT INTO tablename (keys) VALUES ...]. *)
Definition exec_insert (con : Connection) (tablename : string) (keys : list string)
    (data : list (list value)) : M unit :=
  server_call (EvInsert tablename (length data)) (λ w,
    match lookup_table w tablename with
    | None => Raise (ProgrammingError "Table doesn't exist")
    | Some (loc, t) =>
        if bool_decide (keys ⊆ map name (columns (table_class t))) then
          t' ← insert_rows Reject t (map (λ r, list_to_map (zip keys r)) data);
          Ok (store_table loc tablename t' w)
        else Raise (OperationalError "Unknown column")
    end).

(** [session.execute(stmt)] for an [Insert].  The statement is compiled
    first: the keys of its column list are looked up among the columns of the
    target class, an unknown key raising [KeyError]; nothing is sent to the
    server when this fails.  The server then reads the rows of the selected
    table and inserts them into the target; a statement that fails changes
    nothing. *)
Definition resolve (cls : DeclarativeMeta) (k : string) : result string :=
  match List.find (λ c, bool_decide (key c = k)) (columns cls) with
  | Some c => Ok (name c)
  | None => Raise (KeyError k)
  end.

Definition on_duplicate (stmt : Insert) : result OnDuplicate :=
  match _on_duplicate_key_update stmt with
  | Some update_dict =>
      Overwrite <$> for_each (λ kv : string * Column, k ← resolve (table stmt) kv.1; Ok (k, name kv.2)) update_dict
  | None => Ok (if bool_decide ("IGNORE" ∈ _prefixes stmt) then Skip else Reject)
  end.

(** The statement as sent: target class, insert column names, select and
    duplicate handling. *)
Record Compiled := mkCompiled {
  into : DeclarativeMeta;
  into_names : list string;
  from_query : Query;
  on_dup : OnDuplicate
}.

Definition compile (stmt : Insert) : result Compiled :=
  match select stmt with
  | None => Raise (CompileError "no select")
  | Some q =>
      names ← for_each (resolve (table stmt)) (select_names stmt);
      mode ← on_duplicate stmt;
      if bool_decide (entities q = []) then
        Raise (InvalidRequestError "Query contains no columns with which to SELECT from.")
      else
        Ok {| into := table stmt; into_names := names; from_query := q; on_dup := mode |}
  end.

(** The cells a source row supplies: the selected columns, position by
    position under the insert column list. *)
Definition selected (names : list string) (q : Query) (r : gmap string value) : gmap string value :=
  list_to_map (zip names (map (λ c, r !!! name c) (entities q))).

Definition run_insert (c : Compiled) (w : World) : result World :=
  let q := from_query c in
  let names := into_names c in
  if bool_decide (length names ≠ length (entities q)) then
    Raise (OperationalError "Column count doesn't match")
  else
    match lookup_table w (select_from q), lookup_table w (__tablename__ (into c)) with
    | None, _ | _, None => Raise (ProgrammingError "Table doesn't exist")
    | Some (_, src), Some (loc, tgt) =>
        if bool_decide (map name (entities q) ⊆ map name (columns (table_class src))) &&
           bool_decide (names ⊆ map name (columns (table_class tgt)))
        then
          tgt' ← insert_rows (on_dup c) tgt (map (selected names q) (scan src));
          Ok (store_table loc (__tablename__ (into c)) tgt' w)
        else Raise (OperationalError "Unknown column")
    end.

Definition execute (session : Session) (stmt : Insert) : M unit := λ w,
  match compile stmt with
  | Ok c => server_call (EvExecute stmt) (run_insert c) w
  | Raise e =>
      (Raise e, {| durable := durable w; pending := pending w; scratch := scratch w;
                   trace := trace w ++ [EvExecute stmt]; clock := clock w;
                   faults := faults w |})
  end.

(** [session.query] applied to the columns of [table_class]. *)
Definition query (session : Session) (table_class : DeclarativeMeta) (cols : list Column) : Query :=
  {| entities := cols; select_from := __tablename__ table_class |}.

(** *** pandas *)

(** A data frame: column labels and rows of cells, one cell per label. *)
Record DataFrame := mkDataFrame {
  df_columns : list string;
  df_values : list (list value)
}.

(** The chunk loop of [DataFrame.to_sql]: chunk [i] holds the rows from
    [i * chunksize] up to [min((i + 1) * chunksize, nrows)]; the loop stops at
    the first empty chunk. *)
Fixpoint insert_chunks (con : Connection) (tablename : string) (df : DataFrame)
    (chunksize : nat) (indices : list nat) : M unit :=
  match indices with
  | [] => mret tt
  | i :: indices' =>
      let nrows := length (df_values df) in
      let start_i := i * chunksize in
      let end_i := ((i + 1) * chunksize) `min` nrows in
      if bool_decide (end_i ≤ start_i)%nat then mret tt
      else
        exec_insert con tablename (df_columns df)
          (take (end_i - start_i) (drop start_i (df_values df)));;
        insert_chunks con tablename df chunksize indices'
  end.

(** [df.to_sql(tablename, con=con, if_exists='append', index=False,
    chunksize=chunksize)] on a table that exists: nothing is sent for an
    empty frame, otherwise [nrows / chunksize + 1] chunks are tried. *)
Definition to_sql (df : DataFrame) (tablename : string) (con : Connection) (chunksize : nat) : M unit :=
  let nrows := length (df_values df) in
  if bool_decide (nrows = 0) then mret tt
  else if bool_decide (chunksize = 0) then raise (ValueError "chunksize argument should be non-zero")
  else insert_chunks con tablename df chunksize (seq 0 (nrows / chunksize + 1)).

(** ** [class Operation] *)

Record Operation := mkOperation { db : string }.

(** [Operation._session_scope], a context manager: [body] is the block under
    [with self._session_scope(scoped) as session]. *)
Definition _session_scope (self : Operation) (scoped : bool) (body : Session → M unit) : M unit :=
  session ← (if negb scoped then get_session (mkConnector (db self))
             else scoped_session (mkConnector (db self)));
  try_finally
    (try_except
       (body session;;
        commit session)
       (λ e,
        rollback session;;
        raise e))
    (close session).

Definition dquote : string := String (Ascii.ascii_of_nat 34) EmptyString.

Definition my_insert_message : string :=
  "if_record_exists 参数只接受 update 或 ignore".

Definition to_mysql_message : string :=
  "if_record_exists 取值必须为" +:+ dquote +:+ "update" +:+ dquote +:+ "或"
    +:+ dquote +:+ "ignore" +:+ dquote.

(** The first part of [Operation._my_insert] (up to the second [remove]
    loop): the keys and the columns of the temporary table without its primary
    key. *)
Definition _my_insert_columns (temp_table : DeclarativeMeta) : result (list string * list Column) :=
  let temp_inspect := inspect temp_table in
  let column_list := Mapper.columns temp_inspect in
  let pk_list := Mapper.primary_key temp_inspect in
  let bare_column_list := map key (Mapper.columns temp_inspect) in
  let bare_pk_list := map name (Mapper.primary_key temp_inspect) in
  bare_column_list ← remove_each bare_pk_list bare_column_list;
  column_list ← remove_each pk_list column_list;
  Ok (bare_column_list, column_list).

(** The statement [Operation._my_insert] builds. *)
Definition _my_insert_stmt (target_table temp_table : DeclarativeMeta) (session : Session)
    (if_record_exists : string) : result Insert :=
  lists ← _my_insert_columns temp_table;
  let bare_column_list := lists.1 in
  let column_list := lists.2 in
  if bool_decide (if_record_exists = "update") then
    let stmt := from_select bare_column_list (query session temp_table column_list)
                  (insert target_table) in
    update_dict ← for_each (λ column, v ← inserted stmt column; Ok (column, v)) bare_column_list;
    on_duplicate_key_update update_dict stmt
  else if bool_decide (if_record_exists = "ignore") then
    let stmt := from_select bare_column_list (query session temp_table column_list)
                  (insert target_table) in
    Ok (prefix_with "IGNORE" stmt)
  else Raise (ValueError my_insert_message).

(** [Operation._my_insert] *)
Definition _my_insert (target_table temp_table : DeclarativeMeta) (session : Session)
    (if_record_exists : string) : M unit := λ w,
  match _my_insert_stmt target_table temp_table session if_record_exists with
  | Ok stmt => execute session stmt w
  | Raise e => (Raise e, w)
  end.

(** The block under [with self._session_scope() as session] in
    [Operation.to_mysql]. *)
Definition to_mysql_block (df : DataFrame) (target_table temp_table : DeclarativeMeta)
    (if_record_exists : string) (session : Session) : M unit :=
  create temp_table (connection session) false;;
  try_except_else
    (to_sql df (__tablename__ temp_table) (connection session) 1000)
    (λ e, raise e)
    (_my_insert target_table temp_table session if_record_exists).

(** [Operation.to_mysql] *)
Definition to_mysql (self : Operation) (df : DataFrame) (target_table temp_table : DeclarativeMeta)
    (if_record_exists : string) : M unit :=
  if bool_decide (if_record_exists ∉ ["update"; "ignore"]) then
    raise (ValueError to_mysql_message)
  else
    _session_scope self true (to_mysql_block df target_table temp_table if_record_exists).

(** ** A running example: table [users] and its temporary twin *)

Definition users : DeclarativeMeta :=
  {| __tablename__ := "users";
     columns := [mkColumn "id" "id" true VNull; mkColumn "email" "email" false VNull;
                 mkColumn "name" "name" false VNull];
     uniques := [["email"]] |}.

Definition users_temp : DeclarativeMeta :=
  {| __tablename__ := "users_temp";
     columns := [mkColumn "id" "id" true VNull; mkColumn "email" "email" false VNull;
                 mkColumn "name" "name" false VNull];
     uniques := [] |}.

Definition alice : gmap string value :=
  list_to_map [("id", VInt 1); ("email", VStr "a@x.com"); ("name", VStr "Alice")].

Definition users_table : Table :=
  {| table_class := users; rows := [alice]; auto_increment := 2 |}.

Definition healthy : nat → option exn := λ _, None.

Definition world0 : World :=
  {| durable := {["users" := users_table]}; pending := ∅; scratch := ∅;
     trace := []; clock := 0; faults := healthy |}.

Definition batch : DataFrame :=
  {| df_columns := ["email"; "name"];
     df_values := [[VStr "a@x.com"; VStr "Alicia"]; [VStr "b@x.com"; VStr "Bob"]] |}.

Definition op : Operation := mkOperation "test".


Definition twin_batch : DataFrame :=
  {| df_columns := ["email"; "name"];
     df_values := [[VStr "c@x.com"; VStr "Carol"]; [VStr "c@x.com"; VStr "Caroline"]] |}.







(** A row without an e-mail address. *)
Definition anonymous_batch : DataFrame :=
  {| df_columns := ["name"]; df_values := [[VStr "Nemo"]] |}.

(** The target class without its unique index, and a world that holds it. *)
Definition users_noindex : DeclarativeMeta :=
  {| __tablename__ := "users";
     columns := [mkColumn "id" "id" true VNull; mkColumn "email" "email" false VNull;
                 mkColumn "name" "name" false VNull];
     uniques := [] |}.

Definition world_noindex : World :=
  {| durable := {["users" := {| table_class := users_noindex; rows := [alice];
                                auto_increment := 2 |}]};
     pending := ∅; scratch := ∅; trace := []; clock := 0; faults := healthy |}.

(** The rows of table [users] in a world. *)
Definition users_rows (w : World) : option (list (list (string * value))) :=
  (λ t, map map_to_list (rows t)) <$> durable w !! "users".

(** 2,500 rows for the scratch table. *)
Definition big_batch : DataFrame :=
  {| df_columns := ["email"; "name"];
     df_values := replicate 2500 [VStr "c@x.com"; VStr "Carol"] |}.




(** A scratch class with a unique index of its own. *)
Definition indexed_temp : DeclarativeMeta :=
  {| __tablename__ := "users_temp";
     columns := [mkColumn "id" "id" true VNull; mkColumn "email" "email" false VNull;
                 mkColumn "name" "name" false VNull];
     uniques := [["name"]] |}.

(** Two rows of different e-mail addresses and one name. *)
Definition namesake_batch : DataFrame :=
  {| df_columns := ["email"; "name"];
     df_values := [[VStr "c@x.com"; VStr "Carol"]; [VStr "d@x.com"; VStr "Carol"]] |}.


(** A temporary class declaring two primary-key columns, and one declaring
    none. *)
Definition pair_temp : DeclarativeMeta :=
  {| __tablename__ := "users_temp";
     columns := [mkColumn "id" "id" true VNull; mkColumn "shard" "shard" true VNull;
                 mkColumn "email" "email" false VNull; mkColumn "name" "name" false VNull];
     uniques := [] |}.

Definition keyless_temp : DeclarativeMeta :=
  {| __tablename__ := "users_temp";
     columns := [mkColumn "email" "email" false VNull; mkColumn "name" "name" false VNull];
     uniques := [] |}.

(** A temporary class whose primary key is declared with a [key=] override. *)
Definition override_temp : DeclarativeMeta :=
  {| __tablename__ := "users_temp";
     columns := [mkColumn "pk" "id" true VNull; mkColumn "email" "email" false VNull;
                 mkColumn "name" "name" false VNull];
     uniques := [] |}.

(** A target class that lacks column [name]. *)
Definition users_short : DeclarativeMeta :=
  {| __tablename__ := "users";
     columns := [mkColumn "id" "id" true VNull; mkColumn "email" "email" false VNull];
     uniques := [["email"]] |}.

(** The server fails at its call number [n] with [e]. *)
Definition fault_at (n : nat) (e : exn) : nat → option exn :=
  λ i, if bool_decide (i = n) then Some e else None.

Definition faulty_world (n : nat) (e : exn) : World :=
  {| durable := {["users" := users_table]}; pending := ∅; scratch := ∅;
     trace := []; clock := 0; faults := fault_at n e |}.

(** ** Notions used in the statements *)

(** The server never fails on its own. *)
Definition no_faults (w : World) : Prop := ∀ i, faults w i = None.

(** The columns of a class carry distinct keys, and a primary-key column is
    declared without a [key=] override. *)
Definition schema_ok (cls : DeclarativeMeta) : Prop :=
  NoDup (map key (columns cls)) ∧
  ∀ c, c ∈ columns cls → primary_key c = true → key c = name c.

(** A computation that commits nothing: it leaves the durable state and the
    fault plan alone and logs no [commit]. *)
Definition quiet {A : Type} (m : M A) : Prop :=
  ∀ w r w', m w = (r, w') →
    durable w' = durable w ∧ faults w' = faults w ∧
    ∃ evs, trace w' = trace w ++ evs ∧ EvCommit ∉ evs.

(** A server operation that only touches the open transaction and the
    temporary tables. *)
Definition local_op (op : World → result World) : Prop :=
  ∀ w1 w2, op w1 = Ok w2 →
    durable w2 = durable w1 ∧ faults w2 = faults w1 ∧ trace w2 = trace w1.

(** The auto-increment counter of the table lies above every integer its
    rows carry under the primary key, as the engine keeps it. *)
Definition table_ok (t : Table) : Prop :=
  ∀ r k z, r ∈ rows t → k ∈ primary_names (table_class t) → r !!! k = VInt z →
           (z < auto_increment t)%Z.

(** Cells that leave the primary key of the class to the server. *)
Definition keyless (cls : DeclarativeMeta) (given : gmap string value) : Prop :=
  ∀ k, k ∈ primary_names cls → given !! k = None.

(** A valid row batch: every field of the frame is a column of the scratch
    class that is no primary key. *)
Definition valid_batch (temp_table : DeclarativeMeta) (df : DataFrame) : Prop :=
  df_columns df ⊆ map name (filter (λ c, primary_key c = false) (columns temp_table)).

(** The table after a duplicate was skipped, and after the row at place
    [i] was rewritten to [upd]: either way the counter has moved on. *)
Definition skipped (t : Table) (given : gmap string value) : Table :=
  {| table_class := table_class t;
     rows := rows t;
     auto_increment :=
       next_auto (table_class t) (row_of (table_class t) given (auto_increment t))
         (auto_increment t) |}.

Definition rewritten (t : Table) (given : gmap string value) (i : nat)
    (upd : gmap string value) : Table :=
  {| table_class := table_class t;
     rows := <[i := upd]> (rows t);
     auto_increment :=
       next_auto (table_class t) (row_of (table_class t) given (auto_increment t))
         (auto_increment t) |}.

(** The table after rows were inserted that duplicate nothing. *)
Definition append_row (t : Table) (given : gmap string value) : Table :=
  {| table_class := table_class t;
     rows := rows t ++ [row_of (table_class t) given (auto_increment t)];
     auto_increment :=
       next_auto (table_class t) (row_of (table_class t) given (auto_increment t))
         (auto_increment t) |}.

Definition append_rows (t : Table) (givens : list (gmap string value)) : Table :=
  foldl append_row t givens.

(** The cells each row of a data frame supplies, and the scratch table once
    the whole frame is loaded into a freshly created one. *)
Definition frame_rows (df : DataFrame) : list (gmap string value) :=
  map (λ r, list_to_map (zip (df_columns df) r)) (df_values df).

Definition staged (temp_table : DeclarativeMeta) (df : DataFrame) : Table :=
  append_rows {| table_class := temp_table; rows := []; auto_increment := 1 |}
    (frame_rows df).

(** The sizes of the chunks sent for [remaining] rows in at most [k] rounds. *)
Fixpoint chunk_sizes (chunksize remaining k : nat) : list nat :=
  match k with
  | 0 => []
  | S k' =>
      if bool_decide (remaining = 0) then []
      else (chunksize `min` remaining) :: chunk_sizes chunksize (remaining - chunksize) k'
  end.

Definition is_insert (ev : Event) : bool :=
  match ev with
  | EvInsert _ _ => true
  | _ => false
  end.

(** The mergeable columns of a temporary class: the keys of its columns
    that are no primary key, in declaration order. *)
Definition mergeable (temp_table : DeclarativeMeta) : list string :=
  map key (filter (λ c, primary_key c = false) (columns temp_table)).

(** Every column of the class is declared without a [key=] override. *)
Definition plain (cls : DeclarativeMeta) : Prop :=
  ∀ c, c ∈ columns cls → key c = name c.

(** The cells a scratch row supplies under the mergeable names, and the
    assignments [c = VALUES(c)] over them. *)
Definition supplied (names : list string) (b : gmap string value) : gmap string value :=
  list_to_map (map (λ k, (k, b !!! k)) names).

Definition rewrite_all (names : list string) : list (string * string) :=
  map (λ k, (k, k)) names.

(** The setting of a merge: a target class with one unique index [u] over
    mergeable columns, all of which the target class has, and a temporary
    class of another name. *)
Record merge_setting (target_table temp_table : DeclarativeMeta) (u : list string) : Prop := {
  setting_temp_ok : schema_ok temp_table;
  setting_temp_plain : plain temp_table;
  setting_target_plain : plain target_table;
  setting_target_names : NoDup (map name (columns target_table));
  setting_index : uniques target_table = [u];
  setting_index_nonempty : u ≠ [];
  setting_index_columns : u ⊆ mergeable temp_table;
  setting_columns : mergeable temp_table ⊆ map name (columns target_table);
  setting_tablenames : __tablename__ temp_table ≠ __tablename__ target_table
}.

(** The scratch class of a target, as the data model has it: a class of
    another table name, declared like the target without [key=] overrides,
    with distinct column keys and without a unique index of its own, whose
    columns other than the primary key, at least one, are columns of the
    target and no primary key there. *)
Record scratch_of (target_table temp_table : DeclarativeMeta) : Prop := {
  scratch_keys : NoDup (map key (columns temp_table));
  scratch_plain : plain temp_table;
  scratch_unindexed : uniques temp_table = [];
  scratch_target_plain : plain target_table;
  scratch_target_names : NoDup (map name (columns target_table));
  scratch_columns : mergeable temp_table ⊆ map name (columns target_table);
  scratch_some : mergeable temp_table ≠ [];
  scratch_keyless : ∀ k, k ∈ primary_names target_table → k ∉ mergeable temp_table;
  scratch_tablenames : __tablename__ temp_table ≠ __tablename__ target_table
}.

(** The row [b] carries, under every index of [us], a value that no row of
    [T] carries. *)
Definition absent (us : list (list string)) (T : Table) (b : gmap string value) : Prop :=
  Forall (λ u, index_value u b ∉ map (index_value u) (rows T)) us.

#[global] Instance absent_dec us T b : Decision (absent us T b).
Proof. unfold absent. apply _. Defined.

(** What MySQL does with a duplicate under each accepted policy. *)
Definition policy_mode (names : list string) (if_record_exists : string) : OnDuplicate :=
  if bool_decide (if_record_exists = "update") then Overwrite (rewrite_all names) else Skip.

(** The rows of a batch carry pairwise distinct unique-index values, none
    with a NULL. *)
Definition distinct_keys (u : list string) (bs : list (gmap string value)) : Prop :=
  NoDup (map (index_value u) bs) ∧ ∀ b, b ∈ bs → VNull ∉ index_value u b.



(** A stored table that has only gained: same class, no fewer rows, and an
    auto-increment counter that did not go back. *)
Definition grown (T T' : Table) : Prop :=
  table_class T' = table_class T ∧
  length (rows T) ≤ length (rows T') ∧
  (auto_increment T ≤ auto_increment T')%Z.

(** A stored table whose old rows all stand as they were, new ones after. *)
Definition extended (T T' : Table) : Prop :=
  table_class T' = table_class T ∧ ∃ extra, rows T' = rows T ++ extra.

(** How the open transaction [pending'] may differ from [pending] when only
    the table named [n] was written, and only in a way [R] allows. *)
Definition written_only (R : Table → Table → Prop) (n : string)
    (pending pending' : gmap string Table) : Prop :=
  (∀ m, m ≠ n → pending' !! m = pending !! m) ∧
  (pending !! n = None → pending' !! n = None) ∧
  (∀ T, pending !! n = Some T → ∃ T', pending' !! n = Some T' ∧ R T T').

(** The batch row [b] is settled in the table [t]: the first row of [t] that
    carries the index value of [b] holds the cells of [b] in every mergeable
    column. *)
Definition settled (u names : list string) (t : Table) (b : gmap string value) : Prop :=
  ∃ i cur,
    list_find (λ old, index_value u old = index_value u b) (rows t) = Some (i, cur) ∧
    ∀ c, c ∈ names → cur !! c = Some (b !!! c).

(** ** The decorators ([decorator/__init__.py])

    A decorated function is called through [__call__] of the decorator
    object, with the function as [wrapped].  The function runs over a state of
    its own; the decorator adds what it prints and the pauses it takes. *)

Inductive Console :=
| Printed (e : exn)
| Slept.

(** A computation of a decorator over the state [S] of the wrapped function
    and the console. *)
Definition Decorated (S A : Type) : Type :=
  S * list Console → result A * (S * list Console).

(** What a statement inside a loop body does next: it returns from the
    function, or control falls through to what follows. *)
Inductive Flow (A : Type) :=
| Return (a : A)
| Fallthrough.

Arguments Return {A} a.
Arguments Fallthrough {A}.

(** [for _ in range(n): body], and [None] returned when the loop runs out. *)
Fixpoint for_range {S A : Type} (n : nat) (body : Decorated S (Flow A)) (none : A)
    : Decorated S A := λ st,
  match n with
  | 0 => (Ok none, st)
  | Datatypes.S n' =>
      match body st with
      | (Ok (Return a), st') => (Ok a, st')
      | (Ok Fallthrough, st') => for_range n' body none st'
      | (Raise e, st') => (Raise e, st')
      end
  end.

(** [Retry(retry_times, wait_secs, errors)]; [errors e] tells whether [e] is
    an instance of one of the classes of the tuple [errors]. *)
Record Retry := mkRetry {
  retry_times : Z;
  wait_secs : Z;
  errors : exn → bool
}.

(** [Retry()] *)
Definition Retry_default : Retry :=
  {| retry_times := 3; wait_secs := 5; errors := is_Exception |}.

(** [time.sleep((random.random() + 1) * self.wait_secs)]: the factor lies in
    [1, 2), so the length is negative exactly when [wait_secs] is, and then
    [time.sleep] raises. *)
Definition Retry_sleep {S : Type} (self : Retry) : Decorated S unit := λ st,
  if (wait_secs self <? 0)%Z then (Raise (ValueError "sleep length must be non-negative"), st)
  else (Ok tt, (st.1, st.2 ++ [Slept])).

(** The [try] statement of the loop body. *)
Definition Retry_try {S A : Type} (self : Retry) (wrapped : S → result A * S)
    : Decorated S (Flow A) := λ st,
  match wrapped st.1 with
  | (Ok a, s') => (Ok (Return a), (s', st.2))
  | (Raise e, s') =>
      if errors self e then
        match Retry_sleep self (s', st.2 ++ [Printed e]) with
        | (Ok _, st') => (Ok Fallthrough, st')
        | (Raise e', st') => (Raise e', st')
        end
      else (Raise e, (s', st.2))
  end.

(** The loop body: the [try] statement, then [return None]. *)
Definition Retry_body {S A : Type} (self : Retry) (none : A) (wrapped : S → result A * S)
    : Decorated S (Flow A) := λ st,
  match Retry_try self wrapped st with
  | (Ok Fallthrough, st') => (Ok (Return none), st')
  | out => out
  end.

(** [Retry.__call__]; [none] is the value [None] in the type of results. *)
Definition Retry_call {S A : Type} (self : Retry) (none : A) (wrapped : S → result A * S)
    : Decorated S A :=
  for_range (Z.to_nat (retry_times self)) (Retry_body self none wrapped) none.

(** A function that counts its calls. *)
Definition counted {S A : Type} (wrapped : S → result A * S) : S * nat → result A * (S * nat) :=
  λ st, ((wrapped st.1).1, ((wrapped st.1).2, Datatypes.S st.2)).

(** [Singleton.__call__]: [_instance] maps a decorated class, named by
    [wrapped], to its instance; [construct] is the class called without
    arguments, whatever the arguments [args] of the call.  The lock is taken
    and released around the construction; calls are taken one at a time. *)
Definition Singleton_call {S V : Type} (wrapped : string) (construct : S → result V * S)
    (args : list value) : S * gmap string V → result V * (S * gmap string V) := λ st,
  let after :=
    match st.2 !! wrapped with
    | None =>
        match construct st.1 with
        | (Ok v, s') => (Ok tt, (s', <[wrapped := v]> st.2))
        | (Raise e, s') => (Raise e, (s', st.2))
        end
    | Some _ => (Ok tt, st)
    end in
  match after with
  | (Ok _, st') =>
      match st'.2 !! wrapped with
      | Some v => (Ok v, st')
      | None => (Raise (KeyError wrapped), st')
      end
  | (Raise e, st') => (Raise e, st')
  end.

(** ** The user-agent generator ([spider/myua.py]) *)

(** [needle in hay] on strings. *)
Fixpoint contains (needle hay : string) : bool :=
  String.prefix needle hay ||
  match hay with
  | EmptyString => false
  | String _ hay' => contains needle hay'
  end.

(** [FakeUA.get_ua]: [fake_ua_func] gives the successive results of the
    generator of the chosen browser, [drawn] counts the calls made to it.
    The loop has no bound; [fuel] bounds the number of rounds, and [None]
    tells that they were used up. *)
Fixpoint get_ua (fuel : nat) (fake_ua_func : nat → string) (platform : string) (drawn : nat)
    : option (string * nat) :=
  match fuel with
  | 0 => None
  | Datatypes.S fuel' =>
      let ua := fake_ua_func drawn in
      if bool_decide (platform = "PC") then
        if contains "Windows" ua then Some (ua, Datatypes.S drawn)
        else get_ua fuel' fake_ua_func platform (Datatypes.S drawn)
      else if bool_decide (platform = "mobile") then
        if contains "iPhone" ua then Some (ua, Datatypes.S drawn)
        else get_ua fuel' fake_ua_func platform (Datatypes.S drawn)
      else get_ua fuel' fake_ua_func platform (Datatypes.S drawn)
  end.

(** The text [get_ua] looks for under each platform. *)
Definition platform_mark (platform : string) : string :=
  if bool_decide (platform = "PC") then "Windows" else "iPhone".

(** A generator that alternates between two user agents. *)
Definition ua_windows : string := "Mozilla/5.0 (Windows NT 10.0; Win64; x64) Chrome/80.0".
Definition ua_iphone : string := "Mozilla/5.0 (iPhone; CPU iPhone OS 13_3 like Mac OS X)".
Definition ua_linux : string := "Mozilla/5.0 (X11; Linux x86_64) Chrome/80.0".

Definition sample_ua (n : nat) : string :=
  match n with
  | 0 => ua_linux
  | 1 => ua_iphone
  | _ => ua_windows
  end.

Ltac unfold_monad :=
  unfold mbind, M_bind, mret, M_ret, result_bind, result_ret, fmap, result_fmap in *.

(** ** Properties *)

(** *** The policy guards *)

Lemma remove_each_raises {A : Type} `{EqDecision A} (ks l : list A) e :
  remove_each ks l = Raise e → e = ValueError "list.remove(x): x not in list".
Proof.
  assert (Hrm : ∀ (x : A) l e, list_remove x l = Raise e →
                  e = ValueError "list.remove(x): x not in list").
  { intros x l0. induction l0 as [|y l0 IH]; intros e0 He; simpl in He.
    - congruence.
    - destruct (decide (x = y)); [discriminate|].
      unfold_monad. destruct (list_remove x l0); [discriminate|].
      apply IH. congruence. }
  revert l. induction ks as [|k ks IH]; intros l He; simpl in He; [discriminate|].
  unfold_monad. destruct (list_remove k l) eqn:E; eauto.
  inversion He; subst. eauto.
Qed.

Lemma _my_insert_columns_raises temp_table e :
  _my_insert_columns temp_table = Raise e →
  e = ValueError "list.remove(x): x not in list".
Proof.
  unfold _my_insert_columns. unfold_monad. intros He.
  destruct (remove_each (map name _) _) eqn:E1.
  - destruct (remove_each (Mapper.primary_key _) _) eqn:E2; [discriminate|].
    inversion He; subst. by eapply remove_each_raises.
  - inversion He; subst. by eapply remove_each_raises.
Qed.

Lemma policy_guard (if_record_exists : string) :
  if_record_exists ∉ ["update"; "ignore"] ↔
  if_record_exists ≠ "update" ∧ if_record_exists ≠ "ignore".
Proof.
  rewrite !not_elem_of_cons. split; [intros (? & ? & _) | intros [? ?]]; split_and?; try done.
  apply not_elem_of_nil.
Qed.

(** C7.  A policy value other than the two accepted ones (the overwrite
    policy is spelled ['update'] in the code, the ignore policy ['ignore'])
    makes statement building fail with the code's policy error, a
    [ValueError]: [_my_insert] raises it in its final [else] branch, and
    [to_mysql] raises it in its opening guard. *)
Theorem invalid_policy_raises_ValueError
    (self : Operation) (df : DataFrame) (target_table temp_table : DeclarativeMeta)
    (session : Session) (if_record_exists : string) (w : World) :
  if_record_exists ≠ "update" → if_record_exists ≠ "ignore" →
  (∃ msg, _my_insert_stmt target_table temp_table session if_record_exists
            = Raise (ValueError msg)) ∧
  (∀ lists, _my_insert_columns temp_table = Ok lists →
     _my_insert target_table temp_table session if_record_exists w
       = (Raise (ValueError my_insert_message), w)) ∧
  (to_mysql self df target_table temp_table if_record_exists w).1
    = Raise (ValueError to_mysql_message).
Proof.
  intros Hu Hi. split_and!.
  - unfold _my_insert_stmt. unfold_monad.
    destruct (_my_insert_columns temp_table) eqn:E.
    + rewrite !bool_decide_eq_false_2 by done. eauto.
    + apply _my_insert_columns_raises in E. subst. eauto.
  - intros lists E. unfold _my_insert, _my_insert_stmt. unfold_monad.
    rewrite E. by rewrite !bool_decide_eq_false_2 by done.
  - unfold to_mysql. rewrite bool_decide_eq_true_2; [done|].
    by apply policy_guard.
Qed.

Lemma invalid_policy_raises_ValueError_witness :
  (∃ msg, _my_insert_stmt users users_temp ScopedSession "replace"
            = Raise (ValueError msg)) ∧
  (to_mysql op batch users users_temp "replace" world0).1
    = Raise (ValueError to_mysql_message).
Proof.
  destruct (invalid_policy_raises_ValueError op batch users users_temp
              ScopedSession "replace" world0) as (H1 & _ & H3);
    [discriminate | discriminate |].
  split; [exact H1 | exact H3].
Defined.

(** C10.  With a policy other than the two accepted ones [to_mysql] raises in
    its opening guard: the world it returns is the world it was given, so no
    session was opened, no scratch table created and nothing written. *)
Theorem invalid_policy_has_no_effect
    (self : Operation) (df : DataFrame) (target_table temp_table : DeclarativeMeta)
    (if_record_exists : string) (w : World) :
  if_record_exists ∉ ["update"; "ignore"] →
  to_mysql self df target_table temp_table if_record_exists w
    = (Raise (ValueError to_mysql_message), w).
Proof.
  intros Hp. unfold to_mysql. by rewrite bool_decide_eq_true_2.
Qed.

Lemma invalid_policy_has_no_effect_witness :
  to_mysql op batch users users_temp "replace" world0
    = (Raise (ValueError to_mysql_message), world0).
Proof.
  apply invalid_policy_has_no_effect.
  apply policy_guard. split; discriminate.
Defined.

(** *** The scoped session *)

Lemma commit_ok session w :
  faults w (clock w) = None →
  commit session w =
    (Ok tt, {| durable := pending w; pending := pending w; scratch := scratch w;
               trace := trace w ++ [EvCommit]; clock := S (clock w); faults := faults w |}).
Proof. intros H. unfold commit, server_call. by rewrite H. Qed.

Lemma commit_fails session w e :
  faults w (clock w) = Some e →
  commit session w =
    (Raise e, {| durable := durable w; pending := pending w; scratch := scratch w;
                 trace := trace w ++ [EvCommit]; clock := S (clock w); faults := faults w |}).
Proof. intros H. unfold commit, server_call. by rewrite H. Qed.

(** C4, as the code has it.  For every block run under [_session_scope]:
    when the block ends normally the next call is [commit], and a commit the
    server accepts makes the pending state durable; when the commit fails with
    an exception that is an instance of [Exception], or the block raises one,
    [rollback] is called and after it the same exception reaches the caller;
    an exception that is no instance of [Exception] ([KeyboardInterrupt])
    reaches the caller as well, but [except Exception] does not catch it and
    no [rollback] is called; and on every path the last call is [close]. *)
Theorem session_scope_commits_or_rolls_back_then_closes
    (self : Operation) (scoped : bool) (body : Session → M unit) (w : World)
    (r : result unit) (w2 : World) :
  let session := if scoped then ScopedSession else PlainSession in
  let w1 := open_session (mkConnector (db self)) scoped w in
  let out := _session_scope self scoped body w in
  body session w1 = (r, w2) →
  (r = Ok tt → faults w2 (clock w2) = None →
     out.1 = Ok tt ∧ trace out.2 = trace w2 ++ [EvCommit; EvClose] ∧
     durable out.2 = pending w2) ∧
  (∀ e, r = Ok tt → faults w2 (clock w2) = Some e → is_Exception e = true →
     out.1 = Raise e ∧ trace out.2 = trace w2 ++ [EvCommit; EvRollback; EvClose] ∧
     durable out.2 = durable w2) ∧
  (∀ e, r = Raise e → is_Exception e = true →
     out.1 = Raise e ∧ trace out.2 = trace w2 ++ [EvRollback; EvClose] ∧
     durable out.2 = durable w2) ∧
  (∀ e, r = Raise e → is_Exception e = false →
     out.1 = Raise e ∧ trace out.2 = trace w2 ++ [EvClose] ∧
     durable out.2 = durable w2) ∧
  (∀ e, r = Ok tt → faults w2 (clock w2) = Some e → is_Exception e = false →
     out.1 = Raise e ∧ trace out.2 = trace w2 ++ [EvCommit; EvClose] ∧
     durable out.2 = durable w2) ∧
  (∃ calls, trace out.2 = trace w2 ++ calls ++ [EvClose]).
Proof.
  intros session w1 out Hbody.
  assert (Hout : out =
    try_finally (try_except (body session;; commit session)
                   (λ e, rollback session;; raise e)) (close session) w1).
  { subst out session w1. unfold _session_scope. unfold_monad.
    by destruct scoped. }
  rewrite Hout. clear Hout out.
  unfold try_finally, try_except. unfold_monad. rewrite Hbody.
  split_and!.
  - intros -> Hf. rewrite (commit_ok _ _ Hf). simpl.
    by rewrite <- app_assoc.
  - intros e -> Hf He. rewrite (commit_fails _ _ _ Hf), He. simpl.
    by rewrite <- !app_assoc.
  - intros e -> He. rewrite He. simpl. by rewrite <- app_assoc.
  - intros e -> He. by rewrite He.
  - intros e -> Hf He. rewrite (commit_fails _ _ _ Hf), He. simpl.
    by rewrite <- !app_assoc.
  - destruct r as [[]|e].
    + destruct (faults w2 (clock w2)) as [e|] eqn:Hf.
      * rewrite (commit_fails _ _ _ Hf). destruct (is_Exception e); simpl.
        -- exists [EvCommit; EvRollback]. by rewrite <- !app_assoc.
        -- exists [EvCommit]. by rewrite <- !app_assoc.
      * rewrite (commit_ok _ _ Hf). simpl.
        exists [EvCommit]. by rewrite <- !app_assoc.
    + destruct (is_Exception e); simpl.
      * exists [EvRollback]. by rewrite <- !app_assoc.
      * by exists [].
Qed.

Lemma session_scope_commits_or_rolls_back_then_closes_witness :
  (let out := _session_scope op true (λ s, create users_temp (connection s) false) world0 in
   out.1 = Ok tt ∧
   trace out.2 = [EvSession "test" true; EvCreate "users_temp"; EvCommit; EvClose]) ∧
  (let out := _session_scope op true (λ s, create users_temp (connection s) false)
                (faulty_world 0 (OperationalError "server has gone away")) in
   out.1 = Raise (OperationalError "server has gone away") ∧
   trace out.2 = [EvSession "test" true; EvCreate "users_temp"; EvRollback; EvClose]).
Proof.
  split.
  - pose (body := λ s, create users_temp (connection s) false).
    pose (w1 := open_session (mkConnector (db op)) true world0).
    destruct (session_scope_commits_or_rolls_back_then_closes op true body world0
                (Ok tt) (body ScopedSession w1).2 eq_refl) as (H & _).
    destruct (H eq_refl eq_refl) as (H1 & H2 & _). split; [exact H1 | exact H2].
  - pose (body := λ s, create users_temp (connection s) false).
    pose (w := faulty_world 0 (OperationalError "server has gone away")).
    pose (w1 := open_session (mkConnector (db op)) true w).
    destruct (session_scope_commits_or_rolls_back_then_closes op true body w
                (Raise (OperationalError "server has gone away"))
                (body ScopedSession w1).2 eq_refl) as (_ & _ & H & _).
    destruct (H _ eq_refl eq_refl) as (H1 & H2 & _). split; [exact H1 | exact H2].
Defined.

(** C4, as stated, fails for an exception that is no [Exception]: a
    [KeyboardInterrupt] raised while the block creates its table reaches the
    caller, the session is closed, and no [rollback] was called. *)
Lemma interrupt_in_scope_is_not_rolled_back :
  let out := _session_scope op true (λ s, create users_temp (connection s) false)
               (faulty_world 0 KeyboardInterrupt) in
  out.1 = Raise KeyboardInterrupt ∧
  trace out.2 = [EvSession "test" true; EvCreate "users_temp"; EvClose] ∧
  EvRollback ∉ trace out.2.
Proof.
  intros out.
  assert (Ht : trace out.2 = [EvSession "test" true; EvCreate "users_temp"; EvClose])
    by by vm_compute.
  split_and!; [by vm_compute | done |].
  rewrite Ht. intros Hin.
  repeat (apply elem_of_cons in Hin as [Hin|Hin]; [discriminate Hin|]).
  by apply elem_of_nil in Hin.
Qed.

(** A raised [BaseException] that is no [Exception] skips the handler: no
    [rollback] call is made, the session is closed all the same. *)
Lemma session_scope_base_exception (self : Operation) (scoped : bool)
    (body : Session → M unit) (w w2 : World) (e : exn) :
  body (if scoped then ScopedSession else PlainSession)
       (open_session (mkConnector (db self)) scoped w) = (Raise e, w2) →
  is_Exception e = false →
  (_session_scope self scoped body w).1 = Raise e ∧
  trace (_session_scope self scoped body w).2 = trace w2 ++ [EvClose] ∧
  durable (_session_scope self scoped body w).2 = durable w2.
Proof.
  intros Hbody He. unfold _session_scope, try_finally, try_except. unfold_monad.
  destruct scoped; simpl; rewrite Hbody, He; done.
Qed.

(** *** Nothing but [commit] touches the durable state *)

Lemma quiet_ret {A : Type} (a : A) : quiet (mret a).
Proof.
  intros w r w' [= <- <-]. split_and!; try done.
  exists []. split; [by rewrite app_nil_r | apply not_elem_of_nil].
Qed.

Lemma quiet_raise {A : Type} (e : exn) : quiet (@raise A e).
Proof.
  intros w r w' [= <- <-]. split_and!; try done.
  exists []. split; [by rewrite app_nil_r | apply not_elem_of_nil].
Qed.

Lemma quiet_bind {A B : Type} (m : M A) (f : A → M B) :
  quiet m → (∀ a, quiet (f a)) → quiet (m ≫= f).
Proof.
  intros Hm Hf w r w'. unfold_monad.
  destruct (m w) as [[a|e] wa] eqn:E; intros H.
  - destruct (Hm _ _ _ E) as (Hd & Hp & evs & Ht & Hc).
    destruct (Hf a _ _ _ H) as (Hd' & Hp' & evs' & Ht' & Hc').
    split_and!; [congruence | congruence |].
    exists (evs ++ evs'). split.
    + by rewrite Ht', Ht, app_assoc.
    + rewrite elem_of_app. tauto.
  - inversion H; subst. eauto.
Qed.

Lemma quiet_try_except_else {A : Type} (m : M unit) (handler : exn → M A) (orelse : M A) :
  quiet m → (∀ e, quiet (handler e)) → quiet orelse → quiet (try_except_else m handler orelse).
Proof.
  intros Hm Hh Ho w r w'. unfold try_except_else.
  destruct (m w) as [[a|e] wa] eqn:E; intros H.
  - destruct (Hm _ _ _ E) as (Hd & Hp & evs & Ht & Hc).
    destruct (Ho _ _ _ H) as (Hd' & Hp' & evs' & Ht' & Hc').
    split_and!; [congruence | congruence |].
    exists (evs ++ evs'). split.
    + by rewrite Ht', Ht, app_assoc.
    + rewrite elem_of_app. tauto.
  - destruct (Hm _ _ _ E) as (Hd & Hp & evs & Ht & Hc).
    destruct (is_Exception e).
    + destruct (Hh e _ _ _ H) as (Hd' & Hp' & evs' & Ht' & Hc').
      split_and!; [congruence | congruence |].
      exists (evs ++ evs'). split.
      * by rewrite Ht', Ht, app_assoc.
      * rewrite elem_of_app. tauto.
    + inversion H; subst. eauto.
Qed.

Lemma quiet_server_call ev op :
  ev ≠ EvCommit → local_op op → quiet (server_call ev op).
Proof.
  intros Hev Hop w r w'. unfold server_call.
  assert (Hev' : EvCommit ∉ [ev]).
  { rewrite not_elem_of_cons. split; [done | apply not_elem_of_nil]. }
  destruct (faults w (clock w)).
  - intros [= <- <-]. simpl. eauto.
  - destruct (op _) as [w2|e] eqn:E.
    + intros [= <- <-]. destruct (Hop _ _ E) as (-> & -> & ->). simpl. eauto.
    + intros [= <- <-]. simpl. eauto.
Qed.

Lemma quiet_create table_class bind checkfirst : quiet (create table_class bind checkfirst).
Proof.
  apply quiet_server_call; [done|].
  intros w1 w2. destruct (scratch w1 !! _).
  - destruct checkfirst; [|done]. by intros [= <-].
  - intros [= <-]. done.
Qed.

Lemma quiet_exec_insert con tablename keys data : quiet (exec_insert con tablename keys data).
Proof.
  apply quiet_server_call; [done|].
  intros w1 w2. destruct (lookup_table w1 tablename) as [[loc t]|]; [|done].
  case_bool_decide; [|done]. unfold_monad.
  destruct (insert_rows _ _ _); [|done].
  intros [= <-]. by destruct loc.
Qed.

Lemma quiet_insert_chunks con tablename df chunksize indices :
  quiet (insert_chunks con tablename df chunksize indices).
Proof.
  induction indices as [|i indices IH]; simpl.
  - apply (quiet_ret tt).
  - case_bool_decide; [apply (quiet_ret tt)|].
    apply quiet_bind; [apply quiet_exec_insert | done].
Qed.

Lemma quiet_to_sql df tablename con chunksize : quiet (to_sql df tablename con chunksize).
Proof.
  unfold to_sql. case_bool_decide; [apply (quiet_ret tt)|].
  case_bool_decide; [apply quiet_raise | apply quiet_insert_chunks].
Qed.

Lemma local_run_insert c : local_op (run_insert c).
Proof.
  intros w1 w2. unfold run_insert. unfold_monad.
  case_bool_decide; [done|].
  destruct (lookup_table w1 (select_from _)) as [[? src]|]; [|done].
  destruct (lookup_table w1 _) as [[loc tgt]|]; [|done].
  destruct (_ && _); [|done].
  destruct (insert_rows _ _ _); [|done].
  intros [= <-]. by destruct loc.
Qed.

Lemma quiet_execute session stmt : quiet (execute session stmt).
Proof.
  intros w r w'. unfold execute. destruct (compile stmt) as [c|e].
  - apply quiet_server_call; [done | apply local_run_insert].
  - intros [= <- <-]. simpl. split_and!; [done | done |].
    exists [EvExecute stmt]. split; [done|].
    rewrite not_elem_of_cons. split; [done | apply not_elem_of_nil].
Qed.

Lemma server_call_trace ev op w :
  local_op op → trace (server_call ev op w).2 = trace w ++ [ev].
Proof.
  intros Hop. unfold server_call. destruct (faults w (clock w)); [done|].
  destruct (op _) as [w2|e] eqn:E; [|done].
  destruct (Hop _ _ E) as (_ & _ & Ht). simpl. by rewrite Ht.
Qed.

Lemma execute_trace session stmt w :
  trace (execute session stmt w).2 = trace w ++ [EvExecute stmt].
Proof.
  unfold execute. destruct (compile stmt) as [c|e]; [|done].
  apply server_call_trace, local_run_insert.
Qed.

Lemma quiet__my_insert target_table temp_table session if_record_exists :
  quiet (_my_insert target_table temp_table session if_record_exists).
Proof.
  intros w r w'. unfold _my_insert.
  destruct (_my_insert_stmt _ _ _ _).
  - apply quiet_execute.
  - apply quiet_raise.
Qed.

Lemma quiet_to_mysql_block df target_table temp_table if_record_exists session :
  quiet (to_mysql_block df target_table temp_table if_record_exists session).
Proof.
  unfold to_mysql_block. apply quiet_bind; [apply quiet_create|]. intros _.
  apply quiet_try_except_else;
    [apply quiet_to_sql | intros; apply quiet_raise | apply quiet__my_insert].
Qed.

Lemma session_scope_raise (self : Operation) (scoped : bool) (body : Session → M unit)
    (w w2 : World) (e : exn) :
  body (if scoped then ScopedSession else PlainSession)
       (open_session (mkConnector (db self)) scoped w) = (Raise e, w2) →
  is_Exception e = true →
  _session_scope self scoped body w =
    (Raise e, {| durable := durable w2; pending := durable w2; scratch := ∅;
                 trace := trace w2 ++ [EvRollback; EvClose];
                 clock := clock w2; faults := faults w2 |}).
Proof.
  intros Hbody He. unfold _session_scope, try_finally, try_except. unfold_monad.
  destruct scoped; simpl; rewrite Hbody, He; simpl; by rewrite <- app_assoc.
Qed.

Lemma session_scope_interrupt (self : Operation) (scoped : bool) (body : Session → M unit)
    (w w2 : World) (e : exn) :
  body (if scoped then ScopedSession else PlainSession)
       (open_session (mkConnector (db self)) scoped w) = (Raise e, w2) →
  is_Exception e = false →
  _session_scope self scoped body w =
    (Raise e, {| durable := durable w2; pending := durable w2; scratch := ∅;
                 trace := trace w2 ++ [EvClose];
                 clock := clock w2; faults := faults w2 |}).
Proof.
  intros Hbody He. unfold _session_scope, try_finally, try_except. unfold_monad.
  destruct scoped; simpl; by rewrite Hbody, He.
Qed.

Lemma session_scope_ok (self : Operation) (scoped : bool) (body : Session → M unit)
    (w w2 : World) :
  body (if scoped then ScopedSession else PlainSession)
       (open_session (mkConnector (db self)) scoped w) = (Ok tt, w2) →
  faults w2 (clock w2) = None →
  _session_scope self scoped body w =
    (Ok tt, {| durable := pending w2; pending := pending w2; scratch := ∅;
               trace := trace w2 ++ [EvCommit; EvClose];
               clock := S (clock w2); faults := faults w2 |}).
Proof.
  intros Hbody Hf. unfold _session_scope, try_finally, try_except. unfold_monad.
  destruct scoped; simpl; rewrite Hbody, (commit_ok _ _ Hf); simpl;
    by rewrite <- app_assoc.
Qed.

Lemma to_mysql_block_raise df target_table temp_table if_record_exists session w1 w2 e :
  let con := connection session in
  (create temp_table con false w1 = (Raise e, w2)
   ∨ (∃ wa, create temp_table con false w1 = (Ok tt, wa) ∧
            to_sql df (__tablename__ temp_table) con 1000 wa = (Raise e, w2))
   ∨ (∃ wa wb, create temp_table con false w1 = (Ok tt, wa) ∧
               to_sql df (__tablename__ temp_table) con 1000 wa = (Ok tt, wb) ∧
               _my_insert target_table temp_table session if_record_exists wb
                 = (Raise e, w2))) →
  to_mysql_block df target_table temp_table if_record_exists session w1 = (Raise e, w2).
Proof.
  intros con. subst con. unfold to_mysql_block, try_except_else, raise. unfold_monad.
  intros [H | [(wa & Hc & H) | (wa & wb & Hc & Hl & H)]].
  - by rewrite H.
  - rewrite Hc, H. by destruct (is_Exception e).
  - by rewrite Hc, Hl.
Qed.

(** C1, as the code has it.  Whatever the rows, when scratch-table
    creation, the bulk load or the merge raises an exception [e] during
    [to_mysql] (called with an accepted policy), the caller receives [e].
    When [e] is an instance of [Exception], [rollback] and then [close] are
    the last two calls, made after the failing one; when it is not (a
    [KeyboardInterrupt]), [except Exception] does not catch it and [close] is
    the only call that follows.  Either way no [commit] was sent, and the
    durable state, the target table included, is what it was before the
    call. *)
Theorem failure_propagates_after_rollback
    (self : Operation) (df : DataFrame) (target_table temp_table : DeclarativeMeta)
    (if_record_exists : string) (w w2 : World) (e : exn) :
  let session := ScopedSession in
  let con := connection session in
  let w1 := open_session (mkConnector (db self)) true w in
  let out := to_mysql self df target_table temp_table if_record_exists w in
  if_record_exists ∈ ["update"; "ignore"] →
  (create temp_table con false w1 = (Raise e, w2)
   ∨ (∃ wa, create temp_table con false w1 = (Ok tt, wa) ∧
            to_sql df (__tablename__ temp_table) con 1000 wa = (Raise e, w2))
   ∨ (∃ wa wb, create temp_table con false w1 = (Ok tt, wa) ∧
               to_sql df (__tablename__ temp_table) con 1000 wa = (Ok tt, wb) ∧
               _my_insert target_table temp_table session if_record_exists wb
                 = (Raise e, w2))) →
  out.1 = Raise e ∧
  trace out.2 = trace w2 ++ (if is_Exception e then [EvRollback; EvClose] else [EvClose]) ∧
  (EvCommit ∉ drop (length (trace w)) (trace out.2)) ∧
  durable out.2 = durable w ∧
  pending out.2 = durable w ∧
  durable out.2 !! __tablename__ target_table = durable w !! __tablename__ target_table.
Proof.
  intros session con w1 out Hp Hfail.
  apply to_mysql_block_raise in Hfail.
  destruct (quiet_to_mysql_block _ _ _ _ _ _ _ _ Hfail) as (Hd & _ & evs & Ht & Hc).
  subst out. unfold to_mysql. rewrite bool_decide_eq_false_2 by auto.
  destruct (is_Exception e) eqn:He.
  - rewrite (session_scope_raise _ _ _ _ _ _ Hfail He). simpl.
    rewrite Hd. split_and!; try done.
    rewrite Ht. simpl. rewrite <- !app_assoc, drop_app_length.
    rewrite !elem_of_app, !elem_of_cons, elem_of_nil.
    intros [[[=]|[]] | [? | [[=]|[[=]|[]]]]]; done.
  - rewrite (session_scope_interrupt _ _ _ _ _ _ Hfail He). simpl.
    rewrite Hd. split_and!; try done.
    rewrite Ht. simpl. rewrite <- !app_assoc, drop_app_length.
    rewrite !elem_of_app, !elem_of_cons, elem_of_nil.
    intros [[[=]|[]] | [? | [[=]|[]]]]; done.
Qed.

Lemma failure_propagates_after_rollback_witness :
  let e := OperationalError "server has gone away" in
  let out := to_mysql op batch users users_temp "update" (faulty_world 1 e) in
  out.1 = Raise e ∧
  trace out.2 = [EvSession "test" true; EvCreate "users_temp"; EvInsert "users_temp" 2;
                 EvRollback; EvClose] ∧
  durable out.2 = durable (faulty_world 1 e).
Proof.
  intros e.
  pose (w := faulty_world 1 e).
  pose (w1 := open_session (mkConnector (db op)) true w).
  pose (wa := (create users_temp (connection ScopedSession) false w1).2).
  pose (w2 := (to_sql batch "users_temp" (connection ScopedSession) 1000 wa).2).
  destruct (failure_propagates_after_rollback op batch users users_temp "update" w w2 e)
    as (H1 & H2 & _ & H4 & _).
  - apply elem_of_cons. by left.
  - right. left. exists wa. split; reflexivity.
  - split_and!; [exact H1 | exact H2 | exact H4].
Defined.

(** C1, as stated, fails for a failure that is no [Exception]: a
    [KeyboardInterrupt] raised during the bulk load reaches the caller and
    the session is closed, but no [rollback] was called. *)
Lemma interrupt_during_load_is_not_rolled_back :
  let out := to_mysql op batch users users_temp "update" (faulty_world 1 KeyboardInterrupt) in
  out.1 = Raise KeyboardInterrupt ∧
  trace out.2 = [EvSession "test" true; EvCreate "users_temp"; EvInsert "users_temp" 2;
                 EvClose] ∧
  EvRollback ∉ trace out.2.
Proof.
  intros out.
  assert (Ht : trace out.2 = [EvSession "test" true; EvCreate "users_temp";
                              EvInsert "users_temp" 2; EvClose])
    by by vm_compute.
  split_and!; [by vm_compute | done |].
  rewrite Ht. intros Hin.
  repeat (apply elem_of_cons in Hin as [Hin|Hin]; [discriminate Hin|]).
  by apply elem_of_nil in Hin.
Qed.

(** *** Introspection of the temporary class *)

Section remove.
Context {A B : Type} `{EqDecision B} (f : A → B) (P : A → bool).

Lemma remove_each_skip (x : B) (ks l : list B) :
  x ∉ ks → remove_each ks (x :: l) = (x ::.) <$> remove_each ks l.
Proof.
  revert l. induction ks as [|k ks IH]; intros l Hx; [done|].
  apply not_elem_of_cons in Hx as [Hk Hx]. simpl.
  rewrite decide_False by done. unfold_monad.
  destruct (list_remove k l) as [l'|e]; [|done]. by apply IH.
Qed.

(** Removing, one after the other, the images of the elements that satisfy
    [P] leaves the images of the others, in their order. *)
Lemma remove_each_filter (l : list A) :
  NoDup (map f l) →
  remove_each (map f (filter (λ x, P x = true) l)) (map f l)
    = Ok (map f (filter (λ x, P x = false) l)).
Proof.
  induction l as [|x l IH]; intros Hnd; [done|].
  apply NoDup_cons in Hnd as [Hx Hnd]. specialize (IH Hnd).
  rewrite !filter_cons. destruct (P x) eqn:HP.
  - rewrite decide_True, decide_False by done. simpl.
    by rewrite decide_True.
  - rewrite decide_False, decide_True by done. simpl.
    rewrite remove_each_skip, IH; [done|].
    intros Hin. apply Hx. apply list_elem_of_fmap in Hin as (y & -> & Hy).
    apply list_elem_of_fmap. exists y. split; [done|].
    by apply list_elem_of_filter in Hy as [_ ?].
Qed.

End remove.

Lemma _my_insert_columns_ok (temp_table : DeclarativeMeta) :
  schema_ok temp_table →
  _my_insert_columns temp_table =
    Ok (map key (filter (λ c, primary_key c = false) (columns temp_table)),
        filter (λ c, primary_key c = false) (columns temp_table)).
Proof.
  intros [Hnd Hpk]. unfold _my_insert_columns, inspect. simpl.
  assert (Hnames : map name (filter (λ c, primary_key c = true) (columns temp_table))
                   = map key (filter (λ c, primary_key c = true) (columns temp_table))).
  { apply map_ext_in. intros c Hc. apply list_elem_of_In, list_elem_of_filter in Hc as [? ?].
    symmetry. by apply Hpk. }
  rewrite Hnames, (remove_each_filter key primary_key) by done.
  unfold_monad.
  pose proof (remove_each_filter id primary_key (columns temp_table)) as Hid.
  rewrite !map_id in Hid. rewrite Hid; [done|].
  eapply NoDup_fmap_1. exact Hnd.
Qed.

Lemma filter_none_all {A : Type} (P : A → bool) (l : list A) :
  filter (λ y, P y = true) l = [] → filter (λ y, P y = false) l = l.
Proof.
  induction l as [|z l IH]; [done|].
  rewrite !filter_cons. destruct (P z) eqn:HPz.
  - by rewrite decide_True.
  - rewrite decide_False, decide_True by done. intros Hl. f_equal. by apply IH.
Qed.

Lemma filter_singleton_split {A : Type} (P : A → bool) (l : list A) (x : A) :
  filter (λ y, P y = true) l = [x] →
  ∃ pre post, l = pre ++ x :: post ∧
              filter (λ y, P y = false) l = pre ++ post.
Proof.
  induction l as [|y l IH]; [done|].
  rewrite !filter_cons. destruct (P y) eqn:HP.
  - rewrite decide_True, decide_False by done. intros [= -> Hl].
    exists [], l. split; [done|]. simpl. by apply filter_none_all.
  - rewrite decide_False, decide_True by done. intros Hl.
    destruct (IH Hl) as (pre & post & -> & Hf).
    exists (y :: pre), post. split; [done|]. simpl. by rewrite Hf.
Qed.

Lemma for_each_inserted_ok (stmt : Insert) (ks : list string) :
  (∀ k, k ∈ ks → k ∈ map key (columns (table stmt))) →
  ∃ update_dict,
    for_each (λ column, v ← inserted stmt column; Ok (column, v)) ks = Ok update_dict ∧
    map fst update_dict = ks ∧
    ∀ kv, kv ∈ update_dict → kv.2 ∈ columns (table stmt) ∧ key kv.2 = kv.1.
Proof.
  induction ks as [|k ks IH]; intros Hks.
  - exists []. split_and!; [done | done |]. intros kv H. by apply elem_of_nil in H.
  - destruct IH as (ud & Hud & Hfst & Hin).
    { intros k' Hk'. apply Hks. by right. }
    assert (Hk : k ∈ map key (columns (table stmt))) by (apply Hks; by left).
    assert (Hins : ∃ c, inserted stmt k = Ok c ∧ c ∈ columns (table stmt) ∧ key c = k).
    { unfold inserted. destruct (List.find _ _) as [c|] eqn:Hfind.
      - apply find_some in Hfind as [Hc Hkey]. apply bool_decide_eq_true in Hkey.
        exists c. split_and!; [done | by apply list_elem_of_In | done].
      - exfalso. apply list_elem_of_fmap in Hk as (c & -> & Hc).
        apply list_elem_of_In in Hc.
        eapply find_none in Hfind; [|exact Hc]. simpl in Hfind.
        by rewrite bool_decide_eq_true_2 in Hfind. }
    destruct Hins as (c & Hins & Hc & Hkey).
    exists ((k, c) :: ud). split_and!.
    + simpl. unfold_monad. rewrite Hins. simpl. by rewrite Hud.
    + simpl. by f_equal.
    + intros kv [->|H]%elem_of_cons; [done | by apply Hin].
Qed.

(** X22.  For a temporary class with distinct column keys and exactly one
    primary-key column [pk], declared without a [key=] override, the
    mergeable columns are the declared columns [pre ++ pk :: post] without
    [pk], in declaration order; in every statement built, under either
    policy, the insert column list is, position by position, the list of keys
    of the selected columns; and when there is a mergeable column at all, a
    statement is built for the ignore policy, and for the overwrite policy
    when the target class has the mergeable keys. *)
Theorem mergeable_columns_in_order_and_aligned
    (target_table temp_table : DeclarativeMeta) (session : Session) (pk : Column) :
  schema_ok temp_table →
  Mapper.primary_key (inspect temp_table) = [pk] →
  ∃ pre post,
    columns temp_table = pre ++ pk :: post ∧
    _my_insert_columns temp_table = Ok (map key (pre ++ post), pre ++ post) ∧
    (∀ if_record_exists stmt,
       _my_insert_stmt target_table temp_table session if_record_exists = Ok stmt →
       table stmt = target_table ∧
       select stmt = Some (query session temp_table (pre ++ post)) ∧
       select_names stmt = map key (pre ++ post)) ∧
    (pre ++ post ≠ [] →
     ∃ stmt, _my_insert_stmt target_table temp_table session "ignore" = Ok stmt) ∧
    (pre ++ post ≠ [] →
     (∀ c, c ∈ pre ++ post → key c ∈ map key (columns target_table)) →
     ∃ stmt, _my_insert_stmt target_table temp_table session "update" = Ok stmt).
Proof.
  intros Hok Hpk. simpl in Hpk.
  destruct (filter_singleton_split _ _ _ Hpk) as (pre & post & Hcols & Hrest).
  exists pre, post.
  pose proof (_my_insert_columns_ok _ Hok) as Hlists. rewrite Hrest in Hlists.
  split_and!; [done | done | | |].
  - intros p stmt. unfold _my_insert_stmt. rewrite Hlists. unfold_monad. simpl.
    case_bool_decide.
    + destruct (for_each _ _); [|done]. unfold on_duplicate_key_update.
      case_bool_decide; [done|]. by intros [= <-].
    + case_bool_decide; [|done]. by intros [= <-].
  - intros _. unfold _my_insert_stmt. rewrite Hlists. unfold_monad. simpl. eauto.
  - intros Hsome Hkeys.
    edestruct (for_each_inserted_ok
                 (from_select (map key (pre ++ post))
                    (query session temp_table (pre ++ post)) (insert target_table))
                 (map key (pre ++ post))) as (ud & Hud & Hfst & _).
    { intros k (c & -> & Hc)%list_elem_of_fmap. simpl. by apply Hkeys. }
    unfold _my_insert_stmt. rewrite Hlists.
    cbn [mbind result_bind fst snd]. rewrite bool_decide_eq_true_2 by done.
    rewrite Hud. cbn [mbind result_bind]. unfold on_duplicate_key_update.
    rewrite bool_decide_eq_false_2; [eauto|].
    intros ->. simpl in Hfst. by destruct (pre ++ post).
Qed.


Lemma schema_ok_users_temp : schema_ok users_temp.
Proof.
  split.
  - simpl. repeat (apply NoDup_cons; split;
      [rewrite ?not_elem_of_cons, ?elem_of_nil; repeat split; try discriminate; tauto|]).
    apply NoDup_nil; done.
  - intros c Hc _. simpl in Hc.
    repeat (apply elem_of_cons in Hc as [->|Hc]; [done|]). by apply elem_of_nil in Hc.
Qed.

Lemma mergeable_columns_in_order_and_aligned_witness :
  ∃ pre post,
    columns users_temp = pre ++ mkColumn "id" "id" true VNull :: post ∧
    _my_insert_columns users_temp = Ok (map key (pre ++ post), pre ++ post).
Proof.
  destruct (mergeable_columns_in_order_and_aligned users users_temp ScopedSession
              (mkColumn "id" "id" true VNull) schema_ok_users_temp eq_refl)
    as (pre & post & H1 & H2 & _).
  exists pre, post. split; [exact H1 | exact H2].
Defined.

Lemma create_trace table_class bind checkfirst w :
  trace (create table_class bind checkfirst w).2
    = trace w ++ [EvCreate (__tablename__ table_class)].
Proof.
  unfold create, server_call. destruct (faults w (clock w)); [done|]. simpl.
  destruct (scratch w !! _); [by destruct checkfirst | done].
Qed.

Lemma to_mysql_block_trace df target_table temp_table if_record_exists session w :
  ∃ calls,
    trace (to_mysql_block df target_table temp_table if_record_exists session w).2
      = trace w ++ EvCreate (__tablename__ temp_table) :: calls.
Proof.
  unfold to_mysql_block. unfold_monad.
  pose proof (create_trace temp_table (connection session) false w) as Hc.
  destruct (create _ _ _ w) as [[[]|e] wa]; simpl in Hc.
  - destruct (try_except_else _ _ _ wa) as [r w2] eqn:E.
    eapply quiet_try_except_else in E as (_ & _ & evs & Ht & _);
      [| apply quiet_to_sql | intros; apply quiet_raise | apply quiet__my_insert].
    exists evs. simpl. by rewrite Ht, Hc, <- app_assoc.
  - exists []. done.
Qed.

Lemma session_scope_trace (self : Operation) (scoped : bool) (body : Session → M unit) (w : World) :
  ∃ calls,
    trace (_session_scope self scoped body w).2
      = trace (body (if scoped then ScopedSession else PlainSession)
                 (open_session (mkConnector (db self)) scoped w)).2 ++ calls.
Proof.
  unfold _session_scope, try_finally, try_except, commit, server_call, rollback, close, raise.
  unfold_monad.
  destruct scoped; simpl;
    (destruct (body _ _) as [[[]|e] w2]; simpl;
     [ destruct (faults w2 (clock w2)) as [e|]; [destruct (is_Exception e)|]
     | destruct (is_Exception e) ]; simpl; rewrite <- ?app_assoc; eauto).
Qed.

Lemma to_mysql_creates_first self df target_table temp_table if_record_exists w :
  if_record_exists ∈ ["update"; "ignore"] →
  ∃ calls,
    trace (to_mysql self df target_table temp_table if_record_exists w).2
      = trace w ++ EvSession (db self) true :: EvCreate (__tablename__ temp_table) :: calls.
Proof.
  intros Hp. unfold to_mysql. rewrite bool_decide_eq_false_2 by auto.
  destruct (session_scope_trace self true
              (to_mysql_block df target_table temp_table if_record_exists) w) as (c1 & ->).
  destruct (to_mysql_block_trace df target_table temp_table if_record_exists ScopedSession
              (open_session (mkConnector (db self)) true w)) as (c2 & ->).
  exists (c2 ++ c1). simpl. by rewrite <- !app_assoc.
Qed.

(** C5, as the code has it.  [_my_insert] checks no primary-key count:
    whatever the number of primary-key columns of the temporary class (none,
    one or several), introspection raises nothing and returns the columns in
    declaration order without the primary-key columns; and [to_mysql] creates
    the scratch table as its first call, before the class is inspected. *)
Theorem primary_key_count_is_not_checked
    (self : Operation) (df : DataFrame) (target_table temp_table : DeclarativeMeta)
    (if_record_exists : string) (w : World) :
  schema_ok temp_table →
  if_record_exists ∈ ["update"; "ignore"] →
  _my_insert_columns temp_table =
    Ok (map key (filter (λ c, primary_key c = false) (columns temp_table)),
        filter (λ c, primary_key c = false) (columns temp_table)) ∧
  ∃ calls,
    trace (to_mysql self df target_table temp_table if_record_exists w).2
      = trace w ++ EvSession (db self) true :: EvCreate (__tablename__ temp_table) :: calls.
Proof.
  intros Hok Hp. split.
  - by apply _my_insert_columns_ok.
  - by apply to_mysql_creates_first.
Qed.

Lemma schema_ok_pair_temp : schema_ok pair_temp.
Proof.
  split.
  - simpl. repeat (apply NoDup_cons; split;
      [rewrite ?not_elem_of_cons, ?elem_of_nil; repeat split; try discriminate; tauto|]).
    apply NoDup_nil; done.
  - intros c Hc _. simpl in Hc.
    repeat (apply elem_of_cons in Hc as [->|Hc]; [done|]). by apply elem_of_nil in Hc.
Qed.

Lemma primary_key_count_is_not_checked_witness :
  _my_insert_columns pair_temp =
    Ok (["email"; "name"],
        [mkColumn "email" "email" false VNull; mkColumn "name" "name" false VNull]) ∧
  ∃ calls,
    trace (to_mysql op batch users pair_temp "ignore" world0).2
      = trace world0 ++ EvSession "test" true :: EvCreate "users_temp" :: calls.
Proof.
  apply (primary_key_count_is_not_checked op batch users pair_temp "ignore" world0).
  - exact schema_ok_pair_temp.
  - apply elem_of_cons. right. apply elem_of_cons. by left.
Defined.

(** C5, as stated, fails: a temporary class with two primary-key columns
    passes introspection without error, the scratch table is created and the
    whole operation succeeds. *)
Lemma two_primary_keys_raise_nothing :
  length (Mapper.primary_key (inspect pair_temp)) = 2 ∧
  _my_insert_columns pair_temp =
    Ok (["email"; "name"],
        [mkColumn "email" "email" false VNull; mkColumn "name" "name" false VNull]) ∧
  (∃ stmt, _my_insert_stmt users pair_temp ScopedSession "update" = Ok stmt) ∧
  (to_mysql op batch users pair_temp "update" world0).1 = Ok tt ∧
  EvCreate "users_temp" ∈ trace (to_mysql op batch users pair_temp "update" world0).2.
Proof.
  split_and!; try reflexivity.
  - eexists. reflexivity.
  - apply (bool_decide_unpack _). by vm_compute.
Qed.

(** Nor does the code object to a class without any primary-key column. *)
Lemma no_primary_key_raises_nothing :
  length (Mapper.primary_key (inspect keyless_temp)) = 0 ∧
  _my_insert_columns keyless_temp =
    Ok (["email"; "name"],
        [mkColumn "email" "email" false VNull; mkColumn "name" "name" false VNull]) ∧
  (to_mysql op batch users keyless_temp "update" world0).1 = Ok tt.
Proof. by vm_compute. Qed.

(** *** Appended rows *)

Lemma append_rows_class t gs : table_class (append_rows t gs) = table_class t.
Proof. revert t. induction gs as [|g gs IH]; intros t; [done|]. simpl. by rewrite IH. Qed.

Lemma append_rows_length t gs :
  length (rows (append_rows t gs)) = length (rows t) + length gs.
Proof.
  revert t. induction gs as [|g gs IH]; intros t; simpl; [lia|].
  rewrite IH. simpl. rewrite length_app. simpl. lia.
Qed.

Lemma append_rows_app t gs1 gs2 :
  append_rows t (gs1 ++ gs2) = append_rows (append_rows t gs1) gs2.
Proof. apply foldl_app. Qed.

(** *** Rows built by the engine *)

Lemma row_of_lookup cls given auto c :
  NoDup (map name (columns cls)) →
  c ∈ columns cls →
  row_of cls given auto !! name c = Some (cell_of given auto c).
Proof.
  intros Hnd Hc. unfold row_of.
  apply elem_of_list_to_map_1.
  - by rewrite <- list_fmap_compose.
  - apply list_elem_of_fmap. by exists c.
Qed.

Lemma frame_row_unset (cols : list string) (r : list value) (k : string) :
  k ∉ cols → (list_to_map (zip cols r) : gmap string value) !! k = None.
Proof.
  intros Hk. apply not_elem_of_list_to_map_1. intros Hin. apply Hk.
  apply list_elem_of_fmap in Hin as ([k' v] & -> & Hkv). simpl.
  by apply elem_of_zip_l in Hkv.
Qed.

(** A row that leaves the primary key to the server gets the counter as its
    key. *)
Lemma row_of_primary cls given auto k :
  NoDup (map name (columns cls)) →
  keyless cls given →
  k ∈ primary_names cls →
  row_of cls given auto !!! k = VInt auto.
Proof.
  intros Hnd Hg Hk. pose proof (Hg k Hk) as Hnone.
  apply list_elem_of_fmap in Hk as (c & -> & Hc).
  apply list_elem_of_filter in Hc as [Hpk Hc].
  unfold lookup_total, map_lookup_total. rewrite row_of_lookup by done.
  simpl. unfold cell_of. by rewrite Hnone, Hpk.
Qed.

Lemma row_of_without_primary cls given auto auto' :
  primary_names cls = [] → row_of cls given auto = row_of cls given auto'.
Proof.
  intros Hpk. unfold row_of. f_equal. apply map_ext_in. intros c Hc%list_elem_of_In.
  f_equal. unfold cell_of. destruct (given !! name c); [done|].
  destruct (primary_key c) eqn:Hc'; [|done]. exfalso.
  assert (Hin : name c ∈ primary_names cls).
  { apply list_elem_of_fmap. exists c. split; [done|]. by apply list_elem_of_filter. }
  rewrite Hpk in Hin. by apply elem_of_nil in Hin.
Qed.

Lemma next_auto_ge cls new auto : (auto ≤ next_auto cls new auto)%Z.
Proof.
  unfold next_auto. generalize (primary_names cls). intros ks. revert auto.
  induction ks as [|k ks IH]; intros auto; simpl; [lia|].
  etrans; [|apply IH]. destruct (new !!! k); lia.
Qed.

(** The counter after such a row: one more, when the class has a primary
    key. *)
Lemma next_auto_keyless cls given auto :
  NoDup (map name (columns cls)) →
  keyless cls given →
  next_auto cls (row_of cls given auto) auto
    = if bool_decide (primary_names cls = []) then auto else (auto + 1)%Z.
Proof.
  intros Hnd Hg. unfold next_auto.
  assert (Hcells : ∀ k, k ∈ primary_names cls → row_of cls given auto !!! k = VInt auto)
    by (intros k Hk; by apply row_of_primary).
  revert Hcells. generalize (row_of cls given auto). intros new.
  generalize (primary_names cls). intros ks Hcells.
  assert (Hgen : ∀ a, foldl (λ a k, match new !!! k with
                                    | VInt z => Z.max a (z + 1)
                                    | _ => a
                                    end) a ks
                      = if bool_decide (ks = []) then a else Z.max a (auto + 1)).
  { induction ks as [|k ks IH]; intros a; [done|].
    simpl. rewrite IH by (intros k' Hk'; apply Hcells; by right).
    rewrite (Hcells k) by (by left).
    case_bool_decide; [done | lia]. }
  rewrite Hgen. case_bool_decide; [done | lia].
Qed.

(** A key taken from the counter of a table in order meets no row of the
    table. *)
Lemma fresh_primary_key (t : Table) given (old : gmap string value) :
  NoDup (map name (columns (table_class t))) →
  table_ok t →
  keyless (table_class t) given →
  primary_names (table_class t) ≠ [] →
  old ∈ rows t →
  collides (primary_names (table_class t))
    (row_of (table_class t) given (auto_increment t)) old = false.
Proof.
  intros Hnd Hok Hg Hpk Hold. unfold collides.
  apply andb_false_iff. right. apply bool_decide_eq_false. intros Heq.
  destruct (primary_names (table_class t)) as [|k ks] eqn:Hks; [done|].
  assert (Hk : k ∈ primary_names (table_class t)) by (rewrite Hks; by left).
  unfold index_value in Heq. simpl in Heq. injection Heq as Heq _.
  rewrite (row_of_primary _ _ _ k Hnd Hg Hk) in Heq.
  pose proof (Hok old k (auto_increment t) Hold Hk (eq_sym Heq)). lia.
Qed.

Lemma find_duplicate_keyless (t : Table) given :
  NoDup (map name (columns (table_class t))) →
  table_ok t →
  keyless (table_class t) given →
  find_duplicate (indexes (table_class t))
      (row_of (table_class t) given (auto_increment t)) (rows t)
    = find_duplicate (uniques (table_class t))
        (row_of (table_class t) given (auto_increment t)) (rows t).
Proof.
  intros Hnd Hok Hg. unfold indexes.
  destruct (primary_names (table_class t)) as [|k ks] eqn:Hks; [done|].
  rewrite <- Hks. simpl.
  destruct (list_find _ _) as [[i old]|] eqn:E; [|done].
  apply list_find_Some in E as (Hi & Hc & _).
  rewrite fresh_primary_key in Hc; [done | done | done | done | by rewrite Hks |].
  by eapply list_elem_of_lookup_2.
Qed.

Lemma table_ok_counter (t : Table) (rows' : list (gmap string value)) (auto' : Z) :
  table_ok t →
  (auto_increment t ≤ auto')%Z →
  (∀ r, r ∈ rows' → r ∈ rows t ∨
        ∀ k z, k ∈ primary_names (table_class t) → r !!! k = VInt z → (z < auto')%Z) →
  table_ok {| table_class := table_class t; rows := rows'; auto_increment := auto' |}.
Proof.
  intros Hok Hle Hrows r k z Hr Hk Hz. simpl in *.
  destruct (Hrows r Hr) as [Hold|Hnew].
  - pose proof (Hok r k z Hold Hk Hz). lia.
  - by apply (Hnew k).
Qed.

Lemma table_ok_append (t : Table) given :
  NoDup (map name (columns (table_class t))) →
  table_ok t →
  keyless (table_class t) given →
  table_ok (append_row t given).
Proof.
  intros Hnd Hok Hg. unfold append_row. apply table_ok_counter; [done | apply next_auto_ge |].
  intros r [Hr|Hr]%elem_of_app; [by left|]. right.
  apply list_elem_of_singleton in Hr as ->. intros k z Hk Hz.
  rewrite row_of_primary in Hz by done. injection Hz as <-.
  rewrite next_auto_keyless by done.
  rewrite bool_decide_eq_false_2; [lia|]. intros Hnil. rewrite Hnil in Hk.
  by apply elem_of_nil in Hk.
Qed.

(** *** The bulk load *)

Lemma insert_row_no_index mode t g :
  NoDup (map name (columns (table_class t))) →
  table_ok t →
  uniques (table_class t) = [] →
  keyless (table_class t) g →
  insert_row mode t g = Ok (append_row t g).
Proof.
  intros Hnd Hok Hu Hg. unfold insert_row.
  by rewrite find_duplicate_keyless, Hu.
Qed.

Lemma insert_rows_no_index mode t gs :
  NoDup (map name (columns (table_class t))) →
  table_ok t →
  uniques (table_class t) = [] →
  Forall (keyless (table_class t)) gs →
  insert_rows mode t gs = Ok (append_rows t gs).
Proof.
  revert t. induction gs as [|g gs IH]; intros t Hnd Hok Hu Hgs; [done|].
  apply Forall_cons in Hgs as [Hg Hgs].
  simpl. rewrite insert_row_no_index by done. unfold_monad.
  apply IH; [done | by apply table_ok_append | done | done].
Qed.

Lemma table_ok_append_rows t gs :
  NoDup (map name (columns (table_class t))) →
  table_ok t →
  Forall (keyless (table_class t)) gs →
  table_ok (append_rows t gs).
Proof.
  revert t. induction gs as [|g gs IH]; intros t Hnd Hok Hgs; [done|].
  apply Forall_cons in Hgs as [Hg Hgs]. simpl.
  apply IH; [done | by apply table_ok_append | done].
Qed.

Lemma append_rows_rows t gs :
  NoDup (map name (columns (table_class t))) →
  Forall (keyless (table_class t)) gs →
  rows (append_rows t gs)
    = rows t ++ imap (λ i g, row_of (table_class t) g (auto_increment t + Z.of_nat i)%Z) gs.
Proof.
  revert t. induction gs as [|g gs IH]; intros t Hnd Hgs.
  - simpl. by rewrite app_nil_r.
  - apply Forall_cons in Hgs as [Hg Hgs].
    cbn [append_rows foldl]. fold (append_rows (append_row t g) gs).
    rewrite IH by done. simpl. rewrite <- app_assoc. f_equal. simpl.
    rewrite Z.add_0_r. f_equal. apply imap_ext. intros i x _. simpl.
    rewrite next_auto_keyless by done. case_bool_decide as Hpk.
    + by apply row_of_without_primary.
    + f_equal. lia.
Qed.

(** The cells of a valid batch leave the primary key to the server. *)
Lemma valid_batch_columns temp_table df :
  valid_batch temp_table df → df_columns df ⊆ map name (columns temp_table).
Proof.
  intros Hv k Hk. apply Hv in Hk. apply list_elem_of_fmap in Hk as (c & -> & Hc).
  apply list_elem_of_filter in Hc as [_ Hc]. apply list_elem_of_fmap. by exists c.
Qed.

Lemma valid_batch_keyless temp_table df :
  NoDup (map name (columns temp_table)) →
  valid_batch temp_table df →
  ∀ k, k ∈ primary_names temp_table → k ∉ df_columns df.
Proof.
  intros Hnd Hv k Hk Hin. apply Hv in Hin.
  apply list_elem_of_fmap in Hk as (c & -> & Hc).
  apply list_elem_of_fmap in Hin as (c' & Heq & Hc').
  apply list_elem_of_filter in Hc as [Hpk Hc].
  apply list_elem_of_filter in Hc' as [Hpk' Hc'].
  assert (c = c'); [|congruence].
  apply list_elem_of_lookup_1 in Hc as [i Hi].
  apply list_elem_of_lookup_1 in Hc' as [j Hj].
  assert (i = j); [|congruence].
  eapply NoDup_lookup; [exact Hnd | |]; rewrite list_lookup_fmap.
  - by rewrite Hi.
  - rewrite Hj. simpl. by rewrite Heq.
Qed.

Lemma data_keyless cls (keys : list string) (data : list (list value)) :
  (∀ k, k ∈ primary_names cls → k ∉ keys) →
  Forall (keyless cls) (map (λ r, list_to_map (zip keys r)) data).
Proof.
  intros Hk. apply Forall_forall. intros g (r & -> & _)%list_elem_of_fmap k' Hk'.
  apply frame_row_unset. by apply Hk.
Qed.

Lemma exec_insert_ok con n keys data w t :
  faults w (clock w) = None →
  scratch w !! n = Some t →
  NoDup (map name (columns (table_class t))) →
  table_ok t →
  uniques (table_class t) = [] →
  keys ⊆ map name (columns (table_class t)) →
  (∀ k, k ∈ primary_names (table_class t) → k ∉ keys) →
  exec_insert con n keys data w =
    (Ok tt,
     {| durable := durable w; pending := pending w;
        scratch := <[n := append_rows t (map (λ r, list_to_map (zip keys r)) data)]> (scratch w);
        trace := trace w ++ [EvInsert n (length data)];
        clock := S (clock w); faults := faults w |}).
Proof.
  intros Hf Ht Hnd Hok Hu Hk Hpk. unfold exec_insert, server_call, lookup_table.
  rewrite Hf. simpl.
  rewrite Ht. rewrite bool_decide_eq_true_2 by done.
  unfold_monad. by rewrite insert_rows_no_index by (try done; by apply data_keyless).
Qed.


Lemma insert_chunks_ok con n df chunksize k :
  ∀ i w t,
    0 < chunksize →
    no_faults w →
    scratch w !! n = Some t →
    NoDup (map name (columns (table_class t))) →
    table_ok t →
    uniques (table_class t) = [] →
    df_columns df ⊆ map name (columns (table_class t)) →
    (∀ k, k ∈ primary_names (table_class t) → k ∉ df_columns df) →
    ∃ w',
      insert_chunks con n df chunksize (seq i k) w = (Ok tt, w') ∧
      scratch w' =
        <[n := append_rows t
                 (map (λ r, list_to_map (zip (df_columns df) r))
                    (take (k * chunksize) (drop (i * chunksize) (df_values df))))]>
          (scratch w) ∧
      pending w' = pending w ∧ durable w' = durable w ∧ faults w' = faults w ∧
      trace w' = trace w ++
        map (EvInsert n)
          (chunk_sizes chunksize (length (df_values df) - i * chunksize) k).
Proof.
  induction k as [|k IH]; intros i w t Hcs Hnf Ht Hnd Hok Hu Hcols Hpk.
  - exists w. simpl. split_and!; try done.
    + by rewrite insert_id.
    + by rewrite app_nil_r.
  - cbn [seq insert_chunks chunk_sizes].
    set (nrows := length (df_values df)).
    case_bool_decide as Hbreak.
    + exists w. rewrite bool_decide_eq_true_2 by lia.
      rewrite drop_ge by (fold nrows; lia).
      rewrite take_nil. simpl. split_and!; try done.
      * by rewrite insert_id.
      * by rewrite app_nil_r.
    + rewrite bool_decide_eq_false_2 by lia.
      set (data := take _ (drop (i * chunksize) (df_values df))).
      unfold_monad. rewrite (exec_insert_ok _ _ _ _ _ t) by auto.
      set (t1 := append_rows t _).
      set (w1 := mkWorld _ _ _ _ _ _).
      destruct (IH (S i) w1 t1) as (w' & Hrun & Hs & Hp & Hd & Hfl & Htr); try done.
      * subst w1. simpl. apply lookup_insert_eq.
      * subst t1. by rewrite append_rows_class.
      * subst t1. apply table_ok_append_rows; [done | done | by apply data_keyless].
      * subst t1. by rewrite append_rows_class.
      * subst t1. by rewrite append_rows_class.
      * subst t1. by rewrite append_rows_class.
      * exists w'. rewrite Hrun. split_and!; try done.
        -- rewrite Hs. subst w1 t1. simpl. rewrite insert_insert_eq. f_equal.
           rewrite <- append_rows_app, <- map_app. do 2 f_equal.
           subst data.
           assert (Hdata : take (((i + 1) * chunksize) `min` nrows - i * chunksize)
                             (drop (i * chunksize) (df_values df))
                           = take chunksize (drop (i * chunksize) (df_values df))).
           { destruct (decide ((i + 1) * chunksize ≤ nrows)).
             - f_equal. lia.
             - rewrite !take_ge; [done | | ]; rewrite length_drop; fold nrows; lia. }
           rewrite Hdata.
           replace (drop (chunksize + i * chunksize) (df_values df))
             with (drop chunksize (drop (i * chunksize) (df_values df)))
             by (rewrite drop_drop; f_equal; lia).
           by rewrite take_take_drop.
        -- rewrite Htr. subst w1. simpl. rewrite <- app_assoc. f_equal. simpl.
           f_equal.
           ++ f_equal. subst data. rewrite length_take, length_drop. fold nrows. lia.
           ++ f_equal. f_equal. fold nrows. lia.
Qed.

Lemma chunks_cover (n chunksize : nat) :
  0 < chunksize → n ≤ (n / chunksize + 1) * chunksize.
Proof.
  intros H. pose proof (Nat.div_mod_eq n chunksize) as Hdm.
  pose proof (Nat.mod_upper_bound n chunksize ltac:(lia)) as Hmod.
  remember (n / chunksize) as q. remember (n mod chunksize) as r.
  clear Heqq Heqr. nia.
Qed.

Lemma to_sql_ok con n df chunksize w t :
  0 < chunksize →
  no_faults w →
  scratch w !! n = Some t →
  NoDup (map name (columns (table_class t))) →
  table_ok t →
  uniques (table_class t) = [] →
  df_columns df ⊆ map name (columns (table_class t)) →
  (∀ k, k ∈ primary_names (table_class t) → k ∉ df_columns df) →
  ∃ w',
    to_sql df n con chunksize w = (Ok tt, w') ∧
    scratch w' = <[n := append_rows t (frame_rows df)]> (scratch w) ∧
    pending w' = pending w ∧ durable w' = durable w ∧ faults w' = faults w ∧
    trace w' = trace w ++
      map (EvInsert n)
        (chunk_sizes chunksize (length (df_values df))
           (length (df_values df) / chunksize + 1)).
Proof.
  intros Hcs Hnf Ht Hnd Hok Hu Hcols Hpk. unfold to_sql.
  case_bool_decide as Hn.
  - exists w. unfold frame_rows.
    apply length_zero_iff_nil in Hn. rewrite Hn. simpl.
    split_and!; try done.
    + by rewrite insert_id.
    + replace (0 / chunksize + 1) with 1.
      * simpl. by rewrite app_nil_r.
      * rewrite Nat.div_small by done. done.
  - rewrite bool_decide_eq_false_2 by lia.
    destruct (insert_chunks_ok con n df chunksize (length (df_values df) / chunksize + 1)
                0 w t) as (w' & Hrun & Hs & Hp & Hd & Hfl & Htr); try done.
    exists w'. split_and!; try done.
    + rewrite Hs. simpl. unfold frame_rows. rewrite take_ge; [done|].
      simpl. by apply chunks_cover.
    + rewrite Htr. simpl. by rewrite Nat.sub_0_r.
Qed.

Lemma create_ok table_class bind w :
  faults w (clock w) = None →
  scratch w !! __tablename__ table_class = None →
  create table_class bind false w =
    (Ok tt,
     {| durable := durable w; pending := pending w;
        scratch := <[__tablename__ table_class :=
                       {| table_class := table_class; rows := []; auto_increment := 1 |}]>
                     (scratch w);
        trace := trace w ++ [EvCreate (__tablename__ table_class)];
        clock := S (clock w); faults := faults w |}).
Proof.
  intros Hf Hs. unfold create, server_call. rewrite Hf. simpl. by rewrite Hs.
Qed.


Lemma table_ok_empty cls auto :
  table_ok {| table_class := cls; rows := []; auto_increment := auto |}.
Proof. intros r k z Hr. by apply elem_of_nil in Hr. Qed.

(** Scratch-table creation and bulk load at the start of [to_mysql], when the
    server does not fail, the batch is valid and the scratch table has no
    unique index beside its primary key: the whole frame is staged, and the
    merge is what runs next. *)
Lemma load_ok (self : Operation) df target_table temp_table if_record_exists session w :
  no_faults w →
  NoDup (map name (columns temp_table)) →
  uniques temp_table = [] →
  valid_batch temp_table df →
  let n := __tablename__ temp_table in
  let w1 := open_session (mkConnector (db self)) true w in
  ∃ wl,
    (create temp_table (connection session) false ≫=
       λ _, to_sql df n (connection session) 1000) w1 = (Ok tt, wl) ∧
    scratch wl = <[n := staged temp_table df]> ∅ ∧
    pending wl = durable w ∧ durable wl = durable w ∧ faults wl = faults w ∧
    trace wl = trace w ++ EvSession (db self) true :: EvCreate n ::
      map (EvInsert n)
        (chunk_sizes 1000 (length (df_values df)) (length (df_values df) / 1000 + 1)) ∧
    to_mysql_block df target_table temp_table if_record_exists session w1
      = _my_insert target_table temp_table session if_record_exists wl.
Proof.
  intros Hnf Hnd Hu Hvalid n w1. subst n. set (n := __tablename__ temp_table).
  pose proof (valid_batch_columns _ _ Hvalid) as Hcols.
  pose proof (valid_batch_keyless _ _ Hnd Hvalid) as Hpk.
  unfold to_mysql_block, try_except_else. fold n.
  pose (t0 := {| table_class := temp_table; rows := []; auto_increment := 1 |}).
  assert (Hc : create temp_table (connection session) false w1 =
    (Ok tt, {| durable := durable w1; pending := pending w1;
               scratch := <[n := t0]> (scratch w1);
               trace := trace w1 ++ [EvCreate n];
               clock := S (clock w1); faults := faults w1 |})).
  { apply create_ok; [apply Hnf | apply lookup_empty]. }
  set (wc := mkWorld _ _ _ _ _ _) in Hc.
  destruct (to_sql_ok (connection session) n df 1000 wc t0)
    as (wl & Hrun & Hs & Hp & Hd & Hfl & Htr);
    [lia | exact Hnf | apply lookup_insert_eq | exact Hnd | apply table_ok_empty
    | exact Hu | exact Hcols | exact Hpk |].
  exists wl. unfold_monad.
  rewrite Hc, Hrun. split_and!; try done.
  - rewrite Hs. subst wc w1. simpl. by rewrite insert_insert_eq.
  - rewrite Htr. subst wc w1. simpl. by rewrite <- !app_assoc.
Qed.

Lemma _my_insert_trace target_table temp_table session if_record_exists w :
  ∃ calls,
    trace (_my_insert target_table temp_table session if_record_exists w).2
      = trace w ++ calls ∧
    Forall (λ ev, is_insert ev = false) calls.
Proof.
  unfold _my_insert. destruct (_my_insert_stmt _ _ _ _) as [stmt|e].
  - exists [EvExecute stmt]. split; [|by repeat constructor].
    apply execute_trace.
  - exists []. split; [by rewrite app_nil_r | constructor].
Qed.

Lemma session_scope_tail (self : Operation) (scoped : bool) (body : Session → M unit) (w : World) :
  ∃ calls,
    trace (_session_scope self scoped body w).2
      = trace (body (if scoped then ScopedSession else PlainSession)
                 (open_session (mkConnector (db self)) scoped w)).2 ++ calls ∧
    Forall (λ ev, is_insert ev = false) calls.
Proof.
  unfold _session_scope, try_finally, try_except, commit, server_call, rollback, close, raise.
  unfold_monad.
  destruct scoped; simpl;
    (destruct (body _ _) as [[[]|e] w2]; simpl;
     [ destruct (faults w2 (clock w2)) as [e|]; [destruct (is_Exception e)|]
     | destruct (is_Exception e) ]; simpl; rewrite <- ?app_assoc;
     eexists; (split; [reflexivity | by repeat constructor])).
Qed.

Lemma filter_no_insert (calls : list Event) :
  Forall (λ ev, is_insert ev = false) calls →
  filter (λ ev, is_insert ev = true) calls = [].
Proof.
  induction 1 as [|ev calls Hev _ IH]; [done|].
  rewrite filter_cons, decide_False; [done | congruence].
Qed.

(** C9.  With 2,500 rows and the chunk size 1,000 that [to_mysql] passes to
    [to_sql] (on a server that does not fail, for a valid batch): three
    inserts are sent, of 1,000, 1,000 and 500 rows, and no other insert during
    the whole run; after them the scratch table holds 2,500 rows; and the
    merge statement that [_my_insert] builds is executed in that very world:
    its [execute] call is the next call after the three inserts, followed
    only by the end of the session. *)
Theorem load_2500_rows_in_3_chunks_before_merge
    (self : Operation) (df : DataFrame) (target_table temp_table : DeclarativeMeta)
    (if_record_exists : string) (w : World) :
  let session := ScopedSession in
  let con := connection session in
  let n := __tablename__ temp_table in
  let w1 := open_session (mkConnector (db self)) true w in
  let out := to_mysql self df target_table temp_table if_record_exists w in
  length (df_values df) = 2500 →
  if_record_exists ∈ ["update"; "ignore"] →
  no_faults w →
  NoDup (map name (columns temp_table)) →
  uniques temp_table = [] →
  valid_batch temp_table df →
  ∃ wl t,
    (create temp_table con false ≫= λ _, to_sql df n con 1000) w1 = (Ok tt, wl) ∧
    trace wl = trace w ++ [EvSession (db self) true; EvCreate n;
                           EvInsert n 1000; EvInsert n 1000; EvInsert n 500] ∧
    scratch wl !! n = Some t ∧
    length (rows t) = 2500 ∧
    filter (λ ev, is_insert ev = true) (drop (length (trace w)) (trace out.2))
      = [EvInsert n 1000; EvInsert n 1000; EvInsert n 500] ∧
    ∀ stmt,
      _my_insert_stmt target_table temp_table session if_record_exists = Ok stmt →
      to_mysql_block df target_table temp_table if_record_exists session w1
        = execute session stmt wl ∧
      ∃ finish,
        trace out.2 = trace wl ++ EvExecute stmt :: finish ∧
        finish ∈ [[EvCommit; EvClose]; [EvRollback; EvClose]; [EvClose]].
Proof.
  intros session con n w1 out Hlen Hp Hnf Hnd Hu Hvalid.
  destruct (load_ok self df target_table temp_table if_record_exists session w
              Hnf Hnd Hu Hvalid)
    as (wl & Hrun & Hs & _ & _ & Hfl & Htr & Hblock).
  subst session con n w1 out. cbv zeta in *.
  rewrite Hlen in Htr. change (chunk_sizes 1000 2500 (2500 / 1000 + 1)) with [1000; 1000; 500] in Htr.
  exists wl, (staged temp_table df). split_and!; try done.
  - rewrite Hs. apply lookup_insert_eq.
  - unfold staged. rewrite append_rows_length. unfold frame_rows.
    rewrite length_map, Hlen. done.
  - unfold to_mysql. rewrite bool_decide_eq_false_2 by auto.
    destruct (session_scope_tail self true
                (to_mysql_block df target_table temp_table if_record_exists) w)
      as (c2 & -> & Hc2).
    rewrite Hblock.
    destruct (_my_insert_trace target_table temp_table ScopedSession if_record_exists wl)
      as (c1 & -> & Hc1).
    rewrite Htr, <- !app_assoc, drop_app_length. simpl.
    rewrite !filter_cons. simpl.
    rewrite filter_app, (filter_no_insert c1), (filter_no_insert c2) by done.
    done.
  - intros stmt Hstmt.
    assert (Hexec : to_mysql_block df target_table temp_table if_record_exists ScopedSession
                      (open_session (mkConnector (db self)) true w)
                    = execute ScopedSession stmt wl).
    { rewrite Hblock. unfold _my_insert. by rewrite Hstmt. }
    split; [done|].
    destruct (execute ScopedSession stmt wl) as [r w2] eqn:Hrun2.
    pose proof (execute_trace ScopedSession stmt wl) as Htr2. rewrite Hrun2 in Htr2.
    destruct (quiet_execute _ _ _ _ _ Hrun2) as (_ & Hf2 & _). simpl in Htr2.
    unfold to_mysql. rewrite bool_decide_eq_false_2 by auto.
    destruct r as [[]|e].
    + rewrite (session_scope_ok self true _ w _ Hexec)
        by (rewrite Hf2, Hfl; apply Hnf).
      simpl. exists [EvCommit; EvClose]. rewrite Htr2, <- app_assoc. split; [done|].
      by left.
    + destruct (is_Exception e) eqn:He.
      * rewrite (session_scope_raise self true _ w _ e Hexec He). simpl.
        exists [EvRollback; EvClose]. rewrite Htr2, <- app_assoc. split; [done|].
        right. by left.
      * destruct (session_scope_base_exception self true _ w _ e Hexec He)
          as (_ & -> & _).
        exists [EvClose]. rewrite Htr2, <- app_assoc. split; [done|].
        do 2 right. by left.
Qed.

Lemma load_2500_rows_in_3_chunks_before_merge_witness :
  ∃ wl t stmt finish,
    scratch wl !! "users_temp" = Some t ∧ length (rows t) = 2500 ∧
    trace wl = [EvSession "test" true; EvCreate "users_temp"; EvInsert "users_temp" 1000;
                EvInsert "users_temp" 1000; EvInsert "users_temp" 500] ∧
    trace (to_mysql op big_batch users users_temp "update" world0).2
      = trace wl ++ EvExecute stmt :: finish.
Proof.
  destruct (load_2500_rows_in_3_chunks_before_merge op big_batch users users_temp
              "update" world0) as (wl & t & _ & H2 & H3 & H4 & _ & H6).
  - reflexivity.
  - apply elem_of_cons. by left.
  - intros i. reflexivity.
  - apply (bool_decide_unpack _). by vm_compute.
  - reflexivity.
  - intros k Hk. simpl in Hk. simpl.
    apply elem_of_cons in Hk as [->|Hk]; [by left|].
    apply elem_of_cons in Hk as [->|Hk]; [by right; left|].
    by apply elem_of_nil in Hk.
  - assert (Hstmt : ∃ stmt, _my_insert_stmt users users_temp ScopedSession "update" = Ok stmt)
      by (eexists; reflexivity).
    destruct Hstmt as [stmt Hstmt].
    destruct (H6 stmt Hstmt) as (_ & finish & H7 & _).
    exists wl, t, stmt, finish. split_and!; [exact H3 | exact H4 | exact H2 | exact H7].
Defined.





(** *** Sorted scans *)

Lemma sort_by_sorted {A : Type} (le : A → A → bool) (l : list A) :
  (∀ i x y, l !! i = Some x → l !! S i = Some y → le x y = true) →
  sort_by le l = l.
Proof.
  induction l as [|x l IH]; intros Hle; [done|].
  unfold sort_by in *. simpl. rewrite IH.
  - destruct l as [|y l]; [done|]. simpl.
    by rewrite (Hle 0 x y).
  - intros i a b Ha Hb. by apply (Hle (S i)).
Qed.

Lemma staged_rows (temp_table : DeclarativeMeta) (df : DataFrame) :
  NoDup (map name (columns temp_table)) →
  valid_batch temp_table df →
  rows (staged temp_table df)
    = imap (λ i g, row_of temp_table g (1 + Z.of_nat i)%Z) (frame_rows df).
Proof.
  intros Hnd Hvalid. unfold staged. rewrite append_rows_rows; [done | done |].
  apply data_keyless. by apply valid_batch_keyless.
Qed.

(** The rows of a valid batch got their keys from the counter, one after
    the other: a scan of the scratch table reads them in the order of the
    frame. *)
Lemma scan_staged (temp_table : DeclarativeMeta) (df : DataFrame) :
  NoDup (map name (columns temp_table)) →
  valid_batch temp_table df →
  scan (staged temp_table df) = rows (staged temp_table df).
Proof.
  intros Hnd Hvalid. unfold scan.
  assert (Hcls : table_class (staged temp_table df) = temp_table)
    by (unfold staged; by rewrite append_rows_class).
  rewrite Hcls. apply sort_by_sorted. intros i x y.
  rewrite staged_rows by done. rewrite !list_lookup_imap.
  assert (Hless : Forall (keyless temp_table) (frame_rows df)).
  { apply data_keyless. by apply valid_batch_keyless. }
  rewrite Forall_forall in Hless.
  destruct (frame_rows df !! i) as [g|] eqn:Hg; [|done].
  destruct (frame_rows df !! S i) as [g'|] eqn:Hg'; [|done].
  simpl. intros [= <-] [= <-].
  assert (Hkeys : ∀ g a, keyless temp_table g →
            index_value (primary_names temp_table) (row_of temp_table g a)
              = map (λ _, VInt a) (primary_names temp_table)).
  { intros g0 a Hg0. unfold index_value. apply map_ext_in.
    intros k Hk%list_elem_of_In. by apply row_of_primary. }
  rewrite !Hkeys by (apply Hless; by eapply list_elem_of_lookup_2).
  destruct (primary_names temp_table) as [|k ks]; [done|]. simpl.
  rewrite bool_decide_eq_false_2 by (intros [=]; lia).
  apply Z.leb_le. lia.
Qed.

(** *** One row of a merge *)

Section merge_row.
Context (target_table : DeclarativeMeta) (u names : list string).
Hypothesis target_names : NoDup (map name (columns target_table)).
Hypothesis target_index : uniques target_table = [u].
Hypothesis index_columns : u ⊆ names.
Hypothesis mergeable_columns : names ⊆ map name (columns target_table).
Hypothesis mergeable_keyless : ∀ k, k ∈ primary_names target_table → k ∉ names.

Lemma supplied_lookup (b : gmap string value) (k : string) :
  k ∈ names → supplied names b !! k = Some (b !!! k).
Proof.
  intros Hk. unfold supplied. clear -Hk.
  induction names as [|k' ks IH]; [by apply elem_of_nil in Hk|].
  simpl. destruct (decide (k' = k)) as [->|Hne].
  - apply lookup_insert_eq.
  - rewrite lookup_insert_ne by done. apply IH.
    by apply elem_of_cons in Hk as [->|Hk].
Qed.

(** The cells supplied to the target leave its primary key to the server. *)
Lemma supplied_keyless (b : gmap string value) : keyless target_table (supplied names b).
Proof.
  intros k Hk. unfold supplied. apply not_elem_of_list_to_map_1.
  rewrite <- list_fmap_compose. intros Hin.
  apply list_elem_of_fmap in Hin as (k' & -> & Hk'). simpl in Hk.
  by apply (mergeable_keyless k').
Qed.

Lemma new_row_cell (b : gmap string value) (auto : Z) (k : string) :
  k ∈ names → row_of target_table (supplied names b) auto !! k = Some (b !!! k).
Proof.
  intros Hk. pose proof (mergeable_columns _ Hk) as Hin.
  apply list_elem_of_fmap in Hin as (c & -> & Hc).
  rewrite row_of_lookup by done. unfold cell_of.
  by rewrite supplied_lookup.
Qed.

Lemma new_row_index (b : gmap string value) (auto : Z) :
  index_value u (row_of target_table (supplied names b) auto) = index_value u b.
Proof.
  unfold index_value. apply map_ext_in. intros k Hk%list_elem_of_In.
  unfold lookup_total, map_lookup_total. rewrite new_row_cell by auto. done.
Qed.

Lemma rewritten_lookup (new old : gmap string value) (k : string) :
  foldl (assign new) old (rewrite_all names) !! k
    = if decide (k ∈ names) then Some (new !!! k) else old !! k.
Proof.
  unfold rewrite_all. clear. revert old.
  induction names as [|x ks IH]; intros old.
  - simpl. destruct (decide (k ∈ [])) as [H%elem_of_nil|]; done.
  - simpl. rewrite IH. unfold assign. simpl.
    destruct (decide (k ∈ ks)) as [Hk|Hk].
    + destruct (decide (k ∈ x :: ks)) as [|Hn]; [done|].
      exfalso. apply Hn. by right.
    + destruct (decide (x = k)) as [->|Hne].
      * rewrite lookup_insert_eq.
        destruct (decide (k ∈ k :: ks)) as [|Hn]; [done|].
        exfalso. apply Hn. by left.
      * rewrite lookup_insert_ne by done.
        destruct (decide (k ∈ x :: ks)) as [[->|?]%elem_of_cons|]; done.
Qed.

Lemma rewritten_index (b old : gmap string value) (auto : Z) :
  index_value u
    (foldl (assign (row_of target_table (supplied names b) auto)) old (rewrite_all names))
  = index_value u b.
Proof.
  unfold index_value. apply map_ext_in. intros k Hk%list_elem_of_In.
  unfold lookup_total at 1, map_lookup_total at 1.
  rewrite rewritten_lookup, decide_True by auto. simpl.
  unfold lookup_total, map_lookup_total. by rewrite new_row_cell by auto.
Qed.

Lemma rewritten_primary (new old : gmap string value) (k : string) :
  k ∈ primary_names target_table →
  foldl (assign new) old (rewrite_all names) !! k = old !! k.
Proof.
  intros Hk. rewrite rewritten_lookup, decide_False; [done|]. by apply mergeable_keyless.
Qed.

(** A row of the table duplicates the new row on the declared index exactly
    when it carries the index value of the batch row. *)
Lemma collides_iff (b old : gmap string value) (auto : Z) :
  VNull ∉ index_value u b →
  collides u (row_of target_table (supplied names b) auto) old = true
  ↔ index_value u old = index_value u b.
Proof.
  intros Hnull. unfold collides. rewrite new_row_index.
  rewrite andb_true_iff, !bool_decide_eq_true. split; [by intros [_ ->] | by intros ->].
Qed.

(** In a table in order the key of the new row is new, so the row it
    duplicates, if any, is the first that carries its index value. *)
Lemma find_duplicate_index (t : Table) (b : gmap string value) :
  table_class t = target_table →
  table_ok t →
  VNull ∉ index_value u b →
  find_duplicate (indexes (table_class t))
      (row_of (table_class t) (supplied names b) (auto_increment t)) (rows t)
    = list_find (λ old, index_value u old = index_value u b) (rows t).
Proof.
  intros Hcls Hok Hnull.
  rewrite find_duplicate_keyless;
    [| by rewrite Hcls | done | rewrite Hcls; apply supplied_keyless].
  rewrite Hcls, target_index. simpl.
  etrans; [| apply (list_find_ext (λ old, collides u
                (row_of target_table (supplied names b) (auto_increment t)) old = true));
             intros old; by apply collides_iff].
  by destruct (list_find _ _) as [[]|].
Qed.

Lemma find_key_present (l : list (gmap string value)) (b : gmap string value) :
  index_value u b ∈ map (index_value u) l →
  ∃ i old,
    list_find (λ old, index_value u old = index_value u b) l = Some (i, old) ∧
    l !! i = Some old ∧ index_value u old = index_value u b.
Proof.
  intros Hdup.
  destruct (list_find _ _) as [[i old]|] eqn:E.
  - exists i, old. split; [done|].
    by apply list_find_Some in E as (Hi & Hd & _).
  - exfalso. apply list_find_None in E.
    apply list_elem_of_fmap in Hdup as (old & Hk & Hold).
    rewrite Forall_forall in E. by apply (E old Hold).
Qed.

(** Rewriting the mergeable columns of the row that carried the index value
    changes its value under no index. *)
Lemma rewrite_no_conflict (b old : gmap string value) (auto : Z)
    (l : list (gmap string value)) :
  index_value u old = index_value u b →
  conflicts (indexes target_table)
    (foldl (assign (row_of target_table (supplied names b) auto)) old (rewrite_all names))
    old l = false.
Proof.
  intros Hkey. unfold conflicts.
  set (upd := foldl _ old _).
  assert (Hpk : index_value (primary_names target_table) upd
                = index_value (primary_names target_table) old).
  { unfold index_value. apply map_ext_in. intros k Hk%list_elem_of_In.
    unfold lookup_total, map_lookup_total. subst upd. by rewrite rewritten_primary. }
  assert (Hu : index_value u upd = index_value u old).
  { subst upd. by rewrite rewritten_index. }
  unfold indexes. rewrite target_index.
  destruct (primary_names target_table) as [|k ks]; simpl.
  - by rewrite bool_decide_eq_true_2.
  - by rewrite !bool_decide_eq_true_2.
Qed.

Lemma insert_row_fresh mode (t : Table) (b : gmap string value) :
  table_class t = target_table →
  table_ok t →
  VNull ∉ index_value u b →
  index_value u b ∉ map (index_value u) (rows t) →
  insert_row mode t (supplied names b) = Ok (append_row t (supplied names b)).
Proof.
  intros Hcls Hok Hnull Hfresh. unfold insert_row.
  rewrite find_duplicate_index by done.
  destruct (list_find _ _) as [[i old]|] eqn:E; [|done].
  apply list_find_Some in E as (Hi & Hdup & _).
  exfalso. apply Hfresh. rewrite <- Hdup.
  apply list_elem_of_fmap. exists old. split; [done|].
  by eapply list_elem_of_lookup_2.
Qed.

Lemma insert_row_skip (t : Table) (b : gmap string value) (i : nat)
    (old : gmap string value) :
  table_class t = target_table →
  table_ok t →
  VNull ∉ index_value u b →
  list_find (λ old, index_value u old = index_value u b) (rows t) = Some (i, old) →
  insert_row Skip t (supplied names b) = Ok (skipped t (supplied names b)).
Proof.
  intros Hcls Hok Hnull Hfind. unfold insert_row.
  by rewrite find_duplicate_index, Hfind.
Qed.

Lemma insert_row_overwrite (t : Table) (b : gmap string value) (i : nat)
    (old : gmap string value) :
  table_class t = target_table →
  table_ok t →
  VNull ∉ index_value u b →
  list_find (λ old, index_value u old = index_value u b) (rows t) = Some (i, old) →
  insert_row (Overwrite (rewrite_all names)) t (supplied names b)
    = Ok (rewritten t (supplied names b) i
            (foldl (assign (row_of target_table (supplied names b) (auto_increment t)))
               old (rewrite_all names))).
Proof.
  intros Hcls Hok Hnull Hfind. unfold insert_row.
  rewrite find_duplicate_index, Hfind by done.
  pose proof Hfind as (_ & Hkey & _)%list_find_Some.
  rewrite Hcls, rewrite_no_conflict by done.
  unfold rewritten. by rewrite Hcls.
Qed.

Lemma table_ok_skipped (t : Table) (given : gmap string value) :
  table_ok t → table_ok (skipped t given).
Proof.
  intros Hok. apply table_ok_counter; [done | apply next_auto_ge | by left].
Qed.

Lemma table_ok_rewritten (t : Table) (given : gmap string value) (i : nat)
    (old upd : gmap string value) :
  table_ok t →
  rows t !! i = Some old →
  (∀ k, k ∈ primary_names (table_class t) → upd !!! k = old !!! k) →
  table_ok (rewritten t given i upd).
Proof.
  intros Hok Hi Hpk. apply table_ok_counter; [done | apply next_auto_ge |].
  intros r Hr. apply list_elem_of_lookup_1 in Hr as [j Hj].
  destruct (decide (j = i)) as [->|Hne].
  - rewrite list_lookup_insert_eq in Hj by (by eapply lookup_lt_Some).
    injection Hj as <-. right. intros k z Hk Hz. rewrite Hpk in Hz by done.
    assert (Hold : old ∈ rows t) by (by eapply list_elem_of_lookup_2).
    pose proof (Hok old k z Hold Hk Hz).
    pose proof (next_auto_ge (table_class t)
                  (row_of (table_class t) given (auto_increment t)) (auto_increment t)).
    lia.
  - rewrite list_lookup_insert_ne in Hj by done. left.
    by eapply list_elem_of_lookup_2.
Qed.

Lemma table_ok_overwritten (t : Table) (b : gmap string value) (i : nat)
    (old : gmap string value) :
  table_class t = target_table →
  table_ok t →
  rows t !! i = Some old →
  table_ok (rewritten t (supplied names b) i
              (foldl (assign (row_of target_table (supplied names b) (auto_increment t)))
                 old (rewrite_all names))).
Proof.
  intros Hcls Hok Hi. apply (table_ok_rewritten _ _ _ old); [done | done |].
  intros k Hk. rewrite Hcls in Hk.
  unfold lookup_total, map_lookup_total. by rewrite rewritten_primary.
Qed.

(** *** A batch under the overwrite policy *)




End merge_row.

(** *** A batch under the ignore policy *)

Lemma filter_ext_elem {A : Type} (P Q : A → Prop) `{∀ x, Decision (P x)} `{∀ x, Decision (Q x)}
    (l : list A) :
  (∀ x, x ∈ l → P x ↔ Q x) → filter P l = filter Q l.
Proof.
  induction l as [|x l IH]; intros Hext; [done|].
  rewrite !filter_cons.
  assert (Hx : P x ↔ Q x) by (apply Hext; by left).
  rewrite IH by (intros y Hy; apply Hext; by right).
  destruct (decide (P x)), (decide (Q x)); tauto.
Qed.

Section merge_ignore.
Context (target_table : DeclarativeMeta) (names : list string).
Hypothesis target_names : NoDup (map name (columns target_table)).
Hypothesis index_columns : ∀ u, u ∈ uniques target_table → u ⊆ names.
Hypothesis mergeable_columns : names ⊆ map name (columns target_table).
Hypothesis mergeable_keyless : ∀ k, k ∈ primary_names target_table → k ∉ names.

(** No row duplicates the new row exactly when the batch row carries, under
    every index, a value that no row carries. *)
Lemma find_duplicate_none (vs : list (list string)) (b : gmap string value) (auto : Z)
    (t : Table) :
  (∀ u, u ∈ vs → u ⊆ names) →
  (∀ u, u ∈ vs → VNull ∉ index_value u b) →
  find_duplicate vs (row_of target_table (supplied names b) auto) (rows t) = None
  ↔ absent vs t b.
Proof.
  unfold absent. induction vs as [|u vs IH]; intros Hsub Hnull.
  - simpl. split; [constructor | done].
  - assert (Hu : u ⊆ names) by (apply Hsub; by left).
    assert (Hn : VNull ∉ index_value u b) by (apply Hnull; by left).
    assert (IH' := IH (λ v Hv, Hsub v (list_elem_of_further _ _ _ Hv))
                      (λ v Hv, Hnull v (list_elem_of_further _ _ _ Hv))).
    simpl. rewrite Forall_cons.
    destruct (list_find _ _) as [[i old]|] eqn:E.
    + split; [done|]. intros [Hout _]. exfalso. apply Hout.
      apply list_find_Some in E as (Hi & Hc & _).
      apply (collides_iff target_table u names target_names Hu mergeable_columns) in Hc;
        [|done].
      rewrite <- Hc. apply list_elem_of_fmap. exists old. split; [done|].
      by eapply list_elem_of_lookup_2.
    + rewrite IH'. split; [|tauto]. intros Hrest. split; [|done].
      intros Hin. apply list_elem_of_fmap in Hin as (old & Hk & Hold).
      apply list_find_None in E. rewrite Forall_forall in E. apply (E old Hold).
      apply (collides_iff target_table u names target_names Hu mergeable_columns); done.
Qed.

Lemma insert_row_ignore (t : Table) (b : gmap string value) :
  table_class t = target_table →
  table_ok t →
  (∀ u, u ∈ uniques target_table → VNull ∉ index_value u b) →
  insert_row Skip t (supplied names b)
    = Ok (if decide (absent (uniques target_table) t b)
          then append_row t (supplied names b) else skipped t (supplied names b)).
Proof.
  intros Hcls Hok Hnull. unfold insert_row.
  rewrite find_duplicate_keyless;
    [| by rewrite Hcls | done
     | rewrite Hcls; by apply (supplied_keyless target_table names)].
  rewrite Hcls at 1 2.
  pose proof (find_duplicate_none (uniques target_table) b (auto_increment t) t
                index_columns Hnull) as Hiff.
  destruct (find_duplicate _ _ _) as [[i old]|].
  - rewrite decide_False; [done|]. intros Habs. by apply Hiff in Habs.
  - rewrite decide_True; [done|]. by apply Hiff.
Qed.

Lemma absent_app (us : list (list string)) (t t' : Table) (extra : list (gmap string value))
    (b : gmap string value) :
  rows t' = rows t ++ extra →
  absent us t' b ↔
  absent us t b ∧ Forall (λ u, index_value u b ∉ map (index_value u) extra) us.
Proof.
  intros Hrows. unfold absent. rewrite Hrows, <- Forall_and.
  apply Forall_iff. intros v. rewrite map_app, elem_of_app. tauto.
Qed.

(** The rows a batch adds under the ignore policy: one for each batch row
    that carries, under every index, a value the table did not hold, with
    the mergeable cells of that batch row; the old rows stay. *)
Lemma skip_batch (bs : list (gmap string value)) :
  ∀ t, table_class t = target_table →
       table_ok t →
       (∀ u, u ∈ uniques target_table → distinct_keys u bs) →
       ∃ t' added,
         insert_rows Skip t (map (supplied names) bs) = Ok t' ∧
         table_class t' = target_table ∧
         table_ok t' ∧
         rows t' = rows t ++ added ∧
         Forall2 (λ r b, ∀ c, c ∈ names → r !!! c = b !!! c) added
           (filter (absent (uniques target_table) t) bs).
Proof.
  induction bs as [|b bs IH]; intros t Hcls Hok Hkeys.
  - exists t, []. simpl. by rewrite app_nil_r.
  - assert (Hbnull : ∀ u, u ∈ uniques target_table → VNull ∉ index_value u b).
    { intros v Hv. apply (Hkeys v Hv). by left. }
    assert (Hrest : ∀ u, u ∈ uniques target_table → distinct_keys u bs).
    { intros v Hv. destruct (Hkeys v Hv) as [Hnd Hnull]. simpl in Hnd.
      apply NoDup_cons in Hnd as [_ Hnd]. split; [done|].
      intros b' Hb'. apply Hnull. by right. }
    assert (Hb : ∀ u b', u ∈ uniques target_table → b' ∈ bs →
                         index_value u b' ≠ index_value u b).
    { intros v b' Hv Hb' Heq. destruct (Hkeys v Hv) as [Hnd _]. simpl in Hnd.
      apply NoDup_cons in Hnd as [Hnotin _]. apply Hnotin. rewrite <- Heq.
      apply list_elem_of_fmap. by exists b'. }
    cbn [map insert_rows]. rewrite insert_row_ignore by done. rewrite filter_cons.
    destruct (decide (absent (uniques target_table) t b)) as [Habs|Hpres].
    + unfold_monad.
      destruct (IH (append_row t (supplied names b))) as (t' & added & Hrun & Hcls' & Hok' & Hrows & Hcells).
      { done. }
      { apply table_ok_append; [by rewrite Hcls | done |].
        rewrite Hcls. by apply (supplied_keyless target_table names). }
      { done. }
      exists t', (row_of target_table (supplied names b) (auto_increment t) :: added).
      split_and!; [done | done | done | |].
      * rewrite Hrows. simpl. rewrite Hcls. by rewrite <- app_assoc.
      * constructor.
        -- intros c Hc. unfold lookup_total at 1, map_lookup_total at 1.
           by rewrite (new_row_cell target_table names target_names mergeable_columns).
        -- erewrite filter_ext_elem; [exact Hcells|].
           intros b' Hb'. simpl.
           rewrite (absent_app _ t (append_row t (supplied names b))
                      [row_of target_table (supplied names b) (auto_increment t)]);
             [|simpl; by rewrite Hcls].
           split; [|tauto]. intros Ht. split; [done|].
           apply Forall_forall. intros v Hv. simpl.
           rewrite (new_row_index target_table v names target_names
                      (index_columns v Hv) mergeable_columns).
           rewrite list_elem_of_singleton. by apply Hb.
    + unfold_monad.
      destruct (IH (skipped t (supplied names b))) as (t' & added & Hrun & Hcls' & Hok' & Hrows & Hcells).
      { done. }
      { by apply table_ok_skipped. }
      { done. }
      exists t', added. split_and!; [done | done | done | done |].
      erewrite filter_ext_elem; [exact Hcells|]. intros b' Hb'. done.
Qed.

(** A batch whose rows all duplicate a row of the table leaves its rows as
    they are. *)
Lemma skip_present (bs : list (gmap string value)) :
  ∀ t, table_class t = target_table →
       table_ok t →
       (∀ u b, u ∈ uniques target_table → b ∈ bs → VNull ∉ index_value u b) →
       (∀ b, b ∈ bs → ¬ absent (uniques target_table) t b) →
       ∃ t', insert_rows Skip t (map (supplied names) bs) = Ok t' ∧
             table_class t' = target_table ∧ table_ok t' ∧ rows t' = rows t.
Proof.
  induction bs as [|b bs IH]; intros t Hcls Hok Hnull Hpres.
  - by exists t.
  - cbn [map insert_rows]. rewrite insert_row_ignore; [|done|done|].
    2:{ intros v Hv. apply (Hnull v b Hv). by left. }
    rewrite decide_False by (apply Hpres; by left). unfold_monad.
    destruct (IH (skipped t (supplied names b))) as (t' & Hrun & Hcls' & Hok' & Hrows).
    + done.
    + by apply table_ok_skipped.
    + intros v b' Hv Hb'. apply (Hnull v b' Hv). by right.
    + intros b' Hb'. apply Hpres. by right.
    + by exists t'.
Qed.

(** After a batch went in, none of its rows is absent any more, provided
    the target has an index at all. *)
Lemma skip_batch_present (bs added : list (gmap string value)) (t t' : Table) :
  uniques target_table ≠ [] →
  rows t' = rows t ++ added →
  Forall2 (λ r b, ∀ c, c ∈ names → r !!! c = b !!! c) added
    (filter (absent (uniques target_table) t) bs) →
  ∀ b, b ∈ bs → ¬ absent (uniques target_table) t' b.
Proof.
  intros Hsome Hrows Hcells b Hb Habs.
  apply (absent_app _ t t' added b Hrows) in Habs as [Ht Hadded].
  assert (Hin : b ∈ filter (absent (uniques target_table) t) bs)
    by (by apply list_elem_of_filter).
  apply list_elem_of_lookup_1 in Hin as [i Hi].
  destruct (Forall2_lookup_r _ _ _ _ _ Hcells Hi) as (r & Hr & Hrb).
  assert (Hex : ∃ v, v ∈ uniques target_table).
  { revert Hsome. destruct (uniques target_table) as [|v vs]; [done|].
    intros _. exists v. by left. }
  destruct Hex as [v Hv]. rewrite Forall_forall in Hadded. apply (Hadded v Hv).
  apply list_elem_of_fmap. exists r. split; [|by eapply list_elem_of_lookup_2].
  unfold index_value. apply map_ext_in. intros c Hc%list_elem_of_In.
  symmetry. apply Hrb. by apply (index_columns v).
Qed.

End merge_ignore.

(** *** From the statement to the rows *)

Lemma for_each_id {A : Type} (f : A → result A) (l : list A) :
  (∀ x, x ∈ l → f x = Ok x) → for_each f l = Ok l.
Proof.
  induction l as [|x l IH]; intros Hf; [done|].
  simpl. unfold_monad. rewrite Hf by (by left). rewrite IH; [done|].
  intros y Hy. apply Hf. by right.
Qed.

Lemma for_each_map {A B : Type} (f : A → result B) (g : A → B) (l : list A) :
  (∀ x, x ∈ l → f x = Ok (g x)) → for_each f l = Ok (map g l).
Proof.
  induction l as [|x l IH]; intros Hf; [done|].
  simpl. unfold_monad. rewrite Hf by (by left). rewrite IH; [done|].
  intros y Hy. apply Hf. by right.
Qed.

Lemma resolve_plain (cls : DeclarativeMeta) (k : string) :
  plain cls → k ∈ map name (columns cls) → resolve cls k = Ok k.
Proof.
  intros Hplain Hk. unfold resolve.
  destruct (List.find _ _) as [c|] eqn:Hfind.
  - apply find_some in Hfind as [Hc Hkey]. apply bool_decide_eq_true in Hkey.
    rewrite <- Hkey. f_equal. symmetry. apply Hplain. by apply list_elem_of_In.
  - exfalso. apply list_elem_of_fmap in Hk as (c & -> & Hc).
    eapply find_none in Hfind; [|by apply list_elem_of_In].
    simpl in Hfind. rewrite bool_decide_eq_true_2 in Hfind; [done|]. by apply Hplain.
Qed.

Lemma selected_plain (cols : list Column) (n : string) (r : gmap string value) :
  (∀ c, c ∈ cols → key c = name c) →
  selected (map key cols) (mkQuery cols n) r = supplied (map key cols) r.
Proof.
  intros Hplain. unfold selected, supplied. simpl. f_equal.
  induction cols as [|c cols IH]; [done|].
  simpl. rewrite (Hplain c) by (by left). f_equal.
  apply IH. intros c' Hc'. apply Hplain. by right.
Qed.

Lemma plain_names (cls : DeclarativeMeta) :
  plain cls → map key (columns cls) = map name (columns cls).
Proof.
  intros Hplain. apply map_ext_in. intros c Hc%list_elem_of_In. by apply Hplain.
Qed.

Lemma mergeable_names (cls : DeclarativeMeta) :
  plain cls →
  mergeable cls = map name (filter (λ c, primary_key c = false) (columns cls)).
Proof.
  intros Hplain. unfold mergeable. apply map_ext_in.
  intros c Hc%list_elem_of_In. apply Hplain.
  by apply list_elem_of_filter in Hc as [_ ?].
Qed.

Section merge_statement.
Context (target_table temp_table : DeclarativeMeta).
Hypothesis temp_ok : schema_ok temp_table.
Hypothesis temp_plain : plain temp_table.
Hypothesis target_plain : plain target_table.
Hypothesis mergeable_columns : mergeable temp_table ⊆ map name (columns target_table).
Hypothesis mergeable_some : mergeable temp_table ≠ [].

Local Abbreviation names := (mergeable temp_table).
Local Abbreviation cols := (filter (λ c, primary_key c = false) (columns temp_table)).

Lemma mergeable_in_target (k : string) :
  k ∈ names → k ∈ map key (columns target_table).
Proof.
  intros Hk. apply mergeable_columns in Hk.
  apply list_elem_of_fmap in Hk as (c & -> & Hc).
  rewrite <- (target_plain c Hc). apply list_elem_of_fmap. by exists c.
Qed.

(** The statement built for either policy and the duplicate handling it
    asks of the server. *)
Lemma _my_insert_stmt_ok (session : Session) (if_record_exists : string) :
  if_record_exists ∈ ["update"; "ignore"] →
  ∃ stmt,
    _my_insert_stmt target_table temp_table session if_record_exists = Ok stmt ∧
    table stmt = target_table ∧
    select_names stmt = names ∧
    select stmt = Some (query session temp_table cols) ∧
    on_duplicate stmt = Ok (policy_mode names if_record_exists).
Proof.
  intros Hp. unfold _my_insert_stmt.
  rewrite (_my_insert_columns_ok _ temp_ok).
  cbn [mbind result_bind fst snd].
  unfold policy_mode. case_bool_decide as Hupd.
  - set (stmt0 := from_select (map key cols) (query session temp_table cols)
                    (insert target_table)).
    destruct (for_each_inserted_ok stmt0 (map key cols)) as (ud & Hud & Hfst & Hin).
    { intros k Hk. simpl. by apply mergeable_in_target. }
    unfold_monad. subst stmt0. rewrite Hud. cbn [mbind result_bind].
    unfold on_duplicate_key_update. rewrite bool_decide_eq_false_2.
    2:{ intros ->. by apply mergeable_some. }
    eexists. split_and!; try reflexivity.
    unfold on_duplicate. simpl.
    rewrite (for_each_map _ (λ kv : string * Column, (kv.1, kv.1))).
    + unfold fmap, result_fmap, rewrite_all, mergeable. by rewrite <- Hfst, map_map.
    + intros kv Hkv. destruct (Hin kv Hkv) as [Hc Hkey]. simpl in Hc.
      pose proof (target_plain _ Hc) as Hplain.
      assert (Hres : resolve target_table kv.1 = Ok kv.1).
      { apply resolve_plain; [done|].
        rewrite <- Hkey, Hplain. apply list_elem_of_fmap. by exists kv.2. }
      unfold_monad. rewrite Hres. by rewrite <- Hplain, Hkey.
  - rewrite bool_decide_eq_true_2.
    + eexists. split_and!; reflexivity.
    + apply elem_of_cons in Hp as [?|Hp]; [done|].
      by apply list_elem_of_singleton in Hp.
Qed.

(** The statement compiles to its column names, its select and the
    duplicate handling of the policy. *)
Lemma _my_insert_stmt_compiles (session : Session) (if_record_exists : string) :
  if_record_exists ∈ ["update"; "ignore"] →
  ∃ stmt,
    _my_insert_stmt target_table temp_table session if_record_exists = Ok stmt ∧
    select stmt = Some (query session temp_table cols) ∧
    select_names stmt = names ∧
    compile stmt = Ok {| into := target_table; into_names := names;
                         from_query := query session temp_table cols;
                         on_dup := policy_mode names if_record_exists |}.
Proof.
  intros Hp.
  destruct (_my_insert_stmt_ok session if_record_exists Hp)
    as (stmt & Hstmt & Htable & Hnames & Hselect & Hmode).
  exists stmt. split_and!; [done..|].
  unfold compile. rewrite Hselect, Hnames, Htable, Hmode.
  rewrite (for_each_id (resolve target_table) names).
  2:{ intros k Hk. apply resolve_plain; [done|]. by apply mergeable_columns. }
  cbn [mbind result_bind].
  rewrite bool_decide_eq_false_2; [done|].
  simpl. intros Hnil. apply mergeable_some. unfold mergeable. by rewrite Hnil.
Qed.

(** Executing that statement in a world that holds the scratch table [S]
    and the target table [T]. *)
Lemma _my_insert_runs (session : Session) (if_record_exists : string) (w : World)
    (S T T' : Table) :
  if_record_exists ∈ ["update"; "ignore"] →
  faults w (clock w) = None →
  scratch w !! __tablename__ temp_table = Some S →
  table_class S = temp_table →
  scratch w !! __tablename__ target_table = None →
  pending w !! __tablename__ target_table = Some T →
  table_class T = target_table →
  insert_rows (policy_mode names if_record_exists) T (map (supplied names) (scan S)) = Ok T' →
  ∃ stmt,
    _my_insert_stmt target_table temp_table session if_record_exists = Ok stmt ∧
    select stmt = Some (query session temp_table cols) ∧
    select_names stmt = names ∧
    _my_insert target_table temp_table session if_record_exists w =
      (Ok tt,
       {| durable := durable w;
          pending := <[__tablename__ target_table := T']> (pending w);
          scratch := scratch w;
          trace := trace w ++ [EvExecute stmt];
          clock := Datatypes.S (clock w); faults := faults w |}).
Proof.
  intros Hp Hf HS HclsS Hshadow HT HclsT Hrows.
  destruct (_my_insert_stmt_compiles session if_record_exists Hp)
    as (stmt & Hstmt & Hselect & Hnames & Hc).
  exists stmt. split_and!; [done..|].
  unfold _my_insert. rewrite Hstmt. unfold execute. rewrite Hc.
  unfold server_call. rewrite Hf.
  unfold run_insert. cbn [into into_names from_query on_dup].
  rewrite bool_decide_eq_false_2.
  2:{ intros Hne. apply Hne. unfold mergeable. simpl. by rewrite length_map. }
  unfold lookup_table. simpl. rewrite HS, Hshadow, HT. simpl.
  rewrite HclsS, HclsT.
  rewrite !bool_decide_eq_true_2.
  - simpl.
    assert (Hsel : map (selected names (query session temp_table cols)) (scan S)
                   = map (supplied names) (scan S)).
    { apply map_ext. intros r. unfold mergeable, query.
      apply selected_plain. intros c Hc'. apply temp_plain.
      by apply list_elem_of_filter in Hc' as [_ ?]. }
    rewrite Hsel, Hrows. done.
  - done.
  - intros k (c & -> & Hc')%list_elem_of_fmap. apply list_elem_of_fmap. exists c.
    split; [done|]. by apply list_elem_of_filter in Hc' as [_ ?].
Qed.

End merge_statement.

(** *** The whole operation on a server that does not fail *)

Lemma to_mysql_merges (self : Operation) (df : DataFrame)
    (target_table temp_table : DeclarativeMeta)
    (if_record_exists : string) (w : World) (T T' : Table) :
  schema_ok temp_table →
  plain temp_table →
  plain target_table →
  mergeable temp_table ⊆ map name (columns target_table) →
  mergeable temp_table ≠ [] →
  __tablename__ temp_table ≠ __tablename__ target_table →
  if_record_exists ∈ ["update"; "ignore"] →
  uniques temp_table = [] →
  valid_batch temp_table df →
  no_faults w →
  durable w !! __tablename__ target_table = Some T →
  table_class T = target_table →
  insert_rows (policy_mode (mergeable temp_table) if_record_exists) T
    (map (supplied (mergeable temp_table)) (rows (staged temp_table df))) = Ok T' →
  ∃ stmt w',
    _my_insert_stmt target_table temp_table ScopedSession if_record_exists = Ok stmt ∧
    select stmt = Some (query ScopedSession temp_table
                          (filter (λ c, primary_key c = false) (columns temp_table))) ∧
    select_names stmt = mergeable temp_table ∧
    to_mysql self df target_table temp_table if_record_exists w = (Ok tt, w') ∧
    EvExecute stmt ∈ trace w' ∧
    durable w' = <[__tablename__ target_table := T']> (durable w) ∧
    faults w' = faults w.
Proof.
  intros Hok Hplain Htplain Hsub Hsome Hne Hp Hu Hcols Hnf HT HclsT Hrows.
  assert (Hnames : NoDup (map name (columns temp_table))).
  { rewrite <- plain_names by done. apply Hok. }
  destruct (load_ok self df target_table temp_table if_record_exists ScopedSession w
              Hnf Hnames Hu Hcols) as (wl & _ & Hs & Hpend & Hd & Hfl & _ & Hblock).
  destruct (_my_insert_runs target_table temp_table Hok Hplain Htplain Hsub Hsome
              ScopedSession if_record_exists
              wl (staged temp_table df) T T') as (stmt & Hstmt & Hsel & Hsn & Hrun);
    try done.
  - rewrite Hfl. apply Hnf.
  - rewrite Hs. apply lookup_insert_eq.
  - unfold staged. by rewrite append_rows_class.
  - rewrite Hs, lookup_insert_ne by done. apply lookup_empty.
  - by rewrite Hpend.
  - by rewrite scan_staged.
  - rewrite Hrun in Hblock.
    exists stmt. eexists. split_and!; [done | done | done | | | |].
    + unfold to_mysql. rewrite bool_decide_eq_false_2 by auto.
      apply (session_scope_ok self true _ w _ Hblock).
      simpl. rewrite Hfl. apply Hnf.
    + simpl. rewrite !elem_of_app. left. right. by left.
    + simpl. by rewrite Hpend.
    + done.
Qed.

(** *** The rows of an overwrite merge *)


Lemma scratch_schema_ok (target_table temp_table : DeclarativeMeta) :
  scratch_of target_table temp_table → schema_ok temp_table.
Proof.
  intros Hs. split; [apply Hs|]. intros c Hc _. by apply (scratch_plain _ _ Hs).
Qed.

(** C3, as the code and the engine have it.  Take a target class and its
    scratch class as the data model has them ([scratch_of]), every unique
    index of the target over mergeable columns, a batch over the non-key
    columns of the scratch class whose staged rows carry, under every unique
    index of the target, pairwise distinct values without NULL, a server that
    does not fail, and the target table stored under its name with its
    counter above its ids.  Then under the ignore policy the operation
    succeeds; the target has as many rows as before plus the number of batch
    rows that carry under every unique index a value the target did not hold;
    and, when the target has a unique index, running the same operation again
    succeeds and leaves the rows of the target, in their order, as the first
    run left them. *)
Theorem ignore_adds_the_new_rows_and_is_idempotent
    (self : Operation) (df : DataFrame) (target_table temp_table : DeclarativeMeta)
    (w : World) (T : Table) :
  scratch_of target_table temp_table →
  (∀ u, u ∈ uniques target_table → u ⊆ mergeable temp_table) →
  valid_batch temp_table df →
  (∀ u, u ∈ uniques target_table → distinct_keys u (rows (staged temp_table df))) →
  no_faults w →
  durable w !! __tablename__ target_table = Some T →
  table_class T = target_table →
  table_ok T →
  ∃ w' T',
    to_mysql self df target_table temp_table "ignore" w = (Ok tt, w') ∧
    durable w' = <[__tablename__ target_table := T']> (durable w) ∧
    length (rows T') =
      length (rows T) +
      length (filter (absent (uniques target_table) T) (rows (staged temp_table df))) ∧
    (uniques target_table ≠ [] →
     ∃ w'' T'',
       to_mysql self df target_table temp_table "ignore" w' = (Ok tt, w'') ∧
       durable w'' = <[__tablename__ target_table := T'']> (durable w') ∧
       table_class T'' = table_class T' ∧
       rows T'' = rows T').
Proof.
  intros Hs Hidx Hcols Hkeys Hnf HT HclsT HokT.
  assert (Hp : "ignore" ∈ ["update"; "ignore"]) by (right; by left).
  pose proof (scratch_schema_ok _ _ Hs) as Hok.
  destruct (skip_batch target_table (mergeable temp_table)
              (scratch_target_names _ _ Hs) Hidx (scratch_columns _ _ Hs)
              (scratch_keyless _ _ Hs)
              (rows (staged temp_table df)) T HclsT HokT Hkeys)
    as (T' & added & Hrows & HclsT' & HokT' & Happ & Hcells).
  destruct (to_mysql_merges self df target_table temp_table "ignore" w T T'
              Hok (scratch_plain _ _ Hs) (scratch_target_plain _ _ Hs)
              (scratch_columns _ _ Hs) (scratch_some _ _ Hs) (scratch_tablenames _ _ Hs)
              Hp (scratch_unindexed _ _ Hs) Hcols Hnf HT HclsT Hrows)
    as (stmt & w' & _ & _ & _ & Hrun & _ & Hd & Hfl).
  exists w', T'. split_and!; [done | done | |].
  - rewrite Happ, length_app. f_equal. by eapply Forall2_length.
  - intros Hsome.
    destruct (skip_present target_table (mergeable temp_table)
                (scratch_target_names _ _ Hs) Hidx (scratch_columns _ _ Hs)
                (scratch_keyless _ _ Hs)
                (rows (staged temp_table df)) T' HclsT' HokT')
      as (T'' & Hrows' & HclsT'' & _ & Hsame).
    { intros u b Hu Hb. by apply (Hkeys u Hu). }
    { by apply (skip_batch_present target_table (mergeable temp_table) Hidx _ added T T'). }
    destruct (to_mysql_merges self df target_table temp_table "ignore" w' T' T''
                Hok (scratch_plain _ _ Hs) (scratch_target_plain _ _ Hs)
                (scratch_columns _ _ Hs) (scratch_some _ _ Hs) (scratch_tablenames _ _ Hs)
                Hp (scratch_unindexed _ _ Hs) Hcols)
      as (stmt' & w'' & _ & _ & _ & Hrun' & _ & Hd' & _); try done.
    { intros i. rewrite Hfl. apply Hnf. }
    { rewrite Hd. apply lookup_insert_eq. }
    exists w'', T''. split_and!; [done | done | congruence | done].
Qed.


(** *** The running example *)

(** The scenario of the specification: [users] holds (1, a@x.com, Alice) and
    the batch brings (a@x.com, Alicia) and (b@x.com, Bob).  The duplicate has
    used up a value of the counter, so Bob is numbered 3. *)
Lemma scenario_overwrite :
  users_rows (to_mysql op batch users users_temp "update" world0).2
    = Some [[("email", VStr "a@x.com"); ("id", VInt 1); ("name", VStr "Alicia")];
            [("email", VStr "b@x.com"); ("id", VInt 3); ("name", VStr "Bob")]].
Proof. by vm_compute. Qed.

Lemma scenario_ignore :
  users_rows (to_mysql op batch users users_temp "ignore" world0).2
    = Some [[("email", VStr "a@x.com"); ("id", VInt 1); ("name", VStr "Alice")];
            [("email", VStr "b@x.com"); ("id", VInt 3); ("name", VStr "Bob")]].
Proof. by vm_compute. Qed.

Lemma plain_users : plain users.
Proof.
  intros c Hc. simpl in Hc.
  repeat (apply elem_of_cons in Hc as [->|Hc]; [done|]). by apply elem_of_nil in Hc.
Qed.

Lemma plain_users_temp : plain users_temp.
Proof.
  intros c Hc. simpl in Hc.
  repeat (apply elem_of_cons in Hc as [->|Hc]; [done|]). by apply elem_of_nil in Hc.
Qed.

Lemma users_scratch : scratch_of users users_temp.
Proof.
  split.
  - apply (bool_decide_unpack _). by vm_compute.
  - exact plain_users_temp.
  - reflexivity.
  - exact plain_users.
  - apply (bool_decide_unpack _). by vm_compute.
  - apply (bool_decide_unpack _). by vm_compute.
  - discriminate.
  - apply Forall_forall. apply (bool_decide_unpack _). by vm_compute.
  - discriminate.
Qed.

Lemma users_setting : merge_setting users users_temp ["email"].
Proof.
  split.
  - exact schema_ok_users_temp.
  - exact plain_users_temp.
  - exact plain_users.
  - apply (bool_decide_unpack _). by vm_compute.
  - reflexivity.
  - discriminate.
  - apply (bool_decide_unpack _). by vm_compute.
  - apply (bool_decide_unpack _). by vm_compute.
  - discriminate.
Qed.

Lemma users_index_columns : ∀ u, u ∈ uniques users → u ⊆ mergeable users_temp.
Proof. apply Forall_forall. apply (bool_decide_unpack _). by vm_compute. Qed.

Lemma batch_distinct_keys : distinct_keys ["email"] (rows (staged users_temp batch)).
Proof.
  split.
  - apply (bool_decide_unpack _). by vm_compute.
  - apply Forall_forall. apply (bool_decide_unpack _). by vm_compute.
Qed.

Lemma batch_distinct :
  ∀ u, u ∈ uniques users → distinct_keys u (rows (staged users_temp batch)).
Proof.
  intros u Hu. simpl in Hu. apply list_elem_of_singleton in Hu as ->.
  exact batch_distinct_keys.
Qed.

Lemma batch_valid : valid_batch users_temp batch.
Proof. unfold valid_batch. apply (bool_decide_unpack _). by vm_compute. Qed.

Lemma world0_users : durable world0 !! __tablename__ users = Some users_table.
Proof. reflexivity. Qed.

Lemma users_table_ok : table_ok users_table.
Proof.
  intros r k z Hr Hk Hz. simpl in Hr. apply list_elem_of_singleton in Hr as ->.
  change (primary_names (table_class users_table)) with ["id"] in Hk.
  apply list_elem_of_singleton in Hk as ->.
  vm_compute in Hz. injection Hz as <-. done.
Qed.

Lemma ignore_adds_the_new_rows_and_is_idempotent_witness :
  ∃ w' T',
    to_mysql op batch users users_temp "ignore" world0 = (Ok tt, w') ∧
    durable w' = <["users" := T']> (durable world0) ∧
    length (rows T') = 1 + 1 ∧
    ∃ w'' T'',
      to_mysql op batch users users_temp "ignore" w' = (Ok tt, w'') ∧
      durable w'' = <["users" := T'']> (durable w') ∧
      table_class T'' = table_class T' ∧
      rows T'' = rows T'.
Proof.
  destruct (ignore_adds_the_new_rows_and_is_idempotent op batch users users_temp
              world0 users_table users_scratch users_index_columns batch_valid
              batch_distinct (λ _, eq_refl) world0_users eq_refl users_table_ok)
    as (w' & T' & H1 & H2 & H3 & H4).
  exists w', T'. split_and!; [exact H1 | exact H2 | exact H3 |].
  apply H4. discriminate.
Defined.



(** C3, as stated, fails.  Two batch rows with the same new e-mail address
    add one row, not two.  Without a unique index on the target, or with a
    NULL under it, a second run of the same operation adds the rows again.
    A scratch class with a unique index of its own refuses a batch that
    repeats a value under it, and one whose primary key is declared with a
    [key=] override makes [_my_insert] raise [ValueError]; either way no row
    is added.  And where the second run leaves the rows alone it still moves
    the counter of the target, one value for every row it has read. *)
Lemma ignore_miscounts_equal_keys_and_repeats_without_index :
  (∃ w' T',
     to_mysql op twin_batch users users_temp "ignore" world0 = (Ok tt, w') ∧
     durable w' !! "users" = Some T' ∧
     length (rows T') ≠
       length (rows users_table) +
       length (filter (absent (uniques users) users_table)
                 (rows (staged users_temp twin_batch)))) ∧
  (∃ w' w'',
     to_mysql op batch users_noindex users_temp "ignore" world_noindex = (Ok tt, w') ∧
     to_mysql op batch users_noindex users_temp "ignore" w' = (Ok tt, w'') ∧
     (length <$> users_rows w') = Some 3 ∧ (length <$> users_rows w'') = Some 5) ∧
  (∃ w' w'',
     to_mysql op anonymous_batch users users_temp "ignore" world0 = (Ok tt, w') ∧
     to_mysql op anonymous_batch users users_temp "ignore" w' = (Ok tt, w'') ∧
     (length <$> users_rows w') = Some 2 ∧ (length <$> users_rows w'') = Some 3) ∧
  (∃ w',
     valid_batch indexed_temp namesake_batch ∧
     distinct_keys ["email"] (rows (staged indexed_temp namesake_batch)) ∧
     to_mysql op namesake_batch users indexed_temp "ignore" world0
       = (Raise (IntegrityError "Duplicate entry"), w') ∧
     length (filter (absent (uniques users) users_table)
               (rows (staged indexed_temp namesake_batch))) = 2 ∧
     durable w' = durable world0) ∧
  (∃ w',
     valid_batch override_temp batch ∧
     to_mysql op batch users override_temp "ignore" world0
       = (Raise (ValueError "list.remove(x): x not in list"), w') ∧
     length (filter (absent (uniques users) users_table)
               (rows (staged override_temp batch))) = 1 ∧
     durable w' = durable world0) ∧
  (∃ w' w'' T' T'',
     to_mysql op batch users users_temp "ignore" world0 = (Ok tt, w') ∧
     to_mysql op batch users users_temp "ignore" w' = (Ok tt, w'') ∧
     durable w' !! "users" = Some T' ∧ durable w'' !! "users" = Some T'' ∧
     rows T'' = rows T' ∧
     auto_increment T' = 4%Z ∧ auto_increment T'' = 6%Z ∧
     durable w'' ≠ durable w').
Proof.
  split_and!.
  - exists (to_mysql op twin_batch users users_temp "ignore" world0).2.
    exists {| table_class := users;
              rows := [alice;
                       list_to_map [("id", VInt 2); ("email", VStr "c@x.com");
                                    ("name", VStr "Carol")]];
              auto_increment := 4 |}.
    split_and!; [by vm_compute..|]. by vm_compute.
  - pose (w' := (to_mysql op batch users_noindex users_temp "ignore" world_noindex).2).
    exists w', (to_mysql op batch users_noindex users_temp "ignore" w').2.
    split_and!; by vm_compute.
  - pose (w' := (to_mysql op anonymous_batch users users_temp "ignore" world0).2).
    exists w', (to_mysql op anonymous_batch users users_temp "ignore" w').2.
    split_and!; by vm_compute.
  - exists (to_mysql op namesake_batch users indexed_temp "ignore" world0).2.
    split_and!.
    + unfold valid_batch. apply (bool_decide_unpack _). by vm_compute.
    + split; [|apply Forall_forall]; apply (bool_decide_unpack _); by vm_compute.
    + by vm_compute.
    + by vm_compute.
    + by vm_compute.
  - exists (to_mysql op batch users override_temp "ignore" world0).2.
    split_and!; [unfold valid_batch; apply (bool_decide_unpack _) | ..]; by vm_compute.
  - pose (w' := (to_mysql op batch users users_temp "ignore" world0).2).
    pose (w'' := (to_mysql op batch users users_temp "ignore" w').2).
    exists w', w''.
    exists {| table_class := users;
              rows := [alice;
                       list_to_map [("id", VInt 3); ("email", VStr "b@x.com");
                                    ("name", VStr "Bob")]];
              auto_increment := 4 |}.
    exists {| table_class := users;
              rows := [alice;
                       list_to_map [("id", VInt 3); ("email", VStr "b@x.com");
                                    ("name", VStr "Bob")]];
              auto_increment := 6 |}.
    split_and!; [by vm_compute..|].
    intros Heq. apply (f_equal (λ d, auto_increment <$> d !! "users")) in Heq.
    by vm_compute in Heq.
Qed.
(** ** Further properties of [Operation] *)

(** *** What a run may write *)

Lemma local_exec_insert_op tablename keys data :
  local_op (λ w,
    match lookup_table w tablename with
    | None => Raise (ProgrammingError "Table doesn't exist")
    | Some (loc, t) =>
        if bool_decide (keys ⊆ map name (columns (table_class t))) then
          t' ← insert_rows Reject t (map (λ r, list_to_map (zip keys r)) data);
          Ok (store_table loc tablename t' w)
        else Raise (OperationalError "Unknown column")
    end).
Proof.
  intros w1 w2. destruct (lookup_table w1 tablename) as [[loc t]|]; [|done].
  case_bool_decide; [|done]. unfold_monad.
  destruct (insert_rows _ _ _); [|done].
  intros [= <-]. by destruct loc.
Qed.

Lemma insert_row_class mode t g t' :
  insert_row mode t g = Ok t' → table_class t' = table_class t.
Proof.
  unfold insert_row. destruct (find_duplicate _ _ _) as [[i old]|].
  - destruct mode as [| |a]; [done | by intros [= <-] |].
    destruct (conflicts _ _ _ _); [done | by intros [= <-]].
  - by intros [= <-].
Qed.

Lemma insert_row_grown mode t g t' : insert_row mode t g = Ok t' → grown t t'.
Proof.
  unfold insert_row, grown.
  pose proof (next_auto_ge (table_class t)
                (row_of (table_class t) g (auto_increment t)) (auto_increment t)) as Hge.
  destruct (find_duplicate _ _ _) as [[i old]|].
  - destruct mode as [| |a]; [done | |].
    + intros [= <-]. simpl. split_and!; (done || lia).
    + destruct (conflicts _ _ _ _); [done|]. intros [= <-]. simpl.
      rewrite length_insert. split_and!; (done || lia).
  - intros [= <-]. simpl. rewrite length_app. simpl. split_and!; (done || lia).
Qed.

Lemma insert_rows_grown mode gs : ∀ t t', insert_rows mode t gs = Ok t' → grown t t'.
Proof.
  induction gs as [|g gs IH]; intros t t'; simpl.
  - intros [= <-]. unfold grown. split_and!; (done || lia).
  - unfold_monad. destruct (insert_row mode t g) as [t1|] eqn:E; [|done].
    intros Hrest. apply insert_row_grown in E as (Hc1 & Hl1 & Ha1).
    apply IH in Hrest as (Hc2 & Hl2 & Ha2).
    unfold grown. split_and!; [congruence | lia | lia].
Qed.

Lemma insert_rows_extended mode gs :
  (∀ a, mode ≠ Overwrite a) →
  ∀ t t', insert_rows mode t gs = Ok t' → extended t t'.
Proof.
  intros Hmode. induction gs as [|g gs IH]; intros t t'; simpl.
  - intros [= <-]. split; [done|]. exists []. by rewrite app_nil_r.
  - unfold_monad. destruct (insert_row mode t g) as [t1|] eqn:E; [|done].
    intros Hrest. apply IH in Hrest as (Hc2 & extra2 & Hr2).
    unfold insert_row in E. destruct (find_duplicate _ _ _) as [[i old]|].
    + destruct mode as [| |a]; [done | | by destruct (Hmode a)].
      inversion E; subst t1. split; [done|]. by exists extra2.
    + inversion E; subst t1. simpl in *. split; [done|].
      exists ([row_of (table_class t) g (auto_increment t)] ++ extra2).
      by rewrite Hr2, <- app_assoc.
Qed.

Lemma _my_insert_stmt_table target_table temp_table session if_record_exists stmt :
  _my_insert_stmt target_table temp_table session if_record_exists = Ok stmt →
  table stmt = target_table.
Proof.
  unfold _my_insert_stmt. unfold_monad.
  destruct (_my_insert_columns temp_table) as [lists|]; [|done].
  case_bool_decide.
  - destruct (for_each _ _); [|done]. unfold on_duplicate_key_update.
    case_bool_decide; [done|]. by intros [= <-].
  - case_bool_decide; [|done]. by intros [= <-].
Qed.

Lemma _my_insert_stmt_ignore target_table temp_table session stmt :
  _my_insert_stmt target_table temp_table session "ignore" = Ok stmt →
  on_duplicate stmt = Ok Skip.
Proof.
  unfold _my_insert_stmt. unfold_monad.
  destruct (_my_insert_columns temp_table) as [lists|]; [|done].
  simpl. by intros [= <-].
Qed.

Lemma create_pending table_class bind w r w' :
  create table_class bind false w = (r, w') →
  pending w' = pending w ∧
  (r = Ok tt → is_Some (scratch w' !! __tablename__ table_class)).
Proof.
  unfold create, server_call. destruct (faults w (clock w)).
  - by intros [= <- <-].
  - simpl. destruct (scratch w !! _).
    + by intros [= <- <-].
    + intros [= <- <-]. simpl. split; [done|]. intros _.
      rewrite lookup_insert_eq. by eexists.
Qed.

Lemma exec_insert_pending con n keys data w r w' :
  is_Some (scratch w !! n) →
  exec_insert con n keys data w = (r, w') →
  pending w' = pending w ∧ is_Some (scratch w' !! n).
Proof.
  intros [t Ht]. unfold exec_insert, server_call, lookup_table.
  destruct (faults w (clock w)).
  - intros [= <- <-]. simpl. split; [done | by eexists].
  - simpl. rewrite Ht. case_bool_decide.
    + unfold_monad. destruct (insert_rows _ _ _).
      * intros [= <- <-]. simpl. split; [done|]. rewrite lookup_insert_eq. by eexists.
      * intros [= <- <-]. simpl. split; [done | by eexists].
    + intros [= <- <-]. simpl. split; [done | by eexists].
Qed.

Lemma insert_chunks_pending con n df chunksize indices :
  ∀ w r w',
    is_Some (scratch w !! n) →
    insert_chunks con n df chunksize indices w = (r, w') →
    pending w' = pending w.
Proof.
  induction indices as [|i indices IH]; intros w r w' Hs; simpl.
  - by intros [= <- <-].
  - case_bool_decide; [by intros [= <- <-]|].
    unfold_monad. destruct (exec_insert _ _ _ _ w) as [[[]|e] w1] eqn:E.
    + destruct (exec_insert_pending _ _ _ _ _ _ _ Hs E) as [Hp Hs1].
      intros Hrest. rewrite <- Hp. by eapply IH.
    + destruct (exec_insert_pending _ _ _ _ _ _ _ Hs E) as [Hp _].
      by intros [= <- <-].
Qed.

Lemma to_sql_pending df n con chunksize w r w' :
  is_Some (scratch w !! n) →
  to_sql df n con chunksize w = (r, w') →
  pending w' = pending w.
Proof.
  intros Hs. unfold to_sql. case_bool_decide; [by intros [= <- <-]|].
  case_bool_decide; [by intros [= <- <-]|].
  by apply insert_chunks_pending.
Qed.

Lemma compile_inv (stmt : Insert) (c : Compiled) :
  compile stmt = Ok c →
  into c = table stmt ∧ on_duplicate stmt = Ok (on_dup c) ∧
  select stmt = Some (from_query c).
Proof.
  unfold compile. destruct (select stmt) as [q|]; [|done]. unfold_monad.
  destruct (for_each _ _) as [names|]; [|done].
  destruct (on_duplicate stmt) as [mode|]; [|done].
  case_bool_decide; [done|]. by intros [= <-].
Qed.

Section frame.
Context (R : Table → Table → Prop).
Context (df : DataFrame) (target_table temp_table : DeclarativeMeta) (if_record_exists : string).
Hypothesis R_refl : ∀ T, R T T.
Hypothesis R_merge : ∀ session stmt mode tgt gs tgt',
  _my_insert_stmt target_table temp_table session if_record_exists = Ok stmt →
  on_duplicate stmt = Ok mode →
  insert_rows mode tgt gs = Ok tgt' →
  R tgt tgt'.

Lemma written_only_refl (p : gmap string Table) :
  written_only R (__tablename__ target_table) p p.
Proof. split_and!; [done | done |]. intros T HT. by exists T. Qed.

Lemma _my_insert_written session w r w' :
  _my_insert target_table temp_table session if_record_exists w = (r, w') →
  written_only R (__tablename__ target_table) (pending w) (pending w').
Proof.
  unfold _my_insert.
  destruct (_my_insert_stmt _ _ _ _) as [stmt|e] eqn:Hstmt.
  2:{ intros [= <- <-]. apply written_only_refl. }
  pose proof (_my_insert_stmt_table _ _ _ _ _ Hstmt) as Htable.
  unfold execute. destruct (compile stmt) as [c|e] eqn:Hc.
  2:{ intros [= <- <-]. apply written_only_refl. }
  destruct (compile_inv _ _ Hc) as (Hinto & Hmode & _).
  unfold server_call. destruct (faults w (clock w)).
  { intros [= <- <-]. apply written_only_refl. }
  destruct (run_insert c _) as [w2|e] eqn:Hrun.
  2:{ intros [= <- <-]. apply written_only_refl. }
  intros [= <- <-]. revert Hrun. unfold run_insert.
  case_bool_decide; [done|].
  destruct (lookup_table _ (select_from _)) as [[? src]|]; [|done].
  rewrite Hinto, Htable. unfold lookup_table at 1. simpl.
  destruct (scratch w !! __tablename__ target_table) as [ts|] eqn:Hs.
  - simpl. destruct (_ && _); [|done]. unfold_monad.
    destruct (insert_rows _ _ _); [|done]. intros [= <-]. simpl.
    apply written_only_refl.
  - destruct (pending w !! __tablename__ target_table) as [tgt|] eqn:Hp; [|done].
    simpl. destruct (_ && _); [|done]. unfold_monad.
    destruct (insert_rows _ _ _) as [tgt'|] eqn:Hrows; [|done]. intros [= <-]. simpl.
    split_and!.
    + intros m Hm. by rewrite lookup_insert_ne.
    + by rewrite Hp.
    + intros T HT. exists tgt'. rewrite lookup_insert_eq. split; [done|].
      assert (T = tgt) by congruence. subst T. by eapply R_merge.
Qed.

Lemma to_mysql_block_written session w r w' :
  to_mysql_block df target_table temp_table if_record_exists session w = (r, w') →
  durable w' = durable w ∧
  written_only R (__tablename__ target_table) (pending w) (pending w').
Proof.
  intros Hblock. split.
  { by destruct (quiet_to_mysql_block _ _ _ _ _ _ _ _ Hblock) as (? & _). }
  revert Hblock. unfold to_mysql_block, try_except_else, raise. unfold_monad.
  destruct (create _ _ _ w) as [[[]|e] wa] eqn:Hc.
  2:{ intros [= <- <-]. destruct (create_pending _ _ _ _ _ Hc) as [-> _].
      apply written_only_refl. }
  destruct (create_pending _ _ _ _ _ Hc) as [Hpa Hsa]. specialize (Hsa eq_refl).
  destruct (to_sql _ _ _ _ wa) as [[[]|e] wl] eqn:Hl.
  - pose proof (to_sql_pending _ _ _ _ _ _ _ Hsa Hl) as Hpl.
    intros Hm. apply _my_insert_written in Hm. by rewrite <- Hpa, <- Hpl.
  - pose proof (to_sql_pending _ _ _ _ _ _ _ Hsa Hl) as Hpl.
    destruct (is_Exception e); intros [= <- <-]; rewrite Hpl, Hpa;
      apply written_only_refl.
Qed.

Lemma to_mysql_written (self : Operation) (w : World) :
  written_only R (__tablename__ target_table) (durable w)
    (durable (to_mysql self df target_table temp_table if_record_exists w).2).
Proof.
  unfold to_mysql. case_bool_decide; [apply written_only_refl|].
  unfold _session_scope, try_finally, try_except, commit, server_call, rollback, close, raise.
  unfold_monad. simpl.
  destruct (to_mysql_block _ _ _ _ _ _) as [r w2] eqn:Hblock.
  apply to_mysql_block_written in Hblock as [Hd Hw]. simpl in Hd, Hw.
  destruct r as [[]|e]; simpl.
  - destruct (faults w2 (clock w2)) as [e|]; simpl.
    + destruct (is_Exception e); simpl; rewrite Hd; apply written_only_refl.
    + done.
  - destruct (is_Exception e); simpl; rewrite Hd; apply written_only_refl.
Qed.

End frame.

(** X5.  Under either policy, and wherever the server fails, the target
    table never loses from a run of [to_mysql]: it keeps its class, has no
    fewer rows afterwards, and its auto-increment counter does not go back. *)
Theorem to_mysql_never_shrinks_the_target
    (self : Operation) (df : DataFrame) (target_table temp_table : DeclarativeMeta)
    (if_record_exists : string) (w : World) (T : Table) :
  durable w !! __tablename__ target_table = Some T →
  ∃ T',
    durable (to_mysql self df target_table temp_table if_record_exists w).2
      !! __tablename__ target_table = Some T' ∧
    grown T T'.
Proof.
  intros HT.
  destruct (to_mysql_written grown df target_table temp_table if_record_exists)
    with (self := self) (w := w) as (_ & _ & H3).
  - intros T0. unfold grown. split_and!; (done || lia).
  - intros _ _ mode tgt gs tgt' _ _. apply insert_rows_grown.
  - by apply H3.
Qed.

Lemma to_mysql_never_shrinks_the_target_witness :
  ∃ T',
    durable (to_mysql op batch users users_temp "update" world0).2 !! "users" = Some T' ∧
    grown users_table T'.
Proof.
  apply (to_mysql_never_shrinks_the_target op batch users users_temp "update" world0).
  reflexivity.
Defined.

(** X6.  Under the ignore policy no row that the target held is changed or
    moved by a run of [to_mysql], wherever the server fails: the rows
    afterwards are the rows before, followed by those the run added. *)
Theorem ignore_keeps_every_existing_row
    (self : Operation) (df : DataFrame) (target_table temp_table : DeclarativeMeta)
    (w : World) (T : Table) :
  durable w !! __tablename__ target_table = Some T →
  ∃ T' added,
    durable (to_mysql self df target_table temp_table "ignore" w).2
      !! __tablename__ target_table = Some T' ∧
    rows T' = rows T ++ added.
Proof.
  intros HT.
  destruct (to_mysql_written extended df target_table temp_table "ignore")
    with (self := self) (w := w) as (_ & _ & H3).
  - intros T0. split; [done|]. exists []. by rewrite app_nil_r.
  - intros session stmt mode tgt gs tgt' Hstmt Hmode.
    rewrite (_my_insert_stmt_ignore _ _ _ _ Hstmt) in Hmode.
    inversion Hmode; subst mode. by apply insert_rows_extended.
  - destruct (H3 T HT) as (T' & HT' & _ & added & Hrows). by exists T', added.
Qed.

Lemma ignore_keeps_every_existing_row_witness :
  ∃ T' added,
    durable (to_mysql op batch users users_temp "ignore" world0).2 !! "users" = Some T' ∧
    rows T' = rows users_table ++ added.
Proof.
  apply (ignore_keeps_every_existing_row op batch users users_temp world0).
  reflexivity.
Defined.

(** *** All or nothing *)

(** X1.  Whenever [to_mysql] raises, whatever the exception and whichever
    step raised it (the policy guard, a statement, the commit itself), the
    durable state is what it was before the call. *)
Theorem to_mysql_raises_without_writing
    (self : Operation) (df : DataFrame) (target_table temp_table : DeclarativeMeta)
    (if_record_exists : string) (w : World) (e : exn) :
  (to_mysql self df target_table temp_table if_record_exists w).1 = Raise e →
  durable (to_mysql self df target_table temp_table if_record_exists w).2 = durable w.
Proof.
  unfold to_mysql. case_bool_decide; [done|].
  unfold _session_scope, try_finally, try_except, commit, server_call, rollback, close, raise.
  unfold_monad. simpl.
  destruct (to_mysql_block _ _ _ _ _ _) as [r w2] eqn:Hblock.
  destruct (quiet_to_mysql_block _ _ _ _ _ _ _ _ Hblock) as (Hd & _). simpl in Hd.
  destruct r as [[]|e'].
  - destruct (faults w2 (clock w2)) as [e'|]; [|done].
    by destruct (is_Exception e').
  - by destruct (is_Exception e').
Qed.

Lemma to_mysql_raises_without_writing_witness :
  durable (to_mysql op batch users users_temp "update"
             (faulty_world 3 KeyboardInterrupt)).2
    = durable (faulty_world 3 KeyboardInterrupt).
Proof.
  apply (to_mysql_raises_without_writing op batch users users_temp "update"
           (faulty_world 3 KeyboardInterrupt) KeyboardInterrupt).
  reflexivity.
Defined.

(** *** The order of the calls *)

Lemma exec_insert_trace con n keys data w :
  trace (exec_insert con n keys data w).2 = trace w ++ [EvInsert n (length data)].
Proof. apply server_call_trace, local_exec_insert_op. Qed.

Lemma insert_chunks_shape con n df chunksize indices :
  ∀ w, ∃ inserts,
    trace (insert_chunks con n df chunksize indices w).2 = trace w ++ inserts ∧
    Forall (λ ev, ∃ k, ev = EvInsert n k) inserts.
Proof.
  induction indices as [|i indices IH]; intros w; simpl.
  - exists []. split; [by rewrite app_nil_r | constructor].
  - case_bool_decide.
    + exists []. split; [by rewrite app_nil_r | constructor].
    + unfold_monad.
      pose proof (exec_insert_trace con n (df_columns df)
                    (take (((i + 1) * chunksize) `min` length (df_values df) - i * chunksize)
                       (drop (i * chunksize) (df_values df))) w) as Ht.
      destruct (exec_insert _ _ _ _ w) as [[[]|e] w1]; simpl in Ht.
      * destruct (IH w1) as (inserts & Hrest & Hall).
        eexists (_ :: inserts). split.
        -- rewrite Hrest, Ht, <- app_assoc. reflexivity.
        -- constructor; [by eexists | done].
      * eexists [_]. split; [exact Ht|]. constructor; [by eexists | constructor].
Qed.

Lemma to_sql_shape df n con chunksize w :
  ∃ inserts,
    trace (to_sql df n con chunksize w).2 = trace w ++ inserts ∧
    Forall (λ ev, ∃ k, ev = EvInsert n k) inserts.
Proof.
  unfold to_sql. case_bool_decide.
  - exists []. split; [by rewrite app_nil_r | constructor].
  - case_bool_decide.
    + exists []. split; [by rewrite app_nil_r | constructor].
    + apply insert_chunks_shape.
Qed.

Lemma _my_insert_shape target_table temp_table session if_record_exists w :
  ∃ execs,
    trace (_my_insert target_table temp_table session if_record_exists w).2
      = trace w ++ execs ∧
    (execs = [] ∨ ∃ stmt, execs = [EvExecute stmt]) ∧
    ((_my_insert target_table temp_table session if_record_exists w).1 = Ok tt →
     ∃ stmt, execs = [EvExecute stmt]).
Proof.
  unfold _my_insert. destruct (_my_insert_stmt _ _ _ _) as [stmt|e].
  - exists [EvExecute stmt]. split_and!; [|eauto|eauto].
    apply execute_trace.
  - exists []. split_and!; [by rewrite app_nil_r | by left | done].
Qed.

Lemma to_mysql_block_shape df target_table temp_table if_record_exists session w :
  ∃ inserts execs,
    trace (to_mysql_block df target_table temp_table if_record_exists session w).2
      = trace w ++ EvCreate (__tablename__ temp_table) :: inserts ++ execs ∧
    Forall (λ ev, ∃ k, ev = EvInsert (__tablename__ temp_table) k) inserts ∧
    (execs = [] ∨ ∃ stmt, execs = [EvExecute stmt]) ∧
    ((to_mysql_block df target_table temp_table if_record_exists session w).1 = Ok tt →
     ∃ stmt, execs = [EvExecute stmt]).
Proof.
  unfold to_mysql_block, try_except_else, raise. unfold_monad.
  pose proof (create_trace temp_table (connection session) false w) as Hc.
  destruct (create _ _ _ w) as [[[]|e] wa]; simpl in Hc.
  2:{ exists [], []. simpl. split_and!; [done | constructor | by left | done]. }
  destruct (to_sql_shape df (__tablename__ temp_table) (connection session) 1000 wa)
    as (inserts & Hl & Hall).
  destruct (to_sql _ _ _ _ wa) as [[[]|e] wl]; simpl in Hl.
  - destruct (_my_insert_shape target_table temp_table session if_record_exists wl)
      as (execs & Hm & Hex & Hok).
    exists inserts, execs. split_and!; [|done..].
    rewrite Hm, Hl, Hc, <- !app_assoc. done.
  - exists inserts, []. rewrite app_nil_r.
    destruct (is_Exception e); simpl;
      (split_and!; [by rewrite Hl, Hc, <- app_assoc | done | by left | done]).
Qed.

(** X2.  With an accepted policy every run of [to_mysql], wherever the
    server fails, makes its calls in one order: the session is opened, the
    scratch table created, then come inserts into the scratch table only, then
    at most one merge statement, then the end of the session, which is one of
    commit-close, commit-rollback-close, rollback-close and close.  A commit
    is sent only after the merge statement, and a run that returns normally
    ended with commit-close. *)
Theorem to_mysql_call_order
    (self : Operation) (df : DataFrame) (target_table temp_table : DeclarativeMeta)
    (if_record_exists : string) (w : World) :
  let out := to_mysql self df target_table temp_table if_record_exists w in
  let n := __tablename__ temp_table in
  if_record_exists ∈ ["update"; "ignore"] →
  ∃ inserts execs finish,
    trace out.2 = trace w ++ [EvSession (db self) true; EvCreate n]
                    ++ inserts ++ execs ++ finish ∧
    Forall (λ ev, ∃ k, ev = EvInsert n k) inserts ∧
    (execs = [] ∨ ∃ stmt, execs = [EvExecute stmt]) ∧
    finish ∈ [[EvCommit; EvClose]; [EvCommit; EvRollback; EvClose];
              [EvRollback; EvClose]; [EvClose]] ∧
    (EvCommit ∈ finish → ∃ stmt, execs = [EvExecute stmt]) ∧
    (out.1 = Ok tt → finish = [EvCommit; EvClose]).
Proof.
  intros out n Hp. subst out n. unfold to_mysql. rewrite bool_decide_eq_false_2 by auto.
  unfold _session_scope, try_finally, try_except, commit, server_call, rollback, close, raise.
  unfold_monad. simpl.
  destruct (to_mysql_block_shape df target_table temp_table if_record_exists ScopedSession
              (open_session (mkConnector (db self)) true w))
    as (inserts & execs & Ht & Hall & Hex & Hok).
  destruct (to_mysql_block _ _ _ _ _ _) as [r w2]. simpl in Ht, Hok.
  exists inserts, execs.
  assert (Hin : ∀ tail : list Event,
            (trace w2 ++ tail = trace w ++ [EvSession (db self) true;
               EvCreate (__tablename__ temp_table)] ++ inserts ++ execs ++ tail)).
  { intros tail. rewrite Ht. simpl. rewrite <- !app_assoc. simpl.
    by rewrite <- !app_assoc. }
  destruct r as [[]|e].
  - specialize (Hok eq_refl).
    destruct (faults w2 (clock w2)) as [e|]; [destruct (is_Exception e)|]; simpl;
      rewrite <- ?app_assoc; simpl; eexists; (split; [apply Hin|]);
      (split_and!; [done | done | | done | done]).
    + right. by left.
    + by left.
    + by left.
  - destruct (is_Exception e); simpl; rewrite <- ?app_assoc; simpl;
      eexists; (split; [apply Hin|]); (split_and!; [done | done | | | done]).
    + do 2 right. by left.
    + intros [[=]|[[=]|H]%elem_of_cons]%elem_of_cons. by apply elem_of_nil in H.
    + do 3 right. by left.
    + intros [[=]|H]%elem_of_cons. by apply elem_of_nil in H.
Qed.

Lemma to_mysql_call_order_witness :
  ∃ inserts execs finish,
    trace (to_mysql op batch users users_temp "update" (faulty_world 3 KeyboardInterrupt)).2
      = [EvSession "test" true; EvCreate "users_temp"] ++ inserts ++ execs ++ finish ∧
    Forall (λ ev, ∃ k, ev = EvInsert "users_temp" k) inserts ∧
    (execs = [] ∨ ∃ stmt, execs = [EvExecute stmt]) ∧
    finish ∈ [[EvCommit; EvClose]; [EvCommit; EvRollback; EvClose];
              [EvRollback; EvClose]; [EvClose]].
Proof.
  destruct (to_mysql_call_order op batch users users_temp "update"
              (faulty_world 3 KeyboardInterrupt))
    as (inserts & execs & finish & H1 & H2 & H3 & H4 & _).
  - apply elem_of_cons. by left.
  - exists inserts, execs, finish. split_and!; [exact H1 | exact H2 | exact H3 | exact H4].
Defined.

(** X3.  An exception that is no [Exception] (a [KeyboardInterrupt], say)
    raised inside the block of [to_mysql] is not caught by
    [except Exception]: it reaches the caller with no [rollback] call made at
    all; the session is closed all the same, and with it the open transaction
    and the scratch table are gone, the durable state being as before. *)
Theorem base_exception_closes_without_rollback
    (self : Operation) (df : DataFrame) (target_table temp_table : DeclarativeMeta)
    (if_record_exists : string) (w w2 : World) (e : exn) :
  let out := to_mysql self df target_table temp_table if_record_exists w in
  if_record_exists ∈ ["update"; "ignore"] →
  to_mysql_block df target_table temp_table if_record_exists ScopedSession
    (open_session (mkConnector (db self)) true w) = (Raise e, w2) →
  is_Exception e = false →
  out.1 = Raise e ∧
  trace out.2 = trace w2 ++ [EvClose] ∧
  (EvRollback ∉ drop (length (trace w)) (trace out.2)) ∧
  durable out.2 = durable w ∧ pending out.2 = durable w ∧ scratch out.2 = ∅.
Proof.
  intros out Hp Hblock He. subst out.
  destruct (to_mysql_block_shape df target_table temp_table if_record_exists ScopedSession
              (open_session (mkConnector (db self)) true w))
    as (inserts & execs & Ht & Hall & Hex & _).
  destruct (quiet_to_mysql_block _ _ _ _ _ _ _ _ Hblock) as (Hd & _).
  rewrite Hblock in Ht. simpl in Ht, Hd.
  unfold to_mysql. rewrite bool_decide_eq_false_2 by auto.
  unfold _session_scope, try_finally, try_except, close. unfold_monad. simpl.
  rewrite Hblock, He. simpl. rewrite Hd. split_and!; try done.
  rewrite Ht. simpl. rewrite <- !app_assoc, drop_app_length.
  intros H.
  apply elem_of_app in H as [H|H]; [by apply list_elem_of_singleton in H|].
  apply elem_of_app in H as [H|H]; [|by apply list_elem_of_singleton in H].
  apply elem_of_cons in H as [H|H]; [done|].
  apply elem_of_app in H as [Hi|Hx].
  - rewrite Forall_forall in Hall. by destruct (Hall _ Hi) as [k [=]].
  - destruct Hex as [->|[stmt ->]].
    + by apply elem_of_nil in Hx.
    + by apply list_elem_of_singleton in Hx.
Qed.

Lemma base_exception_closes_without_rollback_witness :
  let w := faulty_world 1 KeyboardInterrupt in
  (to_mysql op batch users users_temp "update" w).1 = Raise KeyboardInterrupt ∧
  trace (to_mysql op batch users users_temp "update" w).2
    = [EvSession "test" true; EvCreate "users_temp"; EvInsert "users_temp" 2; EvClose] ∧
  durable (to_mysql op batch users users_temp "update" w).2 = durable w.
Proof.
  intros w.
  pose (w2 := (to_mysql_block batch users users_temp "update" ScopedSession
                 (open_session (mkConnector (db op)) true w)).2).
  destruct (base_exception_closes_without_rollback op batch users users_temp "update"
              w w2 KeyboardInterrupt) as (H1 & H2 & _ & H4 & _).
  - apply elem_of_cons. by left.
  - reflexivity.
  - reflexivity.
  - split_and!; [exact H1 | exact H2 | exact H4].
Defined.

(** *** Errors raised while the statement is built *)

Lemma list_remove_missing {A : Type} `{EqDecision A} (x : A) (l : list A) :
  x ∉ l → list_remove x l = Raise (ValueError "list.remove(x): x not in list").
Proof.
  induction l as [|y l IH]; intros Hx; [done|].
  apply not_elem_of_cons in Hx as [Hne Hx]. simpl.
  rewrite decide_False by done. unfold_monad. by rewrite IH.
Qed.

Lemma list_remove_sub {A : Type} `{EqDecision A} (x : A) (l l' : list A) :
  list_remove x l = Ok l' → ∀ y, y ∈ l' → y ∈ l.
Proof.
  revert l'. induction l as [|z l IH]; intros l'; simpl; [done|].
  destruct (decide (x = z)).
  - intros [= <-] y Hy. by right.
  - unfold_monad. destruct (list_remove x l) as [l0|]; [|done].
    intros [= <-] y [->|Hy]%elem_of_cons; [by left|]. right. by eapply IH.
Qed.

Lemma remove_each_missing {A : Type} `{EqDecision A} (x : A) (ks : list A) :
  x ∈ ks → ∀ l, x ∉ l →
  remove_each ks l = Raise (ValueError "list.remove(x): x not in list").
Proof.
  induction ks as [|k ks IH]; intros Hx l Hl; [by apply elem_of_nil in Hx|].
  simpl. unfold_monad. destruct (list_remove k l) as [l'|e] eqn:E.
  - apply elem_of_cons in Hx as [->|Hx].
    + by rewrite list_remove_missing in E.
    + apply IH; [done|]. intros Hin. apply Hl. by eapply list_remove_sub.
  - f_equal. assert (Hr : remove_each [k] l = Raise e) by (simpl; unfold_monad; by rewrite E).
    by apply remove_each_raises in Hr.
Qed.

(** X7.  [_my_insert] lists the columns by [key] but removes the primary key
    by [name]: when a primary-key column of the temporary class has a name
    that is the key of no column, [_my_insert] raises the [ValueError] of
    [list.remove], under either policy and before anything is sent to the
    server. *)
Theorem primary_key_name_must_be_a_column_key
    (target_table temp_table : DeclarativeMeta) (session : Session)
    (if_record_exists : string) (w : World) (pk : Column) :
  pk ∈ columns temp_table →
  primary_key pk = true →
  name pk ∉ map key (columns temp_table) →
  _my_insert target_table temp_table session if_record_exists w
    = (Raise (ValueError "list.remove(x): x not in list"), w).
Proof.
  intros Hpk Hflag Hname. unfold _my_insert, _my_insert_stmt, _my_insert_columns.
  unfold inspect. simpl.
  rewrite (remove_each_missing (name pk)); [done | | done].
  apply list_elem_of_fmap. exists pk. split; [done|].
  by apply list_elem_of_filter.
Qed.

Lemma primary_key_name_must_be_a_column_key_witness :
  _my_insert users override_temp ScopedSession "update" world0
    = (Raise (ValueError "list.remove(x): x not in list"), world0).
Proof.
  apply (primary_key_name_must_be_a_column_key users override_temp ScopedSession
           "update" world0 (mkColumn "pk" "id" true VNull)).
  - by left.
  - reflexivity.
  - apply (bool_decide_unpack _). by vm_compute.
Defined.

Lemma inserted_missing (stmt : Insert) (k : string) :
  k ∉ map key (columns (table stmt)) → inserted stmt k = Raise (KeyError k).
Proof.
  intros Hk. unfold inserted. destruct (List.find _ _) as [c|] eqn:Hfind; [|done].
  apply find_some in Hfind as [Hc Hkey]. apply bool_decide_eq_true in Hkey.
  exfalso. apply Hk. rewrite <- Hkey. apply list_elem_of_fmap. exists c.
  split; [done | by apply list_elem_of_In].
Qed.

Lemma inserted_present (stmt : Insert) (k : string) :
  k ∈ map key (columns (table stmt)) → ∃ c, inserted stmt k = Ok c.
Proof.
  intros Hk. unfold inserted. destruct (List.find _ _) as [c|] eqn:Hfind; [by eexists|].
  exfalso. apply list_elem_of_fmap in Hk as (c & -> & Hc).
  eapply find_none in Hfind; [|by apply list_elem_of_In]. simpl in Hfind.
  by rewrite bool_decide_eq_true_2 in Hfind.
Qed.

Lemma for_each_inserted_first (stmt : Insert) (ks : list string) (k : string) :
  k ∈ ks → k ∉ map key (columns (table stmt)) →
  ∃ pre k' post,
    ks = pre ++ k' :: post ∧
    (∀ x, x ∈ pre → x ∈ map key (columns (table stmt))) ∧
    (k' ∉ map key (columns (table stmt))) ∧
    for_each (λ column, v ← inserted stmt column; Ok (column, v)) ks
      = Raise (KeyError k').
Proof.
  intros Hk Hmiss. induction ks as [|k0 ks IH]; [by apply elem_of_nil in Hk|].
  destruct (decide (k0 ∈ map key (columns (table stmt)))) as [Hin|Hout].
  - destruct (inserted_present stmt k0 Hin) as [c Hc].
    apply elem_of_cons in Hk as [->|Hk]; [done|].
    destruct (IH Hk) as (pre & k' & post & -> & Hpre & Hmiss' & Hrun).
    exists (k0 :: pre), k', post. split_and!; [done | | done |].
    + intros x [->|Hx]%elem_of_cons; [done | by apply Hpre].
    + simpl. unfold_monad. rewrite Hc. simpl.
      unfold_monad. by rewrite Hrun.
  - exists [], k0, ks. split_and!; [done | | done |].
    + intros x Hx. by apply elem_of_nil in Hx.
    + simpl. unfold_monad. by rewrite inserted_missing.
Qed.

(** X8.  Under the overwrite policy the statement is built with
    [stmt.inserted[column]] for every mergeable column, in order: when the
    target class has no column under one of these keys, [_my_insert] raises
    [KeyError] for the first such key, the mergeable keys before it all being
    keys of the target, and nothing is sent to the server.  Under the ignore
    policy no such lookup is made and a statement is built for the same
    classes. *)
Theorem update_needs_every_mergeable_key_in_the_target
    (target_table temp_table : DeclarativeMeta) (session : Session) (w : World) (k : string) :
  schema_ok temp_table →
  k ∈ mergeable temp_table →
  k ∉ map key (columns target_table) →
  ∃ pre k' post,
    mergeable temp_table = pre ++ k' :: post ∧
    (∀ x, x ∈ pre → x ∈ map key (columns target_table)) ∧
    (k' ∉ map key (columns target_table)) ∧
    _my_insert target_table temp_table session "update" w = (Raise (KeyError k'), w) ∧
    ∃ stmt, _my_insert_stmt target_table temp_table session "ignore" = Ok stmt.
Proof.
  intros Hok Hk Hmiss.
  set (cols := filter (λ c, primary_key c = false) (columns temp_table)).
  set (stmt0 := from_select (map key cols) (query session temp_table cols)
                  (insert target_table)).
  destruct (for_each_inserted_first stmt0 (map key cols) k Hk Hmiss)
    as (pre & k' & post & Hsplit & Hpre & Hmiss' & Hrun).
  exists pre, k', post. split_and!; [done | done | done | |].
  - unfold _my_insert, _my_insert_stmt. rewrite (_my_insert_columns_ok _ Hok).
    fold cols. unfold_monad. simpl. fold stmt0. by rewrite Hrun.
  - unfold _my_insert_stmt. rewrite (_my_insert_columns_ok _ Hok). by eexists.
Qed.

Lemma update_needs_every_mergeable_key_in_the_target_witness :
  ∃ pre post,
    mergeable users_temp = pre ++ "name" :: post ∧
    _my_insert users_short users_temp ScopedSession "update" world0
      = (Raise (KeyError "name"), world0).
Proof.
  destruct (update_needs_every_mergeable_key_in_the_target users_short users_temp
              ScopedSession world0 "name" schema_ok_users_temp)
    as (pre & k' & post & H1 & H2 & H3 & H4 & _).
  - apply (bool_decide_unpack _). by vm_compute.
  - apply (bool_decide_unpack _). by vm_compute.
  - assert (Hm : mergeable users_temp = ["email"; "name"]) by reflexivity.
    rewrite Hm in H1.
    destruct pre as [|x [|y pre]]; simpl in H1.
    + injection H1 as <- _. exfalso. apply H3.
      apply (bool_decide_unpack _). by vm_compute.
    + injection H1 as <- <- <-. exists ["email"], [].
      split; [reflexivity | exact H4].
    + injection H1 as _ _ H1. destruct pre; discriminate H1.
Defined.

(** *** The two statements *)

(** X9.  For a well-formed temporary class with at least one mergeable
    column, whose mergeable keys the target class has, the statements built for the two policies insert into the
    target from the same select over the same column list, which names no
    primary key.  They differ in the duplicate clause only: the overwrite
    statement carries no prefix and an [ON DUPLICATE KEY UPDATE] whose keys
    are exactly the mergeable keys, in order, each assigned the [VALUES] of
    the target column of that key; the ignore statement carries the prefix
    [IGNORE] and no such clause. *)
Theorem statements_differ_in_the_duplicate_clause_only
    (target_table temp_table : DeclarativeMeta) (session : Session) :
  schema_ok temp_table →
  mergeable temp_table ≠ [] →
  mergeable temp_table ⊆ map key (columns target_table) →
  ∃ overwrite ignore update_dict,
    _my_insert_stmt target_table temp_table session "update" = Ok overwrite ∧
    _my_insert_stmt target_table temp_table session "ignore" = Ok ignore ∧
    table overwrite = target_table ∧ table ignore = target_table ∧
    select_names overwrite = mergeable temp_table ∧
    select_names ignore = mergeable temp_table ∧
    select overwrite = select ignore ∧
    (∃ q, select ignore = Some q ∧ select_from q = __tablename__ temp_table ∧
          map key (entities q) = mergeable temp_table ∧
          Forall (λ c, primary_key c = false) (entities q)) ∧
    _prefixes overwrite = [] ∧
    _on_duplicate_key_update overwrite = Some update_dict ∧
    map fst update_dict = mergeable temp_table ∧
    Forall (λ kv, kv.2 ∈ columns target_table ∧ key kv.2 = kv.1) update_dict ∧
    _prefixes ignore = ["IGNORE"] ∧
    _on_duplicate_key_update ignore = None.
Proof.
  intros Hok Hsome Hkeys.
  set (cols := filter (λ c, primary_key c = false) (columns temp_table)).
  set (stmt0 := from_select (map key cols) (query session temp_table cols)
                  (insert target_table)).
  destruct (for_each_inserted_ok stmt0 (map key cols)) as (ud & Hud & Hfst & Hin).
  { intros k Hk. by apply Hkeys. }
  exists {| table := table stmt0; select_names := select_names stmt0;
            select := select stmt0; _prefixes := _prefixes stmt0;
            _on_duplicate_key_update := Some ud |},
         (prefix_with "IGNORE" stmt0), ud.
  split_and!; try done.
  - unfold _my_insert_stmt. rewrite (_my_insert_columns_ok _ Hok).
    fold cols. unfold_monad. simpl. fold stmt0. unfold_monad. rewrite Hud.
    cbn [mbind result_bind]. unfold on_duplicate_key_update.
    rewrite bool_decide_eq_false_2; [done|].
    intros ->. apply Hsome. unfold mergeable. fold cols. by rewrite <- Hfst.
  - unfold _my_insert_stmt. by rewrite (_my_insert_columns_ok _ Hok).
  - exists (query session temp_table cols). split_and!; try done.
    apply Forall_forall. intros c Hc. by apply list_elem_of_filter in Hc as [? _].
  - apply Forall_forall. intros kv Hkv. by apply Hin.
Qed.

Lemma statements_differ_in_the_duplicate_clause_only_witness :
  ∃ overwrite ignore update_dict,
    _my_insert_stmt users users_temp ScopedSession "update" = Ok overwrite ∧
    _my_insert_stmt users users_temp ScopedSession "ignore" = Ok ignore ∧
    select overwrite = select ignore ∧
    _on_duplicate_key_update overwrite = Some update_dict ∧
    map fst update_dict = ["email"; "name"] ∧
    _prefixes ignore = ["IGNORE"].
Proof.
  destruct (statements_differ_in_the_duplicate_clause_only users users_temp ScopedSession
              schema_ok_users_temp)
    as (su & si & ud & H1 & H2 & _ & _ & _ & _ & H7 & _ & _ & H10 & H11 & _ & H13 & _).
  - discriminate.
  - apply (bool_decide_unpack _). by vm_compute.
  - exists su, si, ud. split_and!;
      [exact H1 | exact H2 | exact H7 | exact H10 | exact H11 | exact H13].
Defined.

(** *** Empty and large batches *)

Lemma setting_mergeable_some (target_table temp_table : DeclarativeMeta) (u : list string) :
  merge_setting target_table temp_table u → mergeable temp_table ≠ [].
Proof.
  intros Hset Hnil.
  pose proof (setting_index_nonempty _ _ _ Hset) as Hne.
  pose proof (setting_index_columns _ _ _ Hset) as Hsub.
  destruct u as [|k u']; [done|].
  assert (Hk : k ∈ mergeable temp_table) by (apply Hsub; by left).
  rewrite Hnil in Hk. by apply elem_of_nil in Hk.
Qed.

(** X10.  An empty frame, whatever its columns, is not sent to the server at
    all: in a merge setting on a server that does not fail the run consists of
    the creation of the scratch table, the merge statement over no rows and
    the commit; it succeeds under either policy and leaves the durable state
    as it was. *)
Theorem empty_batch_changes_nothing
    (self : Operation) (df : DataFrame) (target_table temp_table : DeclarativeMeta)
    (u : list string) (if_record_exists : string) (w : World) (T : Table) :
  merge_setting target_table temp_table u →
  if_record_exists ∈ ["update"; "ignore"] →
  df_values df = [] →
  no_faults w →
  durable w !! __tablename__ target_table = Some T →
  table_class T = target_table →
  ∃ stmt w',
    to_mysql self df target_table temp_table if_record_exists w = (Ok tt, w') ∧
    durable w' = durable w ∧
    trace w' = trace w ++ [EvSession (db self) true; EvCreate (__tablename__ temp_table);
                           EvExecute stmt; EvCommit; EvClose].
Proof.
  intros Hset Hp Hempty Hnf HT HclsT.
  pose (w1 := open_session (mkConnector (db self)) true w).
  pose (t0 := {| table_class := temp_table; rows := []; auto_increment := 1 |}).
  assert (Hc : create temp_table (connection ScopedSession) false w1 =
    (Ok tt, {| durable := durable w1; pending := pending w1;
               scratch := <[__tablename__ temp_table := t0]> (scratch w1);
               trace := trace w1 ++ [EvCreate (__tablename__ temp_table)];
               clock := S (clock w1); faults := faults w1 |})).
  { apply create_ok; [apply Hnf | apply lookup_empty]. }
  set (wc := mkWorld _ _ _ _ _ _) in Hc.
  destruct (_my_insert_runs target_table temp_table
              (setting_temp_ok _ _ _ Hset) (setting_temp_plain _ _ _ Hset)
              (setting_target_plain _ _ _ Hset) (setting_columns _ _ _ Hset)
              (setting_mergeable_some _ _ _ Hset) ScopedSession if_record_exists
              wc t0 T T Hp) as (stmt & _ & _ & _ & Hrun).
  { apply Hnf. }
  { apply lookup_insert_eq. }
  { done. }
  { simpl. rewrite lookup_insert_ne by apply (setting_tablenames _ _ _ Hset).
    apply lookup_empty. }
  { done. }
  { done. }
  { done. }
  assert (Hblock : to_mysql_block df target_table temp_table if_record_exists ScopedSession w1
                   = _my_insert target_table temp_table ScopedSession if_record_exists wc).
  { unfold to_mysql_block, try_except_else, to_sql. unfold_monad.
    rewrite Hc, Hempty. done. }
  rewrite Hrun in Hblock.
  exists stmt. eexists. split_and!.
  - unfold to_mysql. rewrite bool_decide_eq_false_2 by auto.
    apply (session_scope_ok self true _ w _ Hblock). apply Hnf.
  - simpl. by apply insert_id.
  - simpl. by rewrite <- !app_assoc.
Qed.

Lemma empty_batch_changes_nothing_witness :
  ∃ stmt w',
    to_mysql op (mkDataFrame ["email"; "age"] []) users users_temp "ignore" world0
      = (Ok tt, w') ∧
    durable w' = durable world0 ∧
    trace w' = [EvSession "test" true; EvCreate "users_temp"; EvExecute stmt;
                EvCommit; EvClose].
Proof.
  apply (empty_batch_changes_nothing op (mkDataFrame ["email"; "age"] []) users users_temp
           ["email"] "ignore" world0 users_table users_setting).
  - apply elem_of_cons. right. apply elem_of_cons. by left.
  - reflexivity.
  - intros i. reflexivity.
  - reflexivity.
  - reflexivity.
Defined.

Lemma chunk_sizes_sum (chunksize : nat) (k : nat) :
  ∀ remaining, remaining ≤ k * chunksize →
  sum_list (chunk_sizes chunksize remaining k) = remaining.
Proof.
  induction k as [|k IH]; intros remaining Hcover; simpl.
  - simpl in Hcover. lia.
  - case_bool_decide; [simpl; lia|]. simpl.
    rewrite IH by lia. lia.
Qed.

Lemma chunk_sizes_bounds (chunksize : nat) (k : nat) :
  0 < chunksize →
  ∀ remaining, Forall (λ s, 1 ≤ s ≤ chunksize) (chunk_sizes chunksize remaining k).
Proof.
  intros Hcs. induction k as [|k IH]; intros remaining; simpl; [constructor|].
  case_bool_decide; [constructor|]. constructor; [lia | apply IH].
Qed.

Lemma ceil_div_step (remaining chunksize : nat) :
  0 < chunksize → 0 < remaining →
  (remaining + chunksize - 1) / chunksize
    = S ((remaining - chunksize + chunksize - 1) / chunksize).
Proof.
  intros Hcs Hrem. destruct (decide (chunksize ≤ remaining)) as [Hge|Hlt].
  - replace (remaining + chunksize - 1) with ((remaining - 1) + 1 * chunksize) by lia.
    rewrite Nat.div_add by lia.
    replace (remaining - chunksize + chunksize - 1) with (remaining - 1) by lia. lia.
  - replace (remaining - chunksize) with 0 by lia.
    rewrite (Nat.div_small (0 + chunksize - 1)) by lia.
    symmetry. apply (Nat.div_unique _ _ _ (remaining - 1)); lia.
Qed.

Lemma chunk_sizes_length (chunksize : nat) (k : nat) :
  0 < chunksize →
  ∀ remaining, remaining ≤ k * chunksize →
  length (chunk_sizes chunksize remaining k) = (remaining + chunksize - 1) / chunksize.
Proof.
  intros Hcs. induction k as [|k IH]; intros remaining Hcover; simpl.
  - simpl in Hcover. replace remaining with 0 by lia.
    rewrite Nat.div_small; lia.
  - case_bool_decide as Hz.
    + subst remaining. rewrite Nat.div_small; simpl; lia.
    + simpl. rewrite IH by lia. rewrite (ceil_div_step remaining chunksize) by lia. done.
Qed.

(** X11.  A frame of [nrows] rows over the columns of the scratch class
    other than its primary key, the class having distinct column names and
    no unique index of its own, is sent on a server that does not fail in
    chunks of at most 1,000 rows and never an empty one: the inserts of the
    run are [ceil(nrows / 1000)] in number and their sizes add up to
    [nrows]. *)
Theorem load_is_chunked_by_a_thousand
    (self : Operation) (df : DataFrame) (target_table temp_table : DeclarativeMeta)
    (if_record_exists : string) (w : World) :
  let out := to_mysql self df target_table temp_table if_record_exists w in
  let n := __tablename__ temp_table in
  if_record_exists ∈ ["update"; "ignore"] →
  no_faults w →
  NoDup (map name (columns temp_table)) →
  uniques temp_table = [] →
  valid_batch temp_table df →
  ∃ sizes,
    filter (λ ev, is_insert ev = true) (drop (length (trace w)) (trace out.2))
      = map (EvInsert n) sizes ∧
    Forall (λ s, 1 ≤ s ≤ 1000) sizes ∧
    sum_list sizes = length (df_values df) ∧
    length sizes = (length (df_values df) + 999) / 1000.
Proof.
  intros out n Hp Hnf Hnd Hu Hcols. subst out n.
  set (nrows := length (df_values df)).
  exists (chunk_sizes 1000 nrows (nrows / 1000 + 1)).
  assert (Hcover : nrows ≤ (nrows / 1000 + 1) * 1000) by (apply chunks_cover; lia).
  split_and!.
  - destruct (load_ok self df target_table temp_table if_record_exists ScopedSession w
                Hnf Hnd Hu Hcols) as (wl & _ & _ & _ & _ & _ & Htr & Hblock).
    fold nrows in Htr. cbv zeta in Hblock.
    unfold to_mysql. rewrite bool_decide_eq_false_2 by auto.
    destruct (session_scope_tail self true
                (to_mysql_block df target_table temp_table if_record_exists) w)
      as (c2 & -> & Hc2).
    rewrite Hblock.
    destruct (_my_insert_trace target_table temp_table ScopedSession if_record_exists wl)
      as (c1 & -> & Hc1).
    rewrite Htr, <- !app_assoc, drop_app_length.
    generalize (chunk_sizes 1000 nrows (nrows / 1000 + 1)). intros l. simpl.
    rewrite !filter_cons. simpl.
    rewrite !filter_app, (filter_no_insert c1), (filter_no_insert c2) by done.
    rewrite !app_nil_r.
    induction l as [|s l IH]; [done|]. simpl. rewrite filter_cons. simpl.
    by rewrite IH.
  - apply chunk_sizes_bounds. lia.
  - by apply chunk_sizes_sum.
  - rewrite chunk_sizes_length; [f_equal; lia | lia | done].
Qed.

Lemma load_is_chunked_by_a_thousand_witness :
  ∃ sizes,
    filter (λ ev, is_insert ev = true)
        (trace (to_mysql op big_batch users users_temp "ignore" world0).2)
      = map (EvInsert "users_temp") sizes ∧
    sum_list sizes = 2500 ∧ length sizes = 3.
Proof.
  destruct (load_is_chunked_by_a_thousand op big_batch users users_temp "ignore" world0)
    as (sizes & H1 & _ & H3 & H4).
  - apply elem_of_cons. right. apply elem_of_cons. by left.
  - intros i. reflexivity.
  - apply (bool_decide_unpack _). by vm_compute.
  - reflexivity.
  - unfold valid_batch. apply (bool_decide_unpack _). by vm_compute.
  - exists sizes. split_and!; [exact H1 | exact H3 | exact H4].
Defined.

(** *** Running the overwrite merge again *)

Section merge_again.
Context (target_table : DeclarativeMeta) (u names : list string).
Hypothesis target_names : NoDup (map name (columns target_table)).
Hypothesis target_index : uniques target_table = [u].
Hypothesis index_columns : u ⊆ names.
Hypothesis mergeable_columns : names ⊆ map name (columns target_table).
Hypothesis mergeable_keyless : ∀ k, k ∈ primary_names target_table → k ∉ names.

Local Abbreviation find_key b t :=
  (list_find (λ old, index_value u old = index_value u b) (rows t)).

(** A settled row is rewritten with the cells it holds: the rows of the
    table stay as they are. *)
Lemma settled_row_unchanged (t : Table) (b : gmap string value) :
  table_class t = target_table →
  table_ok t →
  VNull ∉ index_value u b →
  settled u names t b →
  ∃ t1, insert_row (Overwrite (rewrite_all names)) t (supplied names b) = Ok t1 ∧
        table_class t1 = target_table ∧ table_ok t1 ∧ rows t1 = rows t.
Proof.
  intros Hcls Hok Hnull (i & cur & Hfind & Hcells).
  rewrite (insert_row_overwrite target_table u names target_names target_index
             index_columns mergeable_columns mergeable_keyless t b i cur) by done.
  pose proof Hfind as (Hi & _ & _)%list_find_Some.
  assert (Hupd : foldl (assign (row_of target_table (supplied names b) (auto_increment t)))
                   cur (rewrite_all names) = cur).
  { apply map_eq. intros k. rewrite rewritten_lookup.
    destruct (decide (k ∈ names)) as [Hk|]; [|done].
    rewrite Hcells by done. f_equal.
    unfold lookup_total, map_lookup_total.
    by rewrite (new_row_cell target_table names target_names mergeable_columns). }
  eexists. split; [reflexivity|]. split_and!.
  - done.
  - by apply (table_ok_overwritten target_table names mergeable_keyless t b i cur).
  - simpl. by rewrite Hupd, list_insert_id.
Qed.

Lemma settled_batch_unchanged (bs : list (gmap string value)) :
  ∀ t, table_class t = target_table →
       table_ok t →
       (∀ b, b ∈ bs → (VNull ∉ index_value u b) ∧ settled u names t b) →
       ∃ t', insert_rows (Overwrite (rewrite_all names)) t (map (supplied names) bs) = Ok t' ∧
             table_class t' = target_table ∧ table_ok t' ∧ rows t' = rows t.
Proof.
  induction bs as [|b bs IH]; intros t Hcls Hok Hbs; [by exists t|].
  destruct (Hbs b) as [Hnull Hset]; [by left|].
  destruct (settled_row_unchanged t b Hcls Hok Hnull Hset) as (t1 & Hrow & Hcls1 & Hok1 & Hrows1).
  cbn [map insert_rows]. rewrite Hrow. unfold_monad.
  destruct (IH t1 Hcls1 Hok1) as (t' & Hrun & Hcls' & Hok' & Hrows').
  - intros b' Hb'. destruct (Hbs b') as [Hn' Hs']; [by right|].
    split; [done|]. unfold settled. by rewrite Hrows1.
  - exists t'. split_and!; [done | done | done | congruence].
Qed.

(** One row of the first run settles its batch row and leaves the batch rows
    of other index values settled. *)
Lemma overwrite_settles_row (t : Table) (done : list (gmap string value))
    (b : gmap string value) :
  table_class t = target_table →
  table_ok t →
  (∀ b', b' ∈ done → settled u names t b') →
  index_value u b ∉ map (index_value u) done →
  VNull ∉ index_value u b →
  ∃ t1, insert_row (Overwrite (rewrite_all names)) t (supplied names b) = Ok t1 ∧
        table_class t1 = target_table ∧
        table_ok t1 ∧
        ∀ b', b' ∈ done ++ [b] → settled u names t1 b'.
Proof.
  intros Hcls Hok Hdone Hb Hnull.
  assert (Hother : ∀ b', b' ∈ done → index_value u b' ≠ index_value u b).
  { intros b' Hb' Heq. apply Hb. rewrite <- Heq. apply list_elem_of_fmap. by exists b'. }
  set (new := row_of target_table (supplied names b) (auto_increment t)).
  assert (Hnew_key : index_value u new = index_value u b)
    by apply (new_row_index target_table u names target_names index_columns mergeable_columns).
  assert (Hnew_cell : ∀ c, c ∈ names → new !! c = Some (b !!! c))
    by (intros c Hc; by apply new_row_cell).
  destruct (find_key b t) as [[i cur0]|] eqn:Hfind.
  - rewrite (insert_row_overwrite target_table u names target_names target_index
               index_columns mergeable_columns mergeable_keyless t b i cur0) by done.
    fold new.
    set (upd := foldl (assign new) cur0 (rewrite_all names)).
    assert (Hupd_key : index_value u upd = index_value u b)
      by apply (rewritten_index target_table u names target_names index_columns mergeable_columns).
    apply list_find_Some in Hfind as (Hi & Hkey0 & Hfirst).
    assert (Hi_lt : i < length (rows t)) by (by eapply lookup_lt_Some).
    eexists. split; [reflexivity|]. split; [done|]. split.
    { by apply (table_ok_overwritten target_table names mergeable_keyless t b i cur0). }
    unfold settled. simpl.
    intros b' [Hb'|Hb']%elem_of_app.
    + destruct (Hdone b' Hb') as (j & cur & Hfind' & Hcells).
      exists j, cur. split; [|done].
      apply list_find_Some in Hfind' as (Hj & Hkey & Hfirst').
      assert (Hne : j ≠ i).
      { intros ->. assert (cur = cur0) by congruence. subst cur.
        apply (Hother b' Hb'). congruence. }
      apply list_find_Some. split_and!; [by rewrite list_lookup_insert_ne | done |].
      intros k y Hk Hlt. destruct (decide (k = i)) as [->|Hki].
      * rewrite list_lookup_insert_eq in Hk by done. inversion Hk; subst y.
        rewrite Hupd_key. intros Heq. by apply (Hother b' Hb').
      * rewrite list_lookup_insert_ne in Hk by done. by eapply Hfirst'.
    + apply list_elem_of_singleton in Hb' as ->.
      exists i, upd. split.
      * apply list_find_Some. split_and!; [by rewrite list_lookup_insert_eq | done |].
        intros k y Hk Hlt. rewrite list_lookup_insert_ne in Hk by lia. by eapply Hfirst.
      * intros c Hc. subst upd. rewrite rewritten_lookup, decide_True by done.
        f_equal. unfold lookup_total, map_lookup_total. by rewrite Hnew_cell.
  - apply list_find_None in Hfind. rewrite Forall_forall in Hfind.
    rewrite (insert_row_fresh target_table u names target_names target_index
               index_columns mergeable_columns mergeable_keyless _ t b Hcls Hok Hnull).
    2:{ intros (old & Hk & Hold)%list_elem_of_fmap. by apply (Hfind old Hold). }
    eexists. split; [reflexivity|]. split; [done|]. split.
    { apply table_ok_append; [by rewrite Hcls | done |].
      rewrite Hcls. by apply (supplied_keyless target_table names). }
    unfold settled, append_row. simpl. rewrite Hcls. fold new.
    intros b' [Hb'|Hb']%elem_of_app.
    + destruct (Hdone b' Hb') as (j & cur & Hfind' & Hcells).
      exists j, cur. split; [|done]. by apply list_find_app_l.
    + apply list_elem_of_singleton in Hb' as ->.
      exists (length (rows t)), new. split; [|done].
      apply list_find_Some. split_and!.
      * rewrite lookup_app_r by lia. by rewrite Nat.sub_diag.
      * done.
      * intros k y Hk Hlt. rewrite lookup_app_l in Hk by done.
        apply Hfind. by eapply list_elem_of_lookup_2.
Qed.

Lemma overwrite_settles (todo : list (gmap string value)) :
  ∀ done t,
    table_class t = target_table →
    table_ok t →
    (∀ b, b ∈ done → settled u names t b) →
    distinct_keys u (done ++ todo) →
    ∃ t', insert_rows (Overwrite (rewrite_all names)) t (map (supplied names) todo) = Ok t' ∧
          table_class t' = target_table ∧
          table_ok t' ∧
          ∀ b, b ∈ done ++ todo → settled u names t' b.
Proof.
  induction todo as [|b todo IH]; intros done t Hcls Hok Hdone [Hnd Hnull].
  - exists t. by rewrite app_nil_r.
  - rewrite map_app in Hnd. apply NoDup_app in Hnd as (Hnd_done & Hcross & Hnd_todo).
    destruct (overwrite_settles_row t done b Hcls Hok Hdone)
      as (t1 & Hrow & Hcls1 & Hok1 & Hdone1).
    + intros Hin. apply (Hcross _ Hin). simpl. by left.
    + apply Hnull. apply elem_of_app. right. by left.
    + cbn [map insert_rows]. rewrite Hrow. unfold_monad.
      replace (done ++ b :: todo) with ((done ++ [b]) ++ todo) by by rewrite <- app_assoc.
      apply IH; [done | done | done |]. rewrite <- app_assoc. simpl. split; [|done].
      rewrite map_app. by apply NoDup_app.
Qed.

End merge_again.

(** X12.  The overwrite policy is idempotent on the rows, for a batch with
    distinct index values.  Take a target class with one unique index [u]
    over mergeable columns and its scratch class as the data model has them
    ([scratch_of]), a batch over the non-key columns of the scratch class
    whose staged rows carry pairwise distinct values under [u], none with a
    NULL, a server that does not fail, and the target table stored under its
    name with its counter above its ids.  Then a first run of [to_mysql] with
    "update" succeeds and leaves every batch row settled; running it again
    with the same frame succeeds and leaves the rows of the target, in their
    order, as the first run left them (the counter of the table moves on). *)
Theorem overwrite_is_idempotent
    (self : Operation) (df : DataFrame) (target_table temp_table : DeclarativeMeta)
    (u : list string) (w : World) (T : Table) :
  scratch_of target_table temp_table →
  uniques target_table = [u] →
  u ⊆ mergeable temp_table →
  valid_batch temp_table df →
  distinct_keys u (rows (staged temp_table df)) →
  no_faults w →
  durable w !! __tablename__ target_table = Some T →
  table_class T = target_table →
  table_ok T →
  ∃ w' w'' T' T'',
    to_mysql self df target_table temp_table "update" w = (Ok tt, w') ∧
    durable w' = <[__tablename__ target_table := T']> (durable w) ∧
    (∀ b, b ∈ rows (staged temp_table df) → settled u (mergeable temp_table) T' b) ∧
    to_mysql self df target_table temp_table "update" w' = (Ok tt, w'') ∧
    durable w'' = <[__tablename__ target_table := T'']> (durable w') ∧
    table_class T'' = table_class T' ∧
    rows T'' = rows T'.
Proof.
  intros Hs Hidx Hu Hcols Hkeys Hnf HT HclsT HokT.
  assert (Hp : "update" ∈ ["update"; "ignore"]) by (by left).
  pose proof (scratch_schema_ok _ _ Hs) as Hok.
  destruct (overwrite_settles target_table u (mergeable temp_table)
              (scratch_target_names _ _ Hs) Hidx Hu (scratch_columns _ _ Hs)
              (scratch_keyless _ _ Hs)
              (rows (staged temp_table df)) [] T HclsT HokT)
    as (T' & Hrows & HclsT' & HokT' & Hsettled); [by intros b Hb%elem_of_nil | done |].
  simpl in Hsettled.
  destruct (to_mysql_merges self df target_table temp_table "update" w T T'
              Hok (scratch_plain _ _ Hs) (scratch_target_plain _ _ Hs)
              (scratch_columns _ _ Hs) (scratch_some _ _ Hs) (scratch_tablenames _ _ Hs)
              Hp (scratch_unindexed _ _ Hs) Hcols Hnf HT HclsT Hrows)
    as (stmt & w' & _ & _ & _ & Hrun & _ & Hd & Hfl).
  destruct (settled_batch_unchanged target_table u (mergeable temp_table)
              (scratch_target_names _ _ Hs) Hidx Hu (scratch_columns _ _ Hs)
              (scratch_keyless _ _ Hs)
              (rows (staged temp_table df)) T' HclsT' HokT')
    as (T'' & Hrows' & HclsT'' & _ & Hsame).
  { intros b Hb. split; [by apply Hkeys | by apply Hsettled]. }
  destruct (to_mysql_merges self df target_table temp_table "update" w' T' T''
              Hok (scratch_plain _ _ Hs) (scratch_target_plain _ _ Hs)
              (scratch_columns _ _ Hs) (scratch_some _ _ Hs) (scratch_tablenames _ _ Hs)
              Hp (scratch_unindexed _ _ Hs) Hcols)
    as (stmt' & w'' & _ & _ & _ & Hrun' & _ & Hd' & _); try done.
  { intros i. rewrite Hfl. apply Hnf. }
  { rewrite Hd. apply lookup_insert_eq. }
  exists w', w'', T', T''. split_and!; [done | done | done | done | done | congruence | done].
Qed.

Lemma overwrite_is_idempotent_witness :
  ∃ w' w'' T' T'',
    to_mysql op batch users users_temp "update" world0 = (Ok tt, w') ∧
    to_mysql op batch users users_temp "update" w' = (Ok tt, w'') ∧
    durable w' !! "users" = Some T' ∧
    durable w'' !! "users" = Some T'' ∧
    rows T'' = rows T'.
Proof.
  destruct (overwrite_is_idempotent op batch users users_temp ["email"] world0 users_table)
    as (w' & w'' & T' & T'' & H1 & H2 & _ & H3 & H4 & _ & H5).
  - apply users_scratch.
  - reflexivity.
  - apply (bool_decide_unpack _). by vm_compute.
  - apply batch_valid.
  - apply batch_distinct_keys.
  - intros i. reflexivity.
  - apply world0_users.
  - reflexivity.
  - apply users_table_ok.
  - exists w', w'', T', T''. split_and!; [exact H1 | exact H3 | | | exact H5].
    + rewrite H2. apply lookup_insert_eq.
    + rewrite H4. apply lookup_insert_eq.
Defined.

(** *** A target without a unique index *)

Lemma staged_length (temp_table : DeclarativeMeta) (df : DataFrame) :
  length (rows (staged temp_table df)) = length (df_values df).
Proof.
  unfold staged, frame_rows. rewrite append_rows_length. simpl. by rewrite length_map.
Qed.

(** X13.  When the target class declares no unique index, nothing counts as
    a duplicate and the two policies do the same.  Take a target class
    without unique index and its scratch class as the data model has them
    ([scratch_of]), a batch over the non-key columns of the scratch class, a
    server that does not fail, and the target table stored under its name
    with its counter above its ids.  Then [to_mysql] succeeds under either
    policy and the target afterwards holds its old rows followed by one new
    row for every row of the frame. *)
Theorem without_unique_index_every_row_is_inserted
    (self : Operation) (df : DataFrame) (target_table temp_table : DeclarativeMeta)
    (if_record_exists : string) (w : World) (T : Table) :
  scratch_of target_table temp_table →
  uniques target_table = [] →
  if_record_exists ∈ ["update"; "ignore"] →
  valid_batch temp_table df →
  no_faults w →
  durable w !! __tablename__ target_table = Some T →
  table_class T = target_table →
  table_ok T →
  let T' := append_rows T (map (supplied (mergeable temp_table))
                             (rows (staged temp_table df))) in
  ∃ w',
    to_mysql self df target_table temp_table if_record_exists w = (Ok tt, w') ∧
    durable w' = <[__tablename__ target_table := T']> (durable w) ∧
    (∃ added, rows T' = rows T ++ added ∧ length added = length (df_values df)).
Proof.
  intros Hs Hu' Hp Hcols Hnf HT HclsT HokT T'.
  pose proof (scratch_schema_ok _ _ Hs) as Hok.
  assert (Hgs : Forall (keyless (table_class T))
                  (map (supplied (mergeable temp_table)) (rows (staged temp_table df)))).
  { apply Forall_forall. intros g (b & -> & _)%list_elem_of_fmap.
    rewrite HclsT. apply (supplied_keyless target_table (mergeable temp_table)).
    apply (scratch_keyless _ _ Hs). }
  assert (Hnd : NoDup (map name (columns (table_class T)))).
  { rewrite HclsT. apply (scratch_target_names _ _ Hs). }
  destruct (to_mysql_merges self df target_table temp_table if_record_exists w T T'
              Hok (scratch_plain _ _ Hs) (scratch_target_plain _ _ Hs)
              (scratch_columns _ _ Hs) (scratch_some _ _ Hs) (scratch_tablenames _ _ Hs)
              Hp (scratch_unindexed _ _ Hs) Hcols Hnf HT HclsT)
    as (stmt & w' & _ & _ & _ & Hrun & _ & Hd & _).
  { apply insert_rows_no_index; [done | done | by rewrite HclsT | done]. }
  exists w'. split_and!; [done | done |].
  subst T'. rewrite append_rows_rows by done. eexists. split; [reflexivity|].
  by rewrite length_imap, length_map, staged_length.
Qed.

Lemma users_noindex_scratch : scratch_of users_noindex users_temp.
Proof.
  split.
  - apply (bool_decide_unpack _). by vm_compute.
  - exact plain_users_temp.
  - reflexivity.
  - exact plain_users.
  - apply (bool_decide_unpack _). by vm_compute.
  - apply (bool_decide_unpack _). by vm_compute.
  - discriminate.
  - apply Forall_forall. apply (bool_decide_unpack _). by vm_compute.
  - discriminate.
Qed.

Lemma without_unique_index_every_row_is_inserted_witness :
  ∃ w',
    to_mysql op batch users_noindex users_temp "ignore" world_noindex = (Ok tt, w') ∧
    ∃ T', durable w' !! __tablename__ users_noindex = Some T' ∧
          length (rows T') = length (rows users_table) + length (df_values batch).
Proof.
  destruct (without_unique_index_every_row_is_inserted op batch users_noindex users_temp
              "ignore" world_noindex
              {| table_class := users_noindex; rows := rows users_table;
                 auto_increment := auto_increment users_table |})
    as (w' & Hrun & Hd & added & Hrows & Hlen).
  - apply users_noindex_scratch.
  - reflexivity.
  - apply elem_of_cons. right. apply elem_of_cons. by left.
  - apply batch_valid.
  - intros i. reflexivity.
  - reflexivity.
  - reflexivity.
  - exact users_table_ok.
  - exists w'. split; [done|]. eexists. split.
    + rewrite Hd. apply lookup_insert_eq.
    + rewrite Hrows, length_app, Hlen. done.
Defined.

(** *** The two policies side by side *)

Section merge_keys.
Context (target_table : DeclarativeMeta) (u names : list string).
Hypothesis target_names : NoDup (map name (columns target_table)).
Hypothesis target_index : uniques target_table = [u].
Hypothesis index_columns : u ⊆ names.
Hypothesis mergeable_columns : names ⊆ map name (columns target_table).
Hypothesis mergeable_keyless : ∀ k, k ∈ primary_names target_table → k ∉ names.

(** The index values of the target after an overwrite merge: those it had,
    at their places, then those of the batch rows that were new. *)
Lemma overwrite_keys (bs : list (gmap string value)) :
  ∀ t, table_class t = target_table →
       table_ok t →
       distinct_keys u bs →
       ∃ t', insert_rows (Overwrite (rewrite_all names)) t (map (supplied names) bs) = Ok t' ∧
             table_class t' = target_table ∧
             map (index_value u) (rows t')
               = map (index_value u) (rows t) ++
                 map (index_value u)
                   (filter (λ b, index_value u b ∉ map (index_value u) (rows t)) bs).
Proof.
  induction bs as [|b bs IH]; intros t Hcls Hok [Hnd Hnull].
  - exists t. simpl. by rewrite app_nil_r.
  - simpl in Hnd. apply NoDup_cons in Hnd as [Hb Hnd].
    assert (Hbnull : VNull ∉ index_value u b) by (apply Hnull; by left).
    assert (Hrest : distinct_keys u bs).
    { split; [done|]. intros b' Hb'. apply Hnull. by right. }
    cbn [map insert_rows]. rewrite filter_cons.
    destruct (decide (index_value u b ∈ map (index_value u) (rows t))) as [Hin|Hout].
    + destruct (find_key_present u (rows t) b Hin) as (i & old & Hfind & Hi & Hkey).
      rewrite (insert_row_overwrite target_table u names target_names target_index
                 index_columns mergeable_columns mergeable_keyless t b i old) by done.
      unfold_monad. rewrite decide_False by tauto.
      set (upd := foldl _ old _).
      assert (Hsame : map (index_value u) (<[i:=upd]> (rows t))
                      = map (index_value u) (rows t)).
      { change (index_value u <$> <[i:=upd]> (rows t) = index_value u <$> rows t).
        rewrite list_fmap_insert. apply list_insert_id.
        rewrite list_lookup_fmap, Hi. simpl. f_equal. subst upd.
        rewrite Hkey. symmetry.
        apply (rewritten_index target_table u names target_names index_columns
                 mergeable_columns). }
      destruct (IH (rewritten t (supplied names b) i upd)) as (t' & Hrun & Hcls' & Hkeys);
        [done | | done |].
      { by apply (table_ok_overwritten target_table names mergeable_keyless t b i old). }
      exists t'. split_and!; [done | done |].
      simpl in Hkeys. by rewrite Hkeys, Hsame.
    + rewrite (insert_row_fresh target_table u names target_names target_index
                 index_columns mergeable_columns mergeable_keyless) by done.
      unfold_monad. rewrite decide_True by done.
      destruct (IH (append_row t (supplied names b))) as (t' & Hrun & Hcls' & Hkeys);
        [done | | done |].
      { apply table_ok_append; [by rewrite Hcls | done |].
        rewrite Hcls. by apply (supplied_keyless target_table names). }
      exists t'. split_and!; [done | done |].
      rewrite Hkeys. simpl. rewrite map_app. simpl.
      rewrite Hcls, (new_row_index target_table u names target_names index_columns
                       mergeable_columns).
      rewrite <- app_assoc. simpl. do 3 f_equal.
      apply filter_ext_elem. intros b' Hb'. rewrite elem_of_app, list_elem_of_singleton.
      split; [tauto|]. intros Hn [?|Heq]; [done|].
      apply Hb. rewrite <- Heq. apply list_elem_of_fmap. by exists b'.
Qed.

(** Rows that carry the mergeable cells of batch rows carry their index
    values. *)
Lemma added_keys (added bs : list (gmap string value)) :
  Forall2 (λ r b, ∀ c, c ∈ names → r !!! c = b !!! c) added bs →
  map (index_value u) added = map (index_value u) bs.
Proof.
  induction 1 as [|r b added bs Hrb _ IH]; [done|].
  simpl. rewrite IH. f_equal. unfold index_value.
  apply map_ext_in. intros c Hc%list_elem_of_In. by apply Hrb, index_columns.
Qed.

End merge_keys.

(** X15.  The two policies insert the same rows.  Take a target class with
    one unique index [u] over mergeable columns and its scratch class as the
    data model has them ([scratch_of]), a batch over the non-key columns of
    the scratch class whose staged rows carry pairwise distinct values under
    [u], none with a NULL, a server that does not fail, and the target table
    stored under its name with its counter above its ids.  Then the target
    after a run with "update" and the target after a run with "ignore" from
    the same state carry the same index values at the same positions, so they
    have the same number of rows: the policies differ in the cells of the
    rows that were there before only. *)
Theorem policies_insert_the_same_rows
    (self : Operation) (df : DataFrame) (target_table temp_table : DeclarativeMeta)
    (u : list string) (w : World) (T : Table) :
  scratch_of target_table temp_table →
  uniques target_table = [u] →
  u ⊆ mergeable temp_table →
  valid_batch temp_table df →
  distinct_keys u (rows (staged temp_table df)) →
  no_faults w →
  durable w !! __tablename__ target_table = Some T →
  table_class T = target_table →
  table_ok T →
  ∃ wu wi Tu Ti,
    to_mysql self df target_table temp_table "update" w = (Ok tt, wu) ∧
    to_mysql self df target_table temp_table "ignore" w = (Ok tt, wi) ∧
    durable wu !! __tablename__ target_table = Some Tu ∧
    durable wi !! __tablename__ target_table = Some Ti ∧
    map (index_value u) (rows Tu) = map (index_value u) (rows Ti) ∧
    length (rows Tu) = length (rows Ti) ∧
    take (length (rows T)) (rows Ti) = rows T.
Proof.
  intros Hs Hidx Hu Hcols Hkeys Hnf HT HclsT HokT.
  pose proof (scratch_schema_ok _ _ Hs) as Hok.
  assert (Hidx' : ∀ v, v ∈ uniques target_table → v ⊆ mergeable temp_table).
  { intros v Hv. rewrite Hidx in Hv. by apply list_elem_of_singleton in Hv as ->. }
  assert (Hkeys' : ∀ v, v ∈ uniques target_table →
                        distinct_keys v (rows (staged temp_table df))).
  { intros v Hv. rewrite Hidx in Hv. by apply list_elem_of_singleton in Hv as ->. }
  destruct (overwrite_keys target_table u (mergeable temp_table)
              (scratch_target_names _ _ Hs) Hidx Hu (scratch_columns _ _ Hs)
              (scratch_keyless _ _ Hs)
              (rows (staged temp_table df)) T HclsT HokT Hkeys)
    as (Tu & Hrows_u & _ & Hidx_u).
  destruct (skip_batch target_table (mergeable temp_table)
              (scratch_target_names _ _ Hs) Hidx' (scratch_columns _ _ Hs)
              (scratch_keyless _ _ Hs)
              (rows (staged temp_table df)) T HclsT HokT Hkeys')
    as (Ti & added & Hrows_i & _ & _ & Happ & Hcells).
  destruct (to_mysql_merges self df target_table temp_table "update" w T Tu
              Hok (scratch_plain _ _ Hs) (scratch_target_plain _ _ Hs)
              (scratch_columns _ _ Hs) (scratch_some _ _ Hs) (scratch_tablenames _ _ Hs))
    as (_ & wu & _ & _ & _ & Hrun_u & _ & Hd_u & _); try done.
  { by left. }
  { apply (scratch_unindexed _ _ Hs). }
  destruct (to_mysql_merges self df target_table temp_table "ignore" w T Ti
              Hok (scratch_plain _ _ Hs) (scratch_target_plain _ _ Hs)
              (scratch_columns _ _ Hs) (scratch_some _ _ Hs) (scratch_tablenames _ _ Hs))
    as (_ & wi & _ & _ & _ & Hrun_i & _ & Hd_i & _); try done.
  { right. by left. }
  { apply (scratch_unindexed _ _ Hs). }
  exists wu, wi, Tu, Ti.
  assert (Hsame : map (index_value u) (rows Tu) = map (index_value u) (rows Ti)).
  { rewrite Hidx_u, Happ, map_app. f_equal.
    rewrite (added_keys u (mergeable temp_table) Hu _ _ Hcells). f_equal.
    apply filter_ext_elem. intros b Hb. unfold absent.
    by rewrite Hidx, Forall_singleton. }
  split_and!; [done | done | | | done | |].
  - rewrite Hd_u. apply lookup_insert_eq.
  - rewrite Hd_i. apply lookup_insert_eq.
  - by rewrite <- (length_map (index_value u)), Hsame, length_map.
  - rewrite Happ. by rewrite take_app_length.
Qed.

Lemma policies_insert_the_same_rows_witness :
  ∃ wu wi Tu Ti,
    to_mysql op batch users users_temp "update" world0 = (Ok tt, wu) ∧
    to_mysql op batch users users_temp "ignore" world0 = (Ok tt, wi) ∧
    durable wu !! "users" = Some Tu ∧ durable wi !! "users" = Some Ti ∧
    length (rows Tu) = length (rows Ti).
Proof.
  destruct (policies_insert_the_same_rows op batch users users_temp ["email"] world0
              users_table)
    as (wu & wi & Tu & Ti & H1 & H2 & H3 & H4 & _ & H5 & _).
  - apply users_scratch.
  - reflexivity.
  - apply (bool_decide_unpack _). by vm_compute.
  - apply batch_valid.
  - apply batch_distinct_keys.
  - intros i. reflexivity.
  - apply world0_users.
  - reflexivity.
  - apply users_table_ok.
  - by exists wu, wi, Tu, Ti.
Defined.

(** ** The decorators *)

Lemma retry_times_rounds (self : Retry) :
  (Z.to_nat (retry_times self) = 0 ∧ (0 <? retry_times self)%Z = false) ∨
  (∃ n, Z.to_nat (retry_times self) = S n ∧ (0 <? retry_times self)%Z = true).
Proof.
  destruct (Z.to_nat (retry_times self)) as [|n] eqn:Hn.
  - left. split; [done|]. apply Z.ltb_ge. lia.
  - right. exists n. split; [done|]. apply Z.ltb_lt. lia.
Qed.

(** The first round of the loop always leaves the function. *)
Lemma Retry_body_leaves {S A : Type} (self : Retry) (none : A) (wrapped : S → result A * S)
    (st : S * list Console) :
  (Retry_body self none wrapped st).1 ≠ Ok Fallthrough.
Proof.
  unfold Retry_body, Retry_try, Retry_sleep.
  destruct (wrapped st.1) as [[a|e] s']; simpl; [done|].
  destruct (errors self e); [|done].
  by destruct (wait_secs self <? 0)%Z.
Qed.

Lemma for_range_first {S A : Type} (n : nat) (body : Decorated S (Flow A)) (none : A)
    (st : S * list Console) :
  (body st).1 ≠ Ok Fallthrough →
  for_range (Datatypes.S n) body none st = for_range 1 body none st.
Proof.
  intros Hleave. simpl. destruct (body st) as [[[a|]|e] st']; [done | | done].
  by exfalso.
Qed.

(** X16.  [Retry] never retries.  Whatever [retry_times], [wait_secs] and
    [errors] are and whatever the wrapped function does, one call of the
    decorated function calls the wrapped function once when [retry_times] is
    positive, and never otherwise: the [return None] that ends the loop body
    is reached after the first failed attempt already. *)
Theorem Retry_calls_the_function_at_most_once {S A : Type}
    (self : Retry) (none : A) (wrapped : S → result A * S)
    (s : S) (calls : nat) (out : list Console) :
  (Retry_call self none (counted wrapped) ((s, calls), out)).2.1.2
    = if (0 <? retry_times self)%Z then Datatypes.S calls else calls.
Proof.
  unfold Retry_call.
  destruct (retry_times_rounds self) as [[-> ->]|(n & -> & ->)]; [done|].
  rewrite for_range_first by apply Retry_body_leaves.
  unfold for_range, Retry_body, Retry_try, Retry_sleep, counted. simpl.
  destruct (wrapped s) as [[a|e] s']; simpl; [done|].
  destruct (errors self e); simpl; [|done].
  by destruct (wait_secs self <? 0)%Z.
Qed.

(** X17.  [Retry] around [to_mysql].  When a run of [to_mysql] raises an
    exception of one of the classes of [errors] ([retry_times] positive,
    [wait_secs] not negative), the decorated call prints the exception, sleeps
    once and returns [None], as a successful run does; [to_mysql] has run
    once, there is no second attempt, and the rows of the frame are not in
    the database: the durable state is what it was before the call. *)
Theorem Retry_reports_a_failed_merge_as_None
    (retry : Retry) (self : Operation) (df : DataFrame)
    (target_table temp_table : DeclarativeMeta) (if_record_exists : string)
    (w : World) (out : list Console) (e : exn) :
  let run := to_mysql self df target_table temp_table if_record_exists in
  (0 < retry_times retry)%Z →
  (0 ≤ wait_secs retry)%Z →
  (run w).1 = Raise e →
  errors retry e = true →
  Retry_call retry tt run (w, out) = (Ok tt, ((run w).2, out ++ [Printed e; Slept])) ∧
  durable (run w).2 = durable w.
Proof.
  intros run Hn Hwait Hraise Hcaught. split.
  - unfold Retry_call.
    destruct (retry_times_rounds retry) as [[_ Hle]|(n & -> & _)].
    { apply Z.ltb_ge in Hle. lia. }
    rewrite for_range_first by apply Retry_body_leaves.
    unfold for_range, Retry_body, Retry_try, Retry_sleep. simpl.
    destruct (run w) as [r w'] eqn:Hrun. simpl in Hraise. subst r.
    rewrite Hcaught.
    destruct (wait_secs retry <? 0)%Z eqn:Hneg; [apply Z.ltb_lt in Hneg; lia|].
    simpl. by rewrite <- app_assoc.
  - revert Hraise. subst run. unfold to_mysql. case_bool_decide; [done|].
    unfold _session_scope, try_finally, try_except, commit, server_call, rollback, close, raise.
    unfold_monad. simpl.
    destruct (to_mysql_block _ _ _ _ _ _) as [r w2] eqn:Hblock.
    destruct (quiet_to_mysql_block _ _ _ _ _ _ _ _ Hblock) as (Hd & _). simpl in Hd.
    destruct r as [[]|e'].
    + destruct (faults w2 (clock w2)) as [e'|]; [|done].
      by destruct (is_Exception e').
    + by destruct (is_Exception e').
Qed.

Lemma Retry_reports_a_failed_merge_as_None_witness :
  (Retry_call Retry_default tt (to_mysql op batch users users_temp "update")
     (faulty_world 2 (OperationalError "gone away"), [])).1 = Ok tt ∧
  durable (to_mysql op batch users users_temp "update"
             (faulty_world 2 (OperationalError "gone away"))).2
    = durable (faulty_world 2 (OperationalError "gone away")).
Proof.
  destruct (Retry_reports_a_failed_merge_as_None Retry_default op batch users users_temp
              "update" (faulty_world 2 (OperationalError "gone away")) []
              (OperationalError "gone away")) as [H1 H2].
  - reflexivity.
  - done.
  - by vm_compute.
  - reflexivity.
  - split; [by rewrite H1 | exact H2].
Defined.

(** X18.  [Singleton] keeps the first instance.  Once a call of a decorated
    class has returned an instance, every later call of that class, whatever
    its arguments, returns the same instance without constructing anything,
    and leaves the record of instances as it is; the instances recorded for
    other classes were not touched by the first call. *)
Theorem Singleton_returns_the_first_instance {S V : Type}
    (wrapped : string) (construct construct' : S → result V * S) (args args' : list value)
    (s s1 s2 : S) (instances instances1 : gmap string V) (v : V) :
  Singleton_call wrapped construct args (s, instances) = (Ok v, (s1, instances1)) →
  Singleton_call wrapped construct' args' (s2, instances1) = (Ok v, (s2, instances1)) ∧
  (∀ other, other ≠ wrapped → instances1 !! other = instances !! other) ∧
  (instances !! wrapped = None → construct s = (Ok v, s1)).
Proof.
  unfold Singleton_call. simpl.
  destruct (instances !! wrapped) as [v0|] eqn:Hin; simpl.
  - rewrite Hin. intros [= <- <- <-]. rewrite Hin. simpl. by rewrite Hin.
  - destruct (construct s) as [[v0|e] s'] eqn:Hc; simpl; [|done].
    rewrite lookup_insert_eq. intros [= <- <- <-].
    rewrite lookup_insert_eq. simpl. rewrite lookup_insert_eq.
    split_and!; [done | | done].
    intros other Hne. by rewrite lookup_insert_ne.
Qed.

Lemma Singleton_returns_the_first_instance_witness :
  Singleton_call "Config" (λ n : nat, (Ok (n + 1), n + 1)) [VInt 5]
    (7, <["Config" := 3]> (∅ : gmap string nat)) = (Ok 3, (7, <["Config" := 3]> ∅)).
Proof.
  destruct (Singleton_returns_the_first_instance "Config"
              (λ n : nat, (Ok (n + 2), n + 2)) (λ n : nat, (Ok (n + 1), n + 1))
              [] [VInt 5] 1 3 7 ∅ (<["Config" := 3]> ∅) 3) as (H & _).
  - by vm_compute.
  - exact H.
Defined.

(** X19.  A failed construction records nothing: when the constructor
    raises, the exception reaches the caller of the decorated class and the
    record of instances is unchanged, so the next call constructs again; and
    a call never fails on the final lookup of the instance. *)
Theorem Singleton_failure_records_nothing {S V : Type}
    (wrapped : string) (construct : S → result V * S) (args : list value)
    (s s1 : S) (instances instances1 : gmap string V) (e : exn) :
  Singleton_call wrapped construct args (s, instances) = (Raise e, (s1, instances1)) →
  instances1 = instances ∧ instances !! wrapped = None ∧ construct s = (Raise e, s1).
Proof.
  unfold Singleton_call. simpl.
  destruct (instances !! wrapped) as [v0|] eqn:Hin; simpl.
  - by rewrite Hin.
  - destruct (construct s) as [[v0|e0] s'] eqn:Hc; simpl.
    + by rewrite lookup_insert_eq.
    + by intros [= <- <- <-].
Qed.

Lemma Singleton_failure_records_nothing_witness :
  Singleton_call "Config" (λ n : nat, (Raise (ValueError "no config") : result nat, n + 1))
    [] (0, <["Other" := 1]> ∅)
    = (Raise (ValueError "no config"), (1, <["Other" := 1]> ∅)) ∧
  (<["Other" := 1]> ∅ : gmap string nat) !! "Config" = None.
Proof.
  assert (Hrun : Singleton_call "Config"
            (λ n : nat, (Raise (ValueError "no config") : result nat, n + 1))
            [] (0, <["Other" := 1]> ∅)
          = (Raise (ValueError "no config"), (1, <["Other" := 1]> ∅))) by (by vm_compute).
  split; [exact Hrun|].
  by destruct (Singleton_failure_records_nothing _ _ _ _ _ _ _ _ Hrun) as (_ & H & _).
Defined.

(** ** The user-agent generator *)

(** X20.  With a platform that is neither "PC" nor "mobile", [get_ua] never
    returns: every round draws a user agent and goes round again, however
    many rounds it is given. *)
Theorem get_ua_never_returns_for_another_platform
    (fake_ua_func : nat → string) (platform : string) :
  platform ≠ "PC" → platform ≠ "mobile" →
  ∀ fuel drawn, get_ua fuel fake_ua_func platform drawn = None.
Proof.
  intros Hpc Hmobile. induction fuel as [|fuel IH]; intros drawn; [done|].
  simpl. rewrite !bool_decide_eq_false_2 by done. apply IH.
Qed.

Lemma get_ua_never_returns_for_another_platform_witness :
  get_ua 100 sample_ua "pc" 0 = None.
Proof.
  apply get_ua_never_returns_for_another_platform; done.
Defined.

(** X21.  With platform "PC" or "mobile", [get_ua] returns the first user
    agent drawn that contains "Windows", respectively "iPhone": when the
    draw number [k] from now is the first such one, every run given more than
    [k] rounds returns it, having drawn [k + 1] user agents. *)
Theorem get_ua_returns_the_first_match
    (fake_ua_func : nat → string) (platform : string) (k : nat) :
  platform ∈ ["PC"; "mobile"] →
  ∀ drawn fuel,
    (∀ j, j < k → contains (platform_mark platform) (fake_ua_func (drawn + j)) = false) →
    contains (platform_mark platform) (fake_ua_func (drawn + k)) = true →
    k < fuel →
    get_ua fuel fake_ua_func platform drawn
      = Some (fake_ua_func (drawn + k), drawn + k + 1).
Proof.
  intros Hp. induction k as [|k IH]; intros drawn fuel Hbefore Hhit Hfuel.
  - destruct fuel as [|fuel]; [lia|]. rewrite Nat.add_0_r in *. simpl.
    unfold platform_mark in Hhit.
    case_bool_decide as Hpc.
    + rewrite Hhit. do 2 f_equal. lia.
    + rewrite bool_decide_eq_true_2.
      * rewrite Hhit. do 2 f_equal. lia.
      * apply elem_of_cons in Hp as [?|Hp]; [done|].
        by apply list_elem_of_singleton in Hp.
  - destruct fuel as [|fuel]; [lia|].
    assert (Hmiss : contains (platform_mark platform) (fake_ua_func drawn) = false).
    { rewrite <- (Nat.add_0_r drawn). apply Hbefore. lia. }
    assert (Hnext : get_ua fuel fake_ua_func platform (Datatypes.S drawn)
                    = Some (fake_ua_func (drawn + Datatypes.S k), drawn + Datatypes.S k + 1)).
    { replace (drawn + Datatypes.S k) with (Datatypes.S drawn + k) by lia.
      apply IH; [|by replace (Datatypes.S drawn + k) with (drawn + Datatypes.S k) by lia|lia].
      intros j Hj. replace (Datatypes.S drawn + j) with (drawn + Datatypes.S j) by lia.
      apply Hbefore. lia. }
    simpl. unfold platform_mark in Hmiss.
    case_bool_decide as Hpc.
    + by rewrite Hmiss.
    + rewrite bool_decide_eq_true_2.
      * by rewrite Hmiss.
      * apply elem_of_cons in Hp as [?|Hp]; [done|].
        by apply list_elem_of_singleton in Hp.
Qed.

Lemma get_ua_returns_the_first_match_witness :
  get_ua 3 sample_ua "PC" 0 = Some (ua_windows, 3) ∧
  get_ua 2 sample_ua "mobile" 0 = Some (ua_iphone, 2).
Proof.
  split.
  - apply (get_ua_returns_the_first_match sample_ua "PC" 2).
    + by left.
    + intros j Hj. destruct j as [|[|j]]; [by vm_compute | by vm_compute | lia].
    + by vm_compute.
    + lia.
  - apply (get_ua_returns_the_first_match sample_ua "mobile" 1).
    + right. by left.
    + intros j Hj. destruct j as [|j]; [by vm_compute | lia].
    + by vm_compute.
    + lia.
Defined.
